(** * A shallow embedding of the cron scheduler (cron.go, mapToSlice)

    The Go program keeps a registry [map[string]*Entry], a loop goroutine
    ([run]) with a local, sorted slice of entry pointers, and a handful of
    unbuffered channels through which callers reach the loop.  The embedding
    keeps the pointers: entries live in a heap, the registry and the loop's
    slice hold addresses, and every mutation the code performs through a
    pointer is a heap update here. *)

From Stdlib Require Import ZArith Lia Permutation Sorted.
From stdpp Require Import base option list sorting gmap strings.

Local Open Scope Z_scope.

(** ** Time

    A [time.Time] is modelled by the instant it denotes, as an integer count
    of nanoseconds since the zero time (January 1, year 1, 00:00:00 UTC).
    [In(location)] changes how an instant is displayed, not the instant, so
    it is the identity on this model. *)

Definition Time := Z.

Definition zeroTime : Time := 0.

Definition IsZero (t : Time) : bool := t =? 0.
Definition Before (t u : Time) : bool := t <? u.
Definition After (t u : Time) : bool := u <? t.
Definition In (t : Time) (location : string) : Time := t.

(** [time.Duration] is an int64 count of nanoseconds; [Time.Sub] saturates
    at the ends of that range. *)
Definition Duration := Z.
Definition maxDuration : Duration := 2 ^ 63 - 1.
Definition minDuration : Duration := - 2 ^ 63.
Definition Hour : Duration := 3600 * 1000000000.

Definition Sub (t u : Time) : Duration :=
  let d := t - u in
  if maxDuration <? d then maxDuration
  else if d <? minDuration then minDuration
  else d.

(** ** Jobs, schedules, entries *)

(** What a call of [Run()] or of a [func()] does, as far as the scheduler
    can tell: it returns, or it panics with a value (the value is kept by
    its [%v] rendering; a panic with a nil value is what Go 1.21 and later
    make of it, a non-nil runtime error).  A panic that reaches the top of a
    goroutine ends the whole process. *)
Inductive outcome :=
| Returned
| Panicked (r : string).

(** A [func()] value. *)
Record func := mkFunc { func_id : nat; func_body : outcome }.

(** The [Job] interface, with its implementation [FuncJob] and any other
    implementation a caller may supply. *)
Inductive Job :=
| FuncJob (f : func)
| UserJob (id : nat) (body : outcome).

Definition Run (j : Job) : outcome :=
  match j with
  | FuncJob f => func_body f
  | UserJob _ body => body
  end.

(** The [Schedule] interface: its single method [Next]. *)
Record Schedule := mkSchedule { Schedule_Next : Time -> Time }.

Record Entry := mkEntry {
  Entry_Schedule : Schedule;
  Next : Time;
  Prev : Time;
  Name : string;
  Entry_Job : Job
}.

Definition set_Next (t : Time) (e : Entry) : Entry :=
  mkEntry (Entry_Schedule e) t (Prev e) (Name e) (Entry_Job e).

Definition set_Prev (t : Time) (e : Entry) : Entry :=
  mkEntry (Entry_Schedule e) (Next e) t (Name e) (Entry_Job e).

(** ** byTime

    [byTime.Less] on the two entries the indices select. *)
Definition Less (a b : Entry) : bool :=
  if IsZero (Next a) then false
  else if IsZero (Next b) then true
  else Before (Next a) (Next b).

(** ** sort.Sort

    [sort.Sort] belongs to Go's library.  Its contract, for a [Less] that is
    a strict weak order: the result is a permutation of the input in which
    no element is [Less] than an element before it; it is not stable.  The
    executable model is an insertion sort driven by the same [Less]; the
    theorems below use the contract only. *)
Section Sort.
Context {A : Type} (lt : A -> A -> bool).

Fixpoint sort_insert (x : A) (l : list A) : list A :=
  match l with
  | [] => [x]
  | y :: l' => if lt x y then x :: y :: l' else y :: sort_insert x l'
  end.

Fixpoint sort_Sort (l : list A) : list A :=
  match l with
  | [] => []
  | x :: l' => sort_insert x (sort_Sort l')
  end.

(** No element is [lt] than one before it. *)
Definition sorted_by (l : list A) : Prop :=
  StronglySorted (fun a b => lt b a = false) l.
End Sort.

(** ** The heap of entries

    An [*Entry] is an address into a heap of entries.  [&Entry{...}]
    allocates at the end; nothing is ever freed (entries that are no longer
    referenced stay behind as garbage). *)
Abbreviation loc := nat.

Definition alloc (e : Entry) (h : list Entry) : loc * list Entry :=
  (length h, h ++ [e]).

(** [Less(i, j)] of [byTime] on a slice of pointers: it reads the two
    entries through the heap.  (Every pointer the program holds is
    allocated; the default covers the others.) *)
Definition LessAt (h : list Entry) (p q : loc) : bool :=
  match h !! p, h !! q with
  | Some a, Some b => Less a b
  | _, _ => false
  end.

(** ** The scheduler

    The goroutine that executes [run] is at one of six places whenever the
    rest of the program can observe it: the statements between them need
    neither the mutex nor a channel partner and are done in one piece. *)
Inductive pc :=
| AtSeed
    (* run() entered: about to read the clock and, under RLock, seed Next *)
| AtRescan (now : Time)
    (* top of the outer for: about to take RLock and re-read the registry *)
| AtSelect (now : Time) (es : list loc) (timer : Duration)
    (* blocked in the select, with the sorted slice and the armed timer *)
| AtAddLock (now : Time) (newEntry : loc)
    (* case <-c.add: Next computed, about to take Lock *)
| AtUpdateLock (now : Time) (newEntry : loc)
    (* case <-c.update: Next computed, about to take Lock *)
| AtSnapshot (now : Time) (es : list loc) (timer : Duration).
    (* case <-c.snapshot: inside entrySnapshot, about to take RLock; one
       caller of Entries waits for the reply *)

(** [Cron].  [entries] is the registry; [loop] is the goroutine running
    [run], if there is one; [mu] records the one situation in which the
    mutex stays locked across a blocking operation: a caller of
    [Schedule(.., update = true)] that has overwritten the registry and waits,
    holding the write lock, for the loop to receive its entry on [c.update].
    Every other critical section is executed atomically. *)
Record Cron := mkCron {
  entries : gmap string loc;
  heap : list Entry;
  running : bool;
  loop : option pc;
  mu : option loc;
  ErrorLog : option string;
  location : string
}.

Definition set_entries (m : gmap string loc) (c : Cron) : Cron :=
  mkCron m (heap c) (running c) (loop c) (mu c) (ErrorLog c) (location c).
Definition set_heap (h : list Entry) (c : Cron) : Cron :=
  mkCron (entries c) h (running c) (loop c) (mu c) (ErrorLog c) (location c).
Definition set_running (b : bool) (c : Cron) : Cron :=
  mkCron (entries c) (heap c) b (loop c) (mu c) (ErrorLog c) (location c).
Definition set_loop (l : option pc) (c : Cron) : Cron :=
  mkCron (entries c) (heap c) (running c) l (mu c) (ErrorLog c) (location c).
Definition set_mu (w : option loc) (c : Cron) : Cron :=
  mkCron (entries c) (heap c) (running c) (loop c) w (ErrorLog c) (location c).

(** [NewWithLocation]. *)
Definition NewWithLocation (location : string) : Cron :=
  mkCron ∅ [] false None None None location.

(** [mapToSlice]: the values of the map, in the order the iteration happens
    to visit them (Go leaves that order unspecified). *)
Definition mapToSlice (entriesMap : gmap string loc) : list loc :=
  (map_to_list entriesMap).*2.

(** *** Registration *)

(** [Schedule] when [c.running] is false: insert unless the name is taken;
    the [update] flag is not consulted on this path. *)
Definition Schedule_idle (schedule : Schedule) (name : string) (cmd : Job)
    (update : bool) (c : Cron) : option Cron :=
  let '(entry, h) := alloc (mkEntry schedule zeroTime zeroTime name cmd) (heap c) in
  if running c then None else
  match mu c with
  | Some _ => None
  | None =>
      Some (match entries c !! name with
            | Some _ => set_heap h c
            | None => set_entries (<[name := entry]> (entries c)) (set_heap h c)
            end)
  end.

(** [Schedule] when running, [update = false]: [c.add <- entry] meets the
    loop's [case newEntry := <-c.add], which stops the timer, reads the clock
    ([t]) and computes [newEntry.Next]. *)
Definition Schedule_add (t : Time) (schedule : Schedule) (name : string)
    (cmd : Job) (c : Cron) : option Cron :=
  let '(entry, h) := alloc (mkEntry schedule zeroTime zeroTime name cmd) (heap c) in
  if negb (running c) then None else
  match loop c with
  | Some (AtSelect _ _ _) =>
      let now := In t (location c) in
      let h' := <[entry := mkEntry schedule (Schedule_Next schedule now) zeroTime name cmd]> h in
      Some (set_loop (Some (AtAddLock now entry)) (set_heap h' c))
  | _ => None
  end.

(** The loop, after [<-c.add]: under Lock, insert unless the name is taken;
    then [break] to the top of the outer loop. *)
Definition loop_add (c : Cron) : option Cron :=
  match loop c, mu c with
  | Some (AtAddLock now newEntry), None =>
      match heap c !! newEntry with
      | Some e =>
          Some (set_loop (Some (AtRescan now))
                  (match entries c !! Name e with
                   | Some _ => c
                   | None => set_entries (<[Name e := newEntry]> (entries c)) c
                   end))
      | None => None
      end
  | _, _ => None
  end.

(** [Schedule] when running, [update = true], first half: take Lock and
    overwrite the registry.  The caller then blocks in [c.update <- entry]
    with the lock held. *)
Definition Schedule_update_lock (schedule : Schedule) (name : string)
    (cmd : Job) (c : Cron) : option Cron :=
  let '(entry, h) := alloc (mkEntry schedule zeroTime zeroTime name cmd) (heap c) in
  if negb (running c) then None else
  match mu c with
  | Some _ => None
  | None =>
      Some (set_mu (Some entry)
              (set_entries (<[name := entry]> (entries c)) (set_heap h c)))
  end.

(** Second half: the send meets the loop's [case newEntry := <-c.update],
    which stops the timer, reads the clock ([t]) and computes
    [newEntry.Next]; the caller returns and its deferred Unlock runs. *)
Definition Schedule_update_send (t : Time) (c : Cron) : option Cron :=
  match mu c, loop c with
  | Some entry, Some (AtSelect _ _ _) =>
      match heap c !! entry with
      | Some e =>
          let now := In t (location c) in
          let h' := <[entry := set_Next (Schedule_Next (Entry_Schedule e) now) e]> (heap c) in
          Some (set_mu None (set_loop (Some (AtUpdateLock now entry)) (set_heap h' c)))
      | None => None
      end
  | _, _ => None
  end.

(** The loop, after [<-c.update]: under Lock, store the entry under its
    name; then [break] to the top of the outer loop. *)
Definition loop_update (c : Cron) : option Cron :=
  match loop c, mu c with
  | Some (AtUpdateLock now newEntry), None =>
      match heap c !! newEntry with
      | Some e =>
          Some (set_loop (Some (AtRescan now))
                  (set_entries (<[Name e := newEntry]> (entries c)) c))
      | None => None
      end
  | _, _ => None
  end.

(** [RemoveJobOrFunc]: under Lock, delete the name.  The loop is not
    told. *)
Definition RemoveJobOrFunc (name : string) (c : Cron) : option Cron :=
  match mu c with
  | Some _ => None
  | None => Some (set_entries (delete name (entries c)) c)
  end.

(** *** The loop *)

(** Entering [run]: read the clock ([t]) and, under RLock, give every
    registered entry its first [Next].  [order] is the order in which the
    [range] over the map visits the entries. *)
Definition seed_entry (now : Time) (h : list Entry) (p : loc) : list Entry :=
  match h !! p with
  | Some e => <[p := set_Next (Schedule_Next (Entry_Schedule e) now) e]> h
  | None => h
  end.

Definition loop_seed_with (order : list loc) (t : Time) (c : Cron) : option Cron :=
  match loop c, mu c with
  | Some AtSeed, None =>
      let now := In t (location c) in
      Some (set_loop (Some (AtRescan now))
              (set_heap (foldl (seed_entry now) (heap c) order) c))
  | _, _ => None
  end.

(** The timer armed for a sorted slice. *)
Definition arm_timer (now : Time) (h : list Entry) (es : list loc) : Duration :=
  match es with
  | [] => 100000 * Hour
  | p :: _ =>
      match h !! p with
      | Some e => if IsZero (Next e) then 100000 * Hour else Sub (Next e) now
      | None => 100000 * Hour
      end
  end.

(** Top of the outer loop: under RLock copy the registry into a slice, sort
    it, arm the timer, block in the select.  [es] is the sorted slice. *)
Definition loop_rescan_with (es : list loc) (c : Cron) : option Cron :=
  match loop c, mu c with
  | Some (AtRescan now), None =>
      Some (set_loop (Some (AtSelect now es (arm_timer now (heap c) es))) c)
  | _, _ => None
  end.

(** [case now = <-timer.C]: the [for _, e := range entries] with its
    [break].  Returns the heap after the bookkeeping and the goroutines
    started, in order, each with the entry it was started for. *)
Definition fire_entry (now : Time) (e : Entry) : Entry :=
  set_Next (Schedule_Next (Entry_Schedule e) now) (set_Prev (Next e) e).

Fixpoint fire_scan (now : Time) (es : list loc) (h : list Entry)
    : list Entry * list (loc * Job) :=
  match es with
  | [] => (h, [])
  | p :: es' =>
      match h !! p with
      | None => (h, [])
      | Some e =>
          if After (Next e) now || IsZero (Next e) then (h, [])
          else
            let '(h', ds) := fire_scan now es' (<[p := fire_entry now e]> h) in
            (h', (p, Entry_Job e) :: ds)
      end
  end.

Definition loop_fire (t : Time) (c : Cron) : option (Cron * list (loc * Job)) :=
  match loop c with
  | Some (AtSelect _ es _) =>
      let now := In t (location c) in
      let '(h, ds) := fire_scan now es (heap c) in
      Some (set_loop (Some (AtRescan now)) (set_heap h c), ds)
  | _ => None
  end.

(** *** Snapshots *)

(** The entry [entrySnapshot] builds for a registered entry: [Name] is left
    at its zero value. *)
Definition copy_of (e : Entry) : Entry :=
  mkEntry (Entry_Schedule e) (Next e) (Prev e) EmptyString (Entry_Job e).

Fixpoint snapshot_loop (order : list loc) (h : list Entry) (out : list loc)
    : list Entry * list loc :=
  match order with
  | [] => (h, out)
  | p :: rest =>
      match h !! p with
      | Some e =>
          let '(q, h') := alloc (copy_of e) h in
          snapshot_loop rest h' (out ++ [q])
      | None => snapshot_loop rest h out
      end
  end.

(** [entrySnapshot], for a given iteration order of the map. *)
Definition entrySnapshot_with (order : list loc) (c : Cron) : Cron * list loc :=
  let '(h, out) := snapshot_loop order (heap c) [] in
  (set_heap h c, out).

(** [Entries] when not running. *)
Definition Entries_idle_with (order : list loc) (c : Cron) : option (Cron * list loc) :=
  if running c then None else
  match mu c with
  | Some _ => None
  | None => Some (entrySnapshot_with order c)
  end.

(** [Entries] when running and the loop is in its select:
    [c.snapshot <- nil] meets the loop's [case <-c.snapshot]; the caller goes
    on to [x := <-c.snapshot] and waits. *)
Definition Entries_send (c : Cron) : option Cron :=
  if negb (running c) then None else
  match loop c with
  | Some (AtSelect now es timer) => Some (set_loop (Some (AtSnapshot now es timer)) c)
  | _ => None
  end.

(** [Entries] when running, while the loop has taken a request and has not
    sent its reply yet.  The caller whose request that was waits in
    [x := <-c.snapshot]; request and reply use the same unbuffered channel, and
    the loop is not receiving, so the [c.snapshot <- nil] of a further caller
    can only meet that receive.  The waiting caller then returns the nil it
    received (a slice without entries), and the further caller waits for the
    loop's reply in its place. *)
Definition Entries_crossed (c : Cron) : option (Cron * list loc) :=
  if negb (running c) then None else
  match loop c with
  | Some (AtSnapshot _ _ _) => Some (c, [])
  | _ => None
  end.

(** The loop answers with [c.entrySnapshot()] and [continue]s: same slice,
    same timer.  The reply goes to the caller that waits for it. *)
Definition loop_snapshot_with (order : list loc) (c : Cron) : option (Cron * list loc) :=
  match loop c, mu c with
  | Some (AtSnapshot now es timer), None =>
      let '(c', out) := entrySnapshot_with order c in
      Some (set_loop (Some (AtSelect now es timer)) c', out)
  | _, _ => None
  end.

(** *** Start, Run, Stop *)

Definition Start (c : Cron) : Cron :=
  if running c then c else set_loop (Some AtSeed) (set_running true c).

(** [Run] is [Start] with the loop on the caller's own thread. *)
Definition Cron_Run (c : Cron) : Cron :=
  if running c then c else set_loop (Some AtSeed) (set_running true c).

(** [Stop]: [c.stop <- struct{}{}] meets the loop's [case <-c.stop], the
    loop returns, and [running] is cleared. *)
Definition Stop (c : Cron) : option Cron :=
  if negb (running c) then Some c else
  match loop c with
  | Some (AtSelect _ _ _) => Some (set_running false (set_loop None c))
  | _ => None
  end.

(** *** Running a job *)

Inductive sink :=
| StdLogger
| Logger (l : string).

(** [logf]: the line goes to [ErrorLog] when one is configured, to the
    standard logger otherwise. *)
Definition logf (c : Cron) (line : string) : sink * string :=
  match ErrorLog c with
  | Some l => (Logger l, line)
  | None => (StdLogger, line)
  end.

Definition newline : string := String (Ascii.ascii_of_nat 10) EmptyString.

(** [recover()] inside a deferred call: hands over the value of the panic
    in progress, if any, and ends that panic. *)
Definition recover (panicking : option string) : option string * option string :=
  (panicking, None).

(** [runWithRecovery].  [stack] is what [runtime.Stack] has to report for
    the goroutine; the buffer keeps at most [64 << 10] bytes of it.  The
    result is how the goroutine's function ends and what it logged. *)
Definition runWithRecovery (c : Cron) (stack : string) (j : Job)
    : outcome * list (sink * string) :=
  let panicking := match Run j with Returned => None | Panicked r => Some r end in
  let '(r, panicking') := recover panicking in
  let logged :=
    match r with
    | Some r =>
        let size := Nat.shiftl 64 10 in
        let buf := String.substring 0 size stack in
        [logf c ("cron: panic running job: " +:+ r +:+ newline +:+ buf)]
    | None => []
    end in
  (match panicking' with None => Returned | Some r => Panicked r end, logged).

(** *** The public registration calls

    [Schedule] as its caller sees it, from call to return.  [t] is the time
    the loop reads from the clock when it receives the entry (running paths
    only).  [None]: the call cannot return from this state (the mutex is
    held, or the loop is not in its select to receive). *)
Definition Cron_Schedule (t : Time) (schedule : Schedule) (name : string)
    (cmd : Job) (update : bool) (c : Cron) : option Cron :=
  if negb (running c) then Schedule_idle schedule name cmd update c
  else if update then
    Schedule_update_lock schedule name cmd c ≫= Schedule_update_send t
  else Schedule_add t schedule name cmd c.

Definition error := string.

Section Registration.
(** [Parse], the schedule parser, is not part of the scheduler's own file;
    all that matters here is that it yields a schedule or an error. *)
Variable Parse : string -> Schedule + error.

Definition AddJob (t : Time) (spec name : string) (cmd : Job) (c : Cron)
    : option (option error * Cron) :=
  match Parse spec with
  | inr err => Some (Some err, c)
  | inl schedule =>
      c' ← Cron_Schedule t schedule name cmd false c; Some (None, c')
  end.

Definition UpdateJob (t : Time) (spec name : string) (cmd : Job) (c : Cron)
    : option (option error * Cron) :=
  match Parse spec with
  | inr err => Some (Some err, c)
  | inl schedule =>
      c' ← Cron_Schedule t schedule name cmd true c; Some (None, c')
  end.

Definition AddFunc (t : Time) (spec name : string) (cmd : func) (c : Cron) :=
  AddJob t spec name (FuncJob cmd) c.

Definition UpdateFunc (t : Time) (spec name : string) (cmd : func) (c : Cron) :=
  UpdateJob t spec name (FuncJob cmd) c.
End Registration.

(** ** The transition system

    Every way the state can change, labelled by what happened.  Times and
    iteration orders come from outside (the clock, Go's map iteration, the
    sort's treatment of ties) and are chosen freely.  [JobEnds] is the end
    of a goroutine started for a job: it has a transition only if the
    goroutine's function returns; a panic that left [runWithRecovery] would
    end the process, and there would be no next state.  [CrossedSnapshot] is
    the return of a caller of [Entries] that received another caller's
    request instead of the loop's reply. *)
Inductive event :=
| CallSchedule (schedule : Schedule) (name : string) (cmd : Job) (update : bool)
| SendAdd (t : Time) (schedule : Schedule) (name : string) (cmd : Job)
| LockUpdate (schedule : Schedule) (name : string) (cmd : Job)
| SendUpdate (t : Time)
| CallRemove (name : string)
| CallEntries (out : list loc)
| SendSnapshot
| CallStart
| CallRun
| CallStop
| SetErrorLog (l : option string)
| LoopSeed (t : Time)
| LoopRescan
| LoopFire (t : Time) (started : list (loc * Job))
| LoopAdd
| LoopUpdate
| LoopSnapshot (out : list loc)
| JobEnds (stack : string) (j : Job) (logged : list (sink * string))
| CrossedSnapshot (out : list loc).

Inductive step : Cron -> event -> Cron -> Prop :=
| step_Schedule_idle schedule name cmd update c c' :
    Schedule_idle schedule name cmd update c = Some c' ->
    step c (CallSchedule schedule name cmd update) c'
| step_Schedule_add t schedule name cmd c c' :
    Schedule_add t schedule name cmd c = Some c' ->
    step c (SendAdd t schedule name cmd) c'
| step_Schedule_update_lock schedule name cmd c c' :
    Schedule_update_lock schedule name cmd c = Some c' ->
    step c (LockUpdate schedule name cmd) c'
| step_Schedule_update_send t c c' :
    Schedule_update_send t c = Some c' ->
    step c (SendUpdate t) c'
| step_Remove name c c' :
    RemoveJobOrFunc name c = Some c' ->
    step c (CallRemove name) c'
| step_Entries_idle order out c c' :
    order ≡ₚ mapToSlice (entries c) ->
    Entries_idle_with order c = Some (c', out) ->
    step c (CallEntries out) c'
| step_Entries_send c c' :
    Entries_send c = Some c' ->
    step c SendSnapshot c'
| step_Start c :
    step c CallStart (Start c)
| step_Run c :
    step c CallRun (Cron_Run c)
| step_Stop c c' :
    Stop c = Some c' ->
    step c CallStop c'
| step_ErrorLog l c :
    step c (SetErrorLog l)
      (mkCron (entries c) (heap c) (running c) (loop c) (mu c) l (location c))
| step_seed order t c c' :
    order ≡ₚ mapToSlice (entries c) ->
    loop_seed_with order t c = Some c' ->
    step c (LoopSeed t) c'
| step_rescan es c c' :
    es ≡ₚ mapToSlice (entries c) ->
    sorted_by (LessAt (heap c)) es ->
    loop_rescan_with es c = Some c' ->
    step c LoopRescan c'
| step_fire t started c c' :
    loop_fire t c = Some (c', started) ->
    step c (LoopFire t started) c'
| step_add c c' :
    loop_add c = Some c' ->
    step c LoopAdd c'
| step_update c c' :
    loop_update c = Some c' ->
    step c LoopUpdate c'
| step_snapshot order out c c' :
    order ≡ₚ mapToSlice (entries c) ->
    loop_snapshot_with order c = Some (c', out) ->
    step c (LoopSnapshot out) c'
| step_job stack j logged c :
    runWithRecovery c stack j = (Returned, logged) ->
    step c (JobEnds stack j logged) c
| step_Entries_crossed out c c' :
    Entries_crossed c = Some (c', out) ->
    step c (CrossedSnapshot out) c'.

(** Runs: a sequence of steps with its events. *)
Inductive steps : Cron -> list event -> Cron -> Prop :=
| steps_nil c : steps c [] c
| steps_cons c ev c' evs c'' :
    step c ev c' -> steps c' evs c'' -> steps c (ev :: evs) c''.

(** The states a scheduler made by [NewWithLocation] can be in. *)
Definition reachable (c : Cron) : Prop :=
  exists location evs, steps (NewWithLocation location) evs c.

(** The choices the executable model makes where Go leaves the order
    open: the map is visited in [map_to_list] order, and ties are sorted as
    the insertion sort sorts them. *)
Definition loop_seed (t : Time) (c : Cron) : option Cron :=
  loop_seed_with (mapToSlice (entries c)) t c.

Definition loop_rescan (c : Cron) : option Cron :=
  loop_rescan_with (sort_Sort (LessAt (heap c)) (mapToSlice (entries c))) c.

Definition entrySnapshot (c : Cron) : Cron * list loc :=
  entrySnapshot_with (mapToSlice (entries c)) c.

Definition Entries_idle (c : Cron) : option (Cron * list loc) :=
  Entries_idle_with (mapToSlice (entries c)) c.

Definition loop_snapshot (c : Cron) : option (Cron * list loc) :=
  loop_snapshot_with (mapToSlice (entries c)) c.

(** ** Invariants of the transition system *)

(** The slice of entry pointers the loop holds while it waits, and the
    entry it holds between receiving it and storing it. *)
Definition slice_of (l : option pc) : list loc :=
  match l with
  | Some (AtSelect _ es _) | Some (AtSnapshot _ es _) => es
  | _ => []
  end.

Definition received_of (l : option pc) : list loc :=
  match l with
  | Some (AtAddLock _ p) | Some (AtUpdateLock _ p) => [p]
  | _ => []
  end.

(** The fields of an entry that no statement of the program assigns after
    the entry is built. *)
Definition same_static (e e' : Entry) : Prop :=
  Entry_Schedule e' = Entry_Schedule e /\ Name e' = Name e /\
  Entry_Job e' = Entry_Job e.

(** [h'] has every entry of [h], at the same address and with the same
    static fields. *)
Definition heap_le (h h' : list Entry) : Prop :=
  forall p e, h !! p = Some e -> exists e', h' !! p = Some e' /\ same_static e e'.

Definition allocated (h : list Entry) (p : loc) : Prop := is_Some (h !! p).

(** The registry maps a name to an allocated entry of that name. *)
Definition entries_ok (m : gmap string loc) (h : list Entry) : Prop :=
  forall n p, m !! n = Some p -> exists e, h !! p = Some e /\ Name e = n.

Record wf (c : Cron) : Prop := mk_wf {
  wf_entries : entries_ok (entries c) (heap c);
  (* the loop's slice: allocated, without repetition, and still sorted *)
  wf_slice_alloc : Forall (allocated (heap c)) (slice_of (loop c));
  wf_slice_nodup : NoDup (slice_of (loop c));
  wf_slice_sorted : sorted_by (LessAt (heap c)) (slice_of (loop c));
  wf_received : Forall (allocated (heap c)) (received_of (loop c));
  (* the entry of a blocked updater is allocated and not in the slice *)
  wf_mu : forall p, mu c = Some p ->
      allocated (heap c) p /\ p ∉ slice_of (loop c);
  (* running is set exactly while there is a loop *)
  wf_running : running c = true <-> is_Some (loop c)
}.

(** The addresses the scheduler itself still holds. *)
Definition held (c : Cron) (p : loc) : Prop :=
  (exists n, entries c !! n = Some p) \/ p ∈ slice_of (loop c) \/
  p ∈ received_of (loop c) \/ mu c = Some p.

(** ** An interpreter for runs

    [exec] performs one event with the executable model's choice of
    iteration order; the outputs an event label carries are not inputs and
    are ignored.  [execs] performs a list of events in order. *)
Definition exec (ev : event) (c : Cron) : option Cron :=
  match ev with
  | CallSchedule schedule name cmd update => Schedule_idle schedule name cmd update c
  | SendAdd t schedule name cmd => Schedule_add t schedule name cmd c
  | LockUpdate schedule name cmd => Schedule_update_lock schedule name cmd c
  | SendUpdate t => Schedule_update_send t c
  | CallRemove name => RemoveJobOrFunc name c
  | CallEntries _ => fst <$> Entries_idle c
  | SendSnapshot => Entries_send c
  | CallStart => Some (Start c)
  | CallRun => Some (Cron_Run c)
  | CallStop => Stop c
  | SetErrorLog l =>
      Some (mkCron (entries c) (heap c) (running c) (loop c) (mu c) l (location c))
  | LoopSeed t => loop_seed t c
  | LoopRescan => loop_rescan c
  | LoopFire t _ => fst <$> loop_fire t c
  | LoopAdd => loop_add c
  | LoopUpdate => loop_update c
  | LoopSnapshot _ => fst <$> loop_snapshot c
  | JobEnds stack j _ =>
      match runWithRecovery c stack j with
      | (Returned, _) => Some c
      | (Panicked _, _) => None
      end
  | CrossedSnapshot _ => fst <$> Entries_crossed c
  end.

Fixpoint execs (evs : list event) (c : Cron) : option Cron :=
  match evs with
  | [] => Some c
  | ev :: evs' => exec ev c ≫= execs evs'
  end.

(** ** Sample data

    Schedules, jobs and states used to exercise the theorems. *)
Definition every (d : Duration) : Schedule := mkSchedule (fun t => t + d).
Definition never : Schedule := mkSchedule (fun _ => zeroTime).
Definition job (n : nat) : Job := UserJob n Returned.

(** Three registered entries, the scheduler started and seeded at time 100:
    [a] is next due at 160, [c] at 130, [b] never. *)
Definition sample_heap : list Entry :=
  [ mkEntry (every 60) 160 0 "a" (job 1);
    mkEntry never 0 0 "b" (job 2);
    mkEntry (every 30) 130 0 "c" (job 3) ].

Definition sample_entries : gmap string loc :=
  <["a" := 0%nat]> (<["b" := 1%nat]> (<["c" := 2%nat]> ∅)).

Definition sample_rescan : Cron :=
  mkCron sample_entries sample_heap true (Some (AtRescan 100)) None None "UTC".

Definition sample_select : Cron :=
  mkCron sample_entries sample_heap true
    (Some (AtSelect 100 [2; 0; 1]%nat 30)) None None "UTC".

Definition sample_run : list event :=
  [ CallSchedule (every 60) "a" (job 1) false;
    CallSchedule never "b" (job 2) false;
    CallSchedule (every 30) "c" (job 3) false;
    CallStart;
    LoopSeed 100 ].

(** [sample_select] after the timer fires at 160: [c] and [a] were both
    due. *)
Definition sample_fired : Cron :=
  mkCron sample_entries
    [ mkEntry (every 60) 220 160 "a" (job 1);
      mkEntry never 0 0 "b" (job 2);
      mkEntry (every 30) 190 130 "c" (job 3) ]
    true (Some (AtRescan 160)) None None "UTC".

(** [sample_select] after [RemoveJobOrFunc("c")]: the registry has lost
    [c], the loop still waits with the slice it sorted before. *)
Definition sample_removed : Cron :=
  mkCron (delete "c" sample_entries) sample_heap true
    (Some (AtSelect 100 [2; 0; 1]%nat 30)) None None "UTC".

(** A parser for two specifications. *)
Definition sample_Parse (spec : string) : Schedule + error :=
  if decide (spec = "* * * * *") then inl (every 60)
  else if decide (spec = "*/5 * * * *") then inl (every 300)
  else inr "bad spec".

(** A scheduler that was never started, with one entry registered by
    [AddJob("* * * * *", "a", job 1)]. *)
Definition sample_idle : Cron :=
  mkCron (<["a" := 0%nat]> ∅) [mkEntry (every 60) 0 0 "a" (job 1)]
    false None None None "UTC".

(** A job whose [Run] panics. *)
Definition sample_crasher : Job := UserJob 7 (Panicked "boom").

(** The same job, had it returned instead: used to compare bookkeeping. *)
Definition returning (j : Job) : Job :=
  match j with
  | FuncJob f => FuncJob (mkFunc (func_id f) Returned)
  | UserJob id _ => UserJob id Returned
  end.

Definition with_returning_job (e : Entry) : Entry :=
  mkEntry (Entry_Schedule e) (Next e) (Prev e) (Name e) (returning (Entry_Job e)).

(** [sample_select] with a snapshot request received, then answered (the
    map is visited in the order c, a, b), then after the timer fired at 160
    and [a] was removed. *)
Definition sample_copies : list Entry :=
  [ mkEntry (every 30) 130 0 "" (job 3);
    mkEntry (every 60) 160 0 "" (job 1);
    mkEntry never 0 0 "" (job 2) ].

Definition sample_waiting : Cron :=
  mkCron sample_entries sample_heap true
    (Some (AtSnapshot 100 [2; 0; 1]%nat 30)) None None "UTC".

Definition sample_snapped : Cron :=
  mkCron sample_entries (sample_heap ++ sample_copies) true
    (Some (AtSelect 100 [2; 0; 1]%nat 30)) None None "UTC".

Definition sample_later : Cron :=
  mkCron (delete "a" sample_entries)
    ([ mkEntry (every 60) 220 160 "a" (job 1);
       mkEntry never 0 0 "b" (job 2);
       mkEntry (every 30) 190 130 "c" (job 3) ] ++ sample_copies)
    true (Some (AtRescan 160)) None None "UTC".

(** [sample_fired] once the loop has sorted again and waits ([a] has run
    once: its [Prev] is 160), and the same after a caller of
    [UpdateJob] for [a] has overwritten the registry and waits to hand the
    new entry to the loop. *)
Definition sample_second : Cron :=
  mkCron sample_entries (heap sample_fired) true
    (Some (AtSelect 160 [2; 0; 1]%nat 30)) None None "UTC".

Definition sample_locked : Cron :=
  mkCron (<["a" := 3%nat]> sample_entries)
    (heap sample_fired ++ [mkEntry (every 10) 0 0 "a" (job 9)])
    true (Some (AtSelect 160 [2; 0; 1]%nat 30)) (Some 3%nat) None "UTC".

(** ** Sequences of registrations

    A call of [AddJob] whose specification parsed: the time the loop reads
    when it receives the entry (used on the running path only), the parsed
    schedule, the name and the job. *)
Record registration := mkRegistration {
  reg_time : Time;
  reg_schedule : Schedule;
  reg_name : string;
  reg_cmd : Job
}.

(** The loop, from where a registration call left it, back to its select:
    it stores the received entry and starts its cycle again. *)
Definition loop_settle (c : Cron) : option Cron :=
  match loop c with
  | Some (AtAddLock _ _) => loop_add c ≫= loop_rescan
  | Some (AtUpdateLock _ _) => loop_update c ≫= loop_rescan
  | _ => Some c
  end.

(** One [Schedule(schedule, name, cmd, false)] with the loop's handling of
    it, and a sequence of them, each made once the previous one is dealt
    with. *)
Definition Add (r : registration) (c : Cron) : option Cron :=
  Cron_Schedule (reg_time r) (reg_schedule r) (reg_name r) (reg_cmd r) false c
    ≫= loop_settle.

Fixpoint Adds (rs : list registration) (c : Cron) : option Cron :=
  match rs with
  | [] => Some c
  | r :: rs' => Add r c ≫= Adds rs'
  end.

(** The first registration of a name in a sequence. *)
Fixpoint first_registration (name : string) (rs : list registration)
    : option registration :=
  match rs with
  | [] => None
  | r :: rs' =>
      if decide (reg_name r = name) then Some r
      else first_registration name rs'
  end.

(** What the registry says about a name: the schedule and job of the entry
    stored under it. *)
Definition registered (c : Cron) (name : string) : option (Schedule * Job) :=
  p ← entries c !! name;
  e ← heap c !! p;
  Some (Entry_Schedule e, Entry_Job e).

Definition sample_registrations : list registration :=
  [ mkRegistration 110 (every 10) "d" (job 4);
    mkRegistration 111 (every 20) "a" (job 5);
    mkRegistration 112 (every 40) "d" (job 6) ].

(** The state in which a registration call can be made and will return. *)
Definition ready (c : Cron) : Prop :=
  wf c /\ mu c = None /\
  (running c = true -> exists now es timer, loop c = Some (AtSelect now es timer)).

(** ** Further operations *)

(** [Location]. *)
Definition Location (c : Cron) : string := location c.

(** The one step the loop itself can take from a place other than its
    select. *)
Definition loop_step_at (l : pc) (ev : event) : Prop :=
  match l, ev with
  | AtSeed, LoopSeed _ | AtRescan _, LoopRescan | AtAddLock _ _, LoopAdd
  | AtUpdateLock _ _, LoopUpdate | AtSnapshot _ _ _, LoopSnapshot _ => True
  | _, _ => False
  end.

(** An entry the scheduler has let go of, except that it may still be in
    the slice the loop waits with: no name is bound to it, the loop has not
    received it on a channel, and no blocked updater holds it. *)
Definition dropped (c : Cron) (q : loc) : Prop :=
  (forall n, entries c !! n <> Some q) /\
  (q ∉ received_of (loop c)) /\ mu c <> Some q.

(** [sample_locked] after the timer fired at 190 while the updater of [a]
    held the lock: [c] was started, the loop is back at the top of its
    cycle. *)
Definition sample_stuck : Cron :=
  mkCron (<["a" := 3%nat]> sample_entries)
    [ mkEntry (every 60) 220 160 "a" (job 1);
      mkEntry never 0 0 "b" (job 2);
      mkEntry (every 30) 220 190 "c" (job 3);
      mkEntry (every 10) 0 0 "a" (job 9) ]
    true (Some (AtRescan 190)) (Some 3%nat) None "UTC".

(** While the loop waits with a slice, every registered entry is in the
    slice, except the entry of an updater that still holds the lock. *)
Definition covered (c : Cron) : Prop :=
  match loop c with
  | Some (AtSelect _ es _) | Some (AtSnapshot _ es _) =>
      forall n p, entries c !! n = Some p -> p ∈ es \/ mu c = Some p
  | _ => True
  end.

(** * Properties *)

(** ** The sort *)
Section SortFacts.
Context {A : Type} (lt : A -> A -> bool).
Hypothesis lt_asym : forall a b, lt a b = true -> lt b a = false.
Hypothesis lt_trans : forall a b c, lt a b = true -> lt b c = true -> lt a c = true.

Lemma sort_insert_perm x l : Permutation (sort_insert lt x l) (x :: l).
Proof.
  induction l as [|y l IH]; simpl; [done|].
  destruct (lt x y); [done|].
  rewrite IH. apply perm_swap.
Qed.

Lemma sort_Sort_perm l : Permutation (sort_Sort lt l) l.
Proof.
  induction l as [|x l IH]; simpl; [done|].
  rewrite sort_insert_perm. by constructor.
Qed.

Lemma sort_insert_sorted x l : sorted_by lt l -> sorted_by lt (sort_insert lt x l).
Proof.
  unfold sorted_by.
  induction l as [|y l IH]; simpl; intros Hs.
  - repeat constructor.
  - apply StronglySorted_inv in Hs as [Hs Hy].
    destruct (lt x y) eqn:Hxy.
    + constructor; [by constructor|].
      constructor; [by apply lt_asym|].
      rewrite Forall_forall in Hy |- *. intros z Hz.
      destruct (lt z x) eqn:Hzx; [|done].
      specialize (Hy z Hz). by rewrite (lt_trans _ _ _ Hzx Hxy) in Hy.
    + constructor; [by apply IH|].
      rewrite Forall_forall in Hy |- *. intros z Hz.
      rewrite sort_insert_perm in Hz.
      apply elem_of_cons in Hz as [->|Hz]; [done|by apply Hy].
Qed.

Lemma sort_Sort_sorted l : sorted_by lt (sort_Sort lt l).
Proof.
  induction l as [|x l IH]; simpl; [constructor|].
  by apply sort_insert_sorted.
Qed.

Lemma sorted_by_lookup l i j a b :
  sorted_by lt l -> (i < j)%nat -> l !! i = Some a -> l !! j = Some b ->
  lt b a = false.
Proof.
  unfold sorted_by. intros Hs. revert i j.
  induction Hs as [|x l Hs IH Hx]; intros i j Hij Hi Hj; [done|].
  destruct j as [|j]; [lia|]. simpl in Hj.
  destruct i as [|i]; simpl in Hi.
  - simplify_eq. rewrite Forall_forall in Hx.
    apply Hx, list_elem_of_lookup. eauto.
  - apply (IH i j); [lia|done..].
Qed.
End SortFacts.

(** ** byTime.Less is a strict weak order *)

Lemma Less_spec a b :
  Less a b = true <-> Next a <> 0 /\ (Next b = 0 \/ Next a < Next b).
Proof.
  unfold Less, IsZero, Before.
  destruct (Z.eqb_spec (Next a) 0), (Z.eqb_spec (Next b) 0);
    rewrite ?Z.ltb_lt; split; try done; try lia; intros [? [?|?]]; try done.
Qed.

Lemma Less_asym a b : Less a b = true -> Less b a = false.
Proof.
  intros H. apply not_true_is_false. revert H.
  rewrite !Less_spec. lia.
Qed.

Lemma Less_trans a b c : Less a b = true -> Less b c = true -> Less a c = true.
Proof. rewrite !Less_spec. lia. Qed.

Lemma LessAt_asym h p q : LessAt h p q = true -> LessAt h q p = false.
Proof.
  unfold LessAt. destruct (h !! p), (h !! q); try done. apply Less_asym.
Qed.

Lemma LessAt_trans h p q r :
  LessAt h p q = true -> LessAt h q r = true -> LessAt h p r = true.
Proof.
  unfold LessAt. destruct (h !! p), (h !! q), (h !! r); try done.
  apply Less_trans.
Qed.

Lemma LessAt_app h x p q :
  allocated h p -> allocated h q -> LessAt (h ++ x) p q = LessAt h p q.
Proof.
  intros [a Ha] [b Hb]. unfold LessAt.
  by rewrite !(lookup_app_l_Some _ _ _ _ Ha), !(lookup_app_l_Some _ _ _ _ Hb), Ha, Hb.
Qed.

Lemma sorted_by_ext {A} (lt lt' : A -> A -> bool) l :
  (forall a b, a ∈ l -> b ∈ l -> lt' a b = lt a b) ->
  sorted_by lt l -> sorted_by lt' l.
Proof.
  unfold sorted_by. intros Heq Hs. induction Hs as [|x l Hs IH Hx].
  - constructor.
  - constructor.
    + apply IH. intros a b Ha Hb. apply Heq; by right.
    + rewrite Forall_forall in Hx |- *. intros y Hy.
      rewrite Heq; [by apply Hx|by right|by left].
Qed.

(** ** The heap only grows, and static fields stay *)

Lemma same_static_refl e : same_static e e.
Proof. by repeat split. Qed.

Lemma same_static_trans e1 e2 e3 :
  same_static e1 e2 -> same_static e2 e3 -> same_static e1 e3.
Proof. unfold same_static. intros (-> & -> & ->) (-> & -> & ->). done. Qed.

Lemma heap_le_refl h : heap_le h h.
Proof. intros p e He. eauto using same_static_refl. Qed.

Lemma heap_le_trans h1 h2 h3 : heap_le h1 h2 -> heap_le h2 h3 -> heap_le h1 h3.
Proof.
  intros H12 H23 p e He.
  destruct (H12 p e He) as (e2 & He2 & Hs2).
  destruct (H23 p e2 He2) as (e3 & He3 & Hs3).
  eauto using same_static_trans.
Qed.

Lemma heap_le_app h x : heap_le h (h ++ x).
Proof.
  intros p e He. exists e. split; [|apply same_static_refl].
  by apply lookup_app_l_Some.
Qed.

Lemma heap_le_insert h p e e' :
  h !! p = Some e -> same_static e e' -> heap_le h (<[p := e']> h).
Proof.
  intros Hp Hs q e0 Hq. destruct (decide (p = q)) as [<-|Hne].
  - simplify_eq. exists e'. split; [|done].
    apply list_lookup_insert_eq. by eapply lookup_lt_Some.
  - exists e0. split; [|apply same_static_refl].
    by rewrite list_lookup_insert_ne.
Qed.

Lemma heap_le_allocated h h' p : heap_le h h' -> allocated h p -> allocated h' p.
Proof. intros Hle [e He]. destruct (Hle p e He) as (e' & He' & _). by exists e'. Qed.

Lemma fire_entry_static now e : same_static e (fire_entry now e).
Proof. by repeat split. Qed.

Lemma set_Next_static t e : same_static e (set_Next t e).
Proof. by repeat split. Qed.

Lemma fire_scan_heap_le now es h : heap_le h (fire_scan now es h).1.
Proof.
  revert h. induction es as [|p es IH]; intros h; simpl; [apply heap_le_refl|].
  destruct (h !! p) as [e|] eqn:Hp; [|apply heap_le_refl].
  destruct (After (Next e) now || IsZero (Next e)); [apply heap_le_refl|].
  specialize (IH (<[p := fire_entry now e]> h)).
  destruct (fire_scan now es (<[p := fire_entry now e]> h)) as [h' ds]. simpl in *.
  eapply heap_le_trans; [|exact IH].
  eapply heap_le_insert; [done|apply fire_entry_static].
Qed.

Lemma seed_entry_heap_le now h p : heap_le h (seed_entry now h p).
Proof.
  unfold seed_entry. destruct (h !! p) as [e|] eqn:Hp; [|apply heap_le_refl].
  eapply heap_le_insert; [done|apply set_Next_static].
Qed.

Lemma seed_heap_le now order h : heap_le h (foldl (seed_entry now) h order).
Proof.
  revert h. induction order as [|p order IH]; intros h; simpl; [apply heap_le_refl|].
  eapply heap_le_trans; [apply seed_entry_heap_le|apply IH].
Qed.

Lemma fire_scan_other now es h q :
  q ∉ es -> (fire_scan now es h).1 !! q = h !! q.
Proof.
  revert h. induction es as [|p es IH]; intros h Hq; simpl; [done|].
  apply not_elem_of_cons in Hq as [Hne Hq].
  destruct (h !! p) as [e|] eqn:Hp; [|done].
  destruct (After (Next e) now || IsZero (Next e)); [done|].
  specialize (IH (<[p:=fire_entry now e]> h) Hq).
  destruct (fire_scan now es (<[p:=fire_entry now e]> h)) as [h' ds].
  simpl in *. rewrite IH. by rewrite list_lookup_insert_ne.
Qed.

Lemma seed_other now order h q :
  q ∉ order -> foldl (seed_entry now) h order !! q = h !! q.
Proof.
  revert h. induction order as [|p order IH]; intros h Hq; simpl; [done|].
  apply not_elem_of_cons in Hq as [Hne Hq]. rewrite (IH _ Hq).
  unfold seed_entry. destruct (h !! p); [|done].
  by rewrite list_lookup_insert_ne.
Qed.

Lemma copies_app h x order :
  Forall (allocated h) order ->
  omap (fun p => copy_of <$> (h ++ x) !! p) order =
  omap (fun p => copy_of <$> h !! p) order.
Proof.
  induction 1 as [|p order [e Hp] _ IH]; csimpl; [done|].
  by rewrite (lookup_app_l_Some _ _ _ _ Hp), Hp, IH.
Qed.

(** [entrySnapshot] only appends: the heap it leaves is the old heap
    followed by the copies, in the order of the iteration, and the
    addresses it returns are those of the copies. *)
Lemma snapshot_loop_spec order h out :
  Forall (allocated h) order ->
  snapshot_loop order h out =
    (h ++ omap (fun p => copy_of <$> h !! p) order,
     out ++ seq (length h) (length order)).
Proof.
  revert h out. induction order as [|p order IH]; intros h out Hall; csimpl.
  - by rewrite !app_nil_r.
  - apply Forall_cons in Hall as [[e Hp] Hall]. rewrite Hp. csimpl.
    rewrite IH.
    + rewrite <- !app_assoc, length_app. csimpl. rewrite Nat.add_1_r.
      by rewrite copies_app.
    + eapply Forall_impl; [done|]. intros q Hq.
      eapply heap_le_allocated; [apply heap_le_app|done].
Qed.

(** ** Well-formedness is kept by every step *)

Lemma entries_ok_heap_le m h h' : entries_ok m h -> heap_le h h' -> entries_ok m h'.
Proof.
  intros Hok Hle n p Hn. destruct (Hok n p Hn) as (e & He & <-).
  destruct (Hle p e He) as (e' & He' & _ & Hname & _). eauto.
Qed.

Lemma entries_ok_insert m h n p e :
  entries_ok m h -> h !! p = Some e -> Name e = n -> entries_ok (<[n := p]> m) h.
Proof.
  intros Hok Hp Hname n' p'. rewrite lookup_insert.
  case_decide; [|apply Hok]. intros; simplify_eq. eauto.
Qed.

Lemma entries_ok_delete m h n : entries_ok m h -> entries_ok (delete n m) h.
Proof.
  intros Hok n' p'. rewrite lookup_delete.
  case_decide; [done|apply Hok].
Qed.

Lemma entries_ok_inj m h n1 n2 p :
  entries_ok m h -> m !! n1 = Some p -> m !! n2 = Some p -> n1 = n2.
Proof.
  intros Hok H1 H2.
  destruct (Hok _ _ H1) as (e1 & He1 & <-), (Hok _ _ H2) as (e2 & He2 & <-).
  congruence.
Qed.

Lemma elem_of_mapToSlice m p : p ∈ mapToSlice m <-> exists n, m !! n = Some p.
Proof.
  unfold mapToSlice. rewrite list_elem_of_fmap. split.
  - intros ([n q] & -> & Hin). exists n. by apply elem_of_map_to_list.
  - intros [n Hn]. exists (n, p). split; [done|]. by apply elem_of_map_to_list.
Qed.

Lemma NoDup_mapToSlice m h : entries_ok m h -> NoDup (mapToSlice m).
Proof.
  intros Hok. unfold mapToSlice. apply NoDup_fmap_2_strong.
  - intros [n1 p1] [n2 p2] H1%elem_of_map_to_list H2%elem_of_map_to_list Heq.
    simpl in Heq. subst p2. f_equal. eapply entries_ok_inj; eauto.
  - apply NoDup_map_to_list.
Qed.

Lemma sorted_by_heap_app h x es :
  Forall (allocated h) es ->
  sorted_by (LessAt h) es -> sorted_by (LessAt (h ++ x)) es.
Proof.
  intros Hall. apply sorted_by_ext. intros a b Ha Hb.
  rewrite Forall_forall in Hall. apply LessAt_app; by apply Hall.
Qed.

Lemma wf_heap_app c x : wf c -> wf (set_heap (heap c ++ x) c).
Proof.
  intros [He Hsa Hsn Hss Hr Hmu Hrun]. constructor; simpl; try done.
  - eapply entries_ok_heap_le; [done|apply heap_le_app].
  - eapply Forall_impl; [done|]. intros p.
    apply heap_le_allocated, heap_le_app.
  - by apply sorted_by_heap_app.
  - eapply Forall_impl; [done|]. intros p.
    apply heap_le_allocated, heap_le_app.
  - intros p Hp. destruct (Hmu p Hp) as [Ha Hn]. split; [|done].
    eapply heap_le_allocated; [apply heap_le_app|done].
Qed.

Lemma wf_heap_change c h' :
  wf c -> heap_le (heap c) h' -> slice_of (loop c) = [] -> wf (set_heap h' c).
Proof.
  intros [He Hsa Hsn Hss Hr Hmu Hrun] Hle Hnil.
  constructor; simpl; rewrite ?Hnil.
  - by eapply entries_ok_heap_le.
  - constructor.
  - constructor.
  - constructor.
  - eapply Forall_impl; [done|]. intros p. by apply heap_le_allocated.
  - intros p Hp. destruct (Hmu p Hp) as [Ha Hn]. split.
    + by eapply heap_le_allocated.
    + apply not_elem_of_nil.
  - done.
Qed.

Lemma wf_entries_insert c n p e :
  wf c -> heap c !! p = Some e -> Name e = n ->
  wf (set_entries (<[n := p]> (entries c)) c).
Proof.
  intros [He Hsa Hsn Hss Hr Hmu Hrun] Hp Hn. constructor; simpl; try done.
  by eapply entries_ok_insert.
Qed.

Lemma wf_entries_delete c n : wf c -> wf (set_entries (delete n (entries c)) c).
Proof.
  intros [He Hsa Hsn Hss Hr Hmu Hrun]. constructor; simpl; try done.
  by apply entries_ok_delete.
Qed.

Lemma wf_loop_noslice c l :
  wf c -> slice_of l = [] -> Forall (allocated (heap c)) (received_of l) ->
  (is_Some l <-> is_Some (loop c)) -> wf (set_loop l c).
Proof.
  intros [He Hsa Hsn Hss Hr Hmu Hrun] Hnil Hrec Hsome.
  constructor; simpl; rewrite ?Hnil.
  - done.
  - constructor.
  - constructor.
  - constructor.
  - done.
  - intros p Hp. destruct (Hmu p Hp) as [Ha Hn]. split; [done|].
    apply not_elem_of_nil.
  - by rewrite Hsome.
Qed.

Lemma wf_loop_same_slice c l :
  wf c -> slice_of l = slice_of (loop c) -> received_of l = [] ->
  (is_Some l <-> is_Some (loop c)) -> wf (set_loop l c).
Proof.
  intros [He Hsa Hsn Hss Hr Hmu Hrun] Hsl Hrec Hsome.
  constructor; simpl; rewrite ?Hsl, ?Hrec; try done.
  by rewrite Hsome.
Qed.

Lemma wf_loop_rescan c now es timer :
  wf c -> mu c = None -> is_Some (loop c) ->
  es ≡ₚ mapToSlice (entries c) -> sorted_by (LessAt (heap c)) es ->
  wf (set_loop (Some (AtSelect now es timer)) c).
Proof.
  intros [He Hsa Hsn Hss Hr Hmu Hrun] Hfree Hsome Hperm Hsorted.
  constructor; simpl; try done.
  - rewrite Forall_forall. intros p Hp. rewrite Hperm in Hp.
    apply elem_of_mapToSlice in Hp as [n Hn].
    destruct (He n p Hn) as (e & Hpe & _). by exists e.
  - rewrite Hperm. by eapply NoDup_mapToSlice.
  - intros p Hp. congruence.
  - rewrite Hrun. split; [done|]. intros _. done.
Qed.

Lemma wf_mu_lock c p :
  wf c -> allocated (heap c) p -> p ∉ slice_of (loop c) -> wf (set_mu (Some p) c).
Proof.
  intros [He Hsa Hsn Hss Hr Hmu Hrun] Ha Hn. constructor; simpl; try done.
  intros q Hq. by simplify_eq.
Qed.

Lemma wf_mu_unlock c : wf c -> wf (set_mu None c).
Proof. intros [He Hsa Hsn Hss Hr Hmu Hrun]. constructor; simpl; done. Qed.

Lemma wf_loop_None c : wf c -> running c = false -> loop c = None.
Proof.
  intros Hwf Hrun. destruct (loop c) as [l|] eqn:Hl; [|done].
  destruct (wf_running c Hwf) as [_ H]. rewrite Hl in H.
  rewrite H in Hrun; [done|by eexists].
Qed.

Lemma lookup_alloc (h : list Entry) e : (h ++ [e]) !! length h = Some e.
Proof. by rewrite list_lookup_middle. Qed.

Lemma insert_alloc (h : list Entry) e e' : <[length h := e']> (h ++ [e]) = h ++ [e'].
Proof. rewrite insert_app_r_alt, Nat.sub_diag; [done|lia]. Qed.

Lemma allocated_alloc (h : list Entry) e : allocated (h ++ [e]) (length h).
Proof. exists e. apply lookup_alloc. Qed.

Lemma fresh_not_allocated (h : list Entry) (l : list loc) :
  Forall (allocated h) l -> length h ∉ l.
Proof.
  rewrite Forall_forall. intros Hall Hin.
  destruct (Hall _ Hin) as [e He]. apply lookup_lt_Some in He. lia.
Qed.

Lemma mapToSlice_allocated m h :
  entries_ok m h -> forall order, order ≡ₚ mapToSlice m -> Forall (allocated h) order.
Proof.
  intros Hok order Hperm. rewrite Forall_forall. intros p Hp.
  rewrite Hperm in Hp. apply elem_of_mapToSlice in Hp as [n Hn].
  destruct (Hok n p Hn) as (e & He & _). by exists e.
Qed.

Lemma wf_Start c : wf c -> wf (Start c).
Proof.
  intros Hwf. unfold Start. destruct (running c) eqn:Hrun; [done|].
  pose proof (wf_loop_None c Hwf Hrun) as Hnone.
  destruct Hwf as [He Hsa Hsn Hss Hr Hmu Hrun'].
  rewrite Hnone in *. constructor; simpl.
  - done.
  - constructor.
  - constructor.
  - constructor.
  - constructor.
  - intros p Hp. destruct (Hmu p Hp) as [Ha _]. split; [done|apply not_elem_of_nil].
  - split; [by eexists|done].
Qed.

Lemma wf_Stop c c' : wf c -> Stop c = Some c' -> wf c'.
Proof.
  intros Hwf. unfold Stop. destruct (running c) eqn:Hrun; simpl; [|by intros [= <-]].
  destruct (loop c) as [[]|] eqn:Hl; try done. intros [= <-].
  destruct Hwf as [He Hsa Hsn Hss Hr Hmu Hrun'].
  constructor; simpl.
  - done.
  - constructor.
  - constructor.
  - constructor.
  - constructor.
  - intros p Hp. destruct (Hmu p Hp) as [Ha _]. split; [done|apply not_elem_of_nil].
  - split; [done|]. intros [? ?]. done.
Qed.

(** A crossed request changes nothing and yields nil. *)
Lemma Entries_crossed_same c c' out :
  Entries_crossed c = Some (c', out) ->
  c' = c /\ out = [] /\ running c = true /\
  exists now es timer, loop c = Some (AtSnapshot now es timer).
Proof.
  unfold Entries_crossed. destruct (running c); [|done]. simpl.
  destruct (loop c) as [[]|]; try done. intros [= <- <-]. eauto 10.
Qed.

Lemma step_wf c ev c' : wf c -> step c ev c' -> wf c'.
Proof.
  intros Hwf Hstep. destruct Hstep as
    [schedule name cmd update c c' H | t schedule name cmd c c' H
    | schedule name cmd c c' H | t c c' H | name c c' H
    | order out c c' Hperm H | c c' H | c | c | c c' H | l c
    | order t c c' Hperm H | es c c' Hperm Hsorted H | t started c c' H
    | c c' H | c c' H | order out c c' Hperm H | stack j logged c H
    | out c c' H].
  - (* Schedule, not running *)
    unfold Schedule_idle, alloc in H.
    destruct (running c) eqn:Hrun; [done|]. destruct (mu c) eqn:Hmu; [done|].
    simplify_eq. destruct (entries c !! name) eqn:Hn.
    + by apply wf_heap_app.
    + eapply (wf_entries_insert (set_heap _ c)); [by apply wf_heap_app| |]; simpl.
      * apply lookup_alloc.
      * done.
  - (* c.add <- entry *)
    unfold Schedule_add, alloc in H.
    destruct (running c) eqn:Hrun; [|done]. simpl in H.
    destruct (loop c) as [[]|] eqn:Hl; try done. simplify_eq.
    rewrite insert_alloc.
    apply (wf_loop_noslice (set_heap _ c)); simpl.
    + by apply wf_heap_app.
    + done.
    + repeat constructor. apply allocated_alloc.
    + rewrite Hl. split; by eexists.
  - (* Lock and overwrite *)
    unfold Schedule_update_lock, alloc in H.
    destruct (running c) eqn:Hrun; [|done]. simpl in H.
    destruct (mu c) eqn:Hmu; [done|]. simplify_eq.
    apply (wf_mu_lock (set_entries _ (set_heap _ c))); simpl.
    + eapply (wf_entries_insert (set_heap _ c)); [by apply wf_heap_app| |]; simpl.
      * apply lookup_alloc.
      * done.
    + apply allocated_alloc.
    + apply fresh_not_allocated, Hwf.
  - (* c.update <- entry *)
    unfold Schedule_update_send in H.
    destruct (mu c) as [p|] eqn:Hmu; [|done].
    destruct (loop c) as [[]|] eqn:Hl; try done.
    destruct (heap c !! p) as [e|] eqn:Hp; [|done]. simplify_eq.
    apply (wf_mu_unlock (set_heap _ (set_loop _ c))).
    apply (wf_heap_change (set_loop _ c)); simpl.
    + apply wf_loop_noslice; simpl; [done|done| |].
      * repeat constructor. by exists e.
      * rewrite Hl. split; by eexists.
    + eapply heap_le_insert; [done|apply set_Next_static].
    + done.
  - (* RemoveJobOrFunc *)
    unfold RemoveJobOrFunc in H. destruct (mu c); [done|]. simplify_eq.
    by apply wf_entries_delete.
  - (* Entries, not running *)
    unfold Entries_idle_with, entrySnapshot_with in H.
    destruct (running c) eqn:Hrun; [done|]. destruct (mu c) eqn:Hmu; [done|].
    rewrite snapshot_loop_spec in H
      by (eapply mapToSlice_allocated; [apply Hwf|done]).
    simplify_eq. by apply wf_heap_app.
  - (* c.snapshot <- nil *)
    unfold Entries_send in H.
    destruct (running c) eqn:Hrun; [|done]. simpl in H.
    destruct (loop c) as [[]|] eqn:Hl; try done. simplify_eq.
    apply wf_loop_same_slice; simpl; rewrite ?Hl; try done;
      split; by eexists.
  - by apply wf_Start.
  - by apply wf_Start.
  - by eapply wf_Stop.
  - destruct Hwf as [He Hsa Hsn Hss Hr Hmu Hrun]. by constructor.
  - (* seeding *)
    unfold loop_seed_with in H.
    destruct (loop c) as [[]|] eqn:Hl; try done.
    destruct (mu c) eqn:Hmu; [done|]. simplify_eq.
    apply (wf_loop_noslice (set_heap _ c)); simpl.
    + apply wf_heap_change; [done|apply seed_heap_le|by rewrite Hl].
    + done.
    + constructor.
    + rewrite Hl. split; by eexists.
  - (* rescan *)
    unfold loop_rescan_with in H.
    destruct (loop c) as [[]|] eqn:Hl; try done.
    destruct (mu c) eqn:Hmu; [done|]. simplify_eq.
    apply wf_loop_rescan; try done; rewrite Hl; by eexists.
  - (* timer *)
    unfold loop_fire in H.
    destruct (loop c) as [[]|] eqn:Hl; try done.
    pose proof (fire_scan_heap_le (In t (location c)) es (heap c)) as Hle.
    destruct (fire_scan (In t (location c)) es (heap c)) as [h ds].
    simplify_eq. simpl in Hle.
    apply (wf_heap_change (set_loop _ c)); simpl; [|done|done].
    apply wf_loop_noslice; simpl; [done|done|constructor|].
    rewrite Hl. split; by eexists.
  - (* add, in the loop *)
    unfold loop_add in H.
    destruct (loop c) as [[]|] eqn:Hl; try done.
    destruct (mu c) eqn:Hmu; [done|].
    destruct (heap c !! newEntry) as [e|] eqn:Hp; [|done]. simplify_eq.
    assert (Hnew : wf (set_loop (Some (AtRescan now)) c)).
    { apply wf_loop_noslice; simpl; [done|done|constructor|].
      rewrite Hl. split; by eexists. }
    destruct (entries c !! Name e) eqn:Hn; [done|].
    by apply (wf_entries_insert (set_loop _ c) _ _ e).
  - (* update, in the loop *)
    unfold loop_update in H.
    destruct (loop c) as [[]|] eqn:Hl; try done.
    destruct (mu c) eqn:Hmu; [done|].
    destruct (heap c !! newEntry) as [e|] eqn:Hp; [|done]. simplify_eq.
    apply (wf_entries_insert (set_loop _ c) _ _ e); [|done|done].
    apply wf_loop_noslice; simpl; [done|done|constructor|].
    rewrite Hl. split; by eexists.
  - (* snapshot, in the loop *)
    unfold loop_snapshot_with, entrySnapshot_with in H.
    destruct (loop c) as [[]|] eqn:Hl; try done.
    destruct (mu c) eqn:Hmu; [done|].
    rewrite snapshot_loop_spec in H
      by (eapply mapToSlice_allocated; [apply Hwf|done]).
    simplify_eq.
    apply (wf_loop_same_slice (set_heap _ c)); simpl; rewrite ?Hl;
      [by apply wf_heap_app|done|done|split; by eexists].
  - (* a job's goroutine ends *)
    done.
  - (* a crossed request *)
    by apply Entries_crossed_same in H as (-> & _).
Qed.

Lemma wf_New location : wf (NewWithLocation location).
Proof.
  constructor; simpl.
  - intros n p. by rewrite lookup_empty.
  - constructor.
  - constructor.
  - constructor.
  - constructor.
  - done.
  - split; [done|]. intros [? ?]. done.
Qed.

Lemma steps_wf c evs c' : wf c -> steps c evs c' -> wf c'.
Proof. intros Hwf Hs. induction Hs; eauto using step_wf. Qed.

Lemma reachable_wf c : reachable c -> wf c.
Proof. intros (location & evs & Hs). eapply steps_wf; [apply wf_New|done]. Qed.

(** ** The interpreter follows the transition system *)

Lemma loop_rescan_step c c' : loop_rescan c = Some c' -> step c LoopRescan c'.
Proof.
  intros H. eapply step_rescan; [| |exact H].
  - apply sort_Sort_perm.
  - apply sort_Sort_sorted; [apply LessAt_asym|apply LessAt_trans].
Qed.

Lemma exec_step ev c c' : exec ev c = Some c' -> exists ev', step c ev' c'.
Proof.
  destruct ev; simpl; intros H.
  - eexists. by eapply step_Schedule_idle.
  - eexists. by eapply step_Schedule_add.
  - eexists. by eapply step_Schedule_update_lock.
  - eexists. by eapply step_Schedule_update_send.
  - eexists. by eapply step_Remove.
  - destruct (Entries_idle c) as [[c1 out1]|] eqn:He; simplify_eq/=.
    exists (CallEntries out1). by eapply step_Entries_idle.
  - eexists. by eapply step_Entries_send.
  - simplify_eq. eexists. apply step_Start.
  - simplify_eq. eexists. apply step_Run.
  - eexists. by eapply step_Stop.
  - simplify_eq. eexists. apply (step_ErrorLog l).
  - exists (LoopSeed t). by eapply step_seed.
  - eexists. by apply loop_rescan_step.
  - destruct (loop_fire t c) as [[c1 ds]|] eqn:He; simplify_eq/=.
    exists (LoopFire t ds). by eapply step_fire.
  - eexists. by eapply step_add.
  - eexists. by eapply step_update.
  - destruct (loop_snapshot c) as [[c1 out1]|] eqn:He; simplify_eq/=.
    exists (LoopSnapshot out1). by eapply step_snapshot.
  - destruct (runWithRecovery c stack j) as [[|r] logged1] eqn:He; simplify_eq.
    exists (JobEnds stack j logged1). by apply step_job.
  - destruct (Entries_crossed c) as [[c1 out1]|] eqn:He; simplify_eq/=.
    exists (CrossedSnapshot out1). by apply step_Entries_crossed.
Qed.

Lemma execs_steps evs c c' : execs evs c = Some c' -> exists evs', steps c evs' c'.
Proof.
  revert c. induction evs as [|ev evs IH]; intros c; simpl.
  - intros [= <-]. exists []. constructor.
  - destruct (exec ev c) as [c1|] eqn:He; [|done]. simpl. intros Hrest.
    destruct (exec_step _ _ _ He) as [ev' Hstep].
    destruct (IH _ Hrest) as [evs' Hsteps].
    exists (ev' :: evs'). by econstructor.
Qed.

Lemma reachable_execs location evs c :
  execs evs (NewWithLocation location) = Some c -> reachable c.
Proof. intros H. exists location. by apply execs_steps in H. Qed.

Lemma reachable_step c ev c' : reachable c -> step c ev c' -> reachable c'.
Proof.
  intros (location & evs & Hs) Hstep. exists location, (evs ++ [ev]).
  clear -Hs Hstep. induction Hs.
  - simpl. econstructor; [done|constructor].
  - simpl. econstructor; [done|]. by apply IHHs.
Qed.

(** ** Sample states are reachable *)

Lemma sample_rescan_reachable : reachable sample_rescan.
Proof. apply (reachable_execs "UTC" sample_run). vm_compute. reflexivity. Qed.

Lemma sample_select_step : step sample_rescan LoopRescan sample_select.
Proof. apply loop_rescan_step. vm_compute. reflexivity. Qed.

Lemma sample_select_reachable : reachable sample_select.
Proof.
  eapply reachable_step; [apply sample_rescan_reachable|apply sample_select_step].
Qed.

(** ** The order of the loop's slice *)

(** C6: the slice the loop waits with is a permutation of the registry's
    entries, sorted by [Next] under the rule of [byTime]: an entry whose
    [Next] is the zero time comes after every entry with a real [Next];
    among entries with a real [Next] the earlier comes first; entries with
    equal [Next] may come in either order. *)
Theorem C6_slice_sorted_by_next (c c' : Cron) :
  step c LoopRescan c' ->
  exists now es timer,
    loop c' = Some (AtSelect now es timer) /\
    heap c' = heap c /\ entries c' = entries c /\
    es ≡ₚ mapToSlice (entries c) /\
    (forall i j p q a b,
        (i < j)%nat -> es !! i = Some p -> es !! j = Some q ->
        heap c !! p = Some a -> heap c !! q = Some b ->
        (IsZero (Next a) = true -> IsZero (Next b) = true) /\
        (IsZero (Next a) = false -> IsZero (Next b) = false ->
         Next a <= Next b)) /\
    (forall p q a b,
        heap c !! p = Some a -> heap c !! q = Some b -> Next a = Next b ->
        sorted_by (LessAt (heap c)) [p; q] /\
        sorted_by (LessAt (heap c)) [q; p]).
Proof.
  intros Hstep. inversion Hstep as
    [| | | | | | | | | | | |es c0 c0' Hperm Hsorted H | | | | | |]; subst.
  unfold loop_rescan_with in H.
  destruct (loop c) as [[]|] eqn:Hl; try done.
  destruct (mu c) eqn:Hmu; [done|]. simplify_eq. simpl.
  eexists _, _, _. split_and!; try done.
  - intros i j p q a b Hij Hi Hj Ha Hb.
    pose proof (sorted_by_lookup _ _ _ _ _ _ Hsorted Hij Hi Hj) as Hlt.
    unfold LessAt in Hlt. rewrite Ha, Hb in Hlt.
    apply not_true_iff_false in Hlt. rewrite Less_spec in Hlt.
    unfold IsZero. rewrite !Z.eqb_eq, !Z.eqb_neq. lia.
  - intros p q a b Ha Hb Heq.
    split; repeat constructor; unfold LessAt; rewrite Ha, Hb;
      apply not_true_iff_false; rewrite Less_spec; lia.
Qed.

(** The sample scheduler, seeded at 100, sorts [c] (130) before [a] (160)
    and [b] (never) last. *)
Lemma C6_witness :
  step sample_rescan LoopRescan sample_select /\
  exists now es timer,
    loop sample_select = Some (AtSelect now es timer) /\
    heap sample_select = heap sample_rescan /\
    entries sample_select = entries sample_rescan /\
    es ≡ₚ mapToSlice (entries sample_rescan) /\
    (forall i j p q a b,
        (i < j)%nat -> es !! i = Some p -> es !! j = Some q ->
        heap sample_rescan !! p = Some a -> heap sample_rescan !! q = Some b ->
        (IsZero (Next a) = true -> IsZero (Next b) = true) /\
        (IsZero (Next a) = false -> IsZero (Next b) = false ->
         Next a <= Next b)) /\
    (forall p q a b,
        heap sample_rescan !! p = Some a -> heap sample_rescan !! q = Some b ->
        Next a = Next b ->
        sorted_by (LessAt (heap sample_rescan)) [p; q] /\
        sorted_by (LessAt (heap sample_rescan)) [q; p]).
Proof.
  split; [apply sample_select_step|].
  apply (C6_slice_sorted_by_next sample_rescan sample_select sample_select_step).
Defined.

(** ** The timer case *)

Lemma not_due_iff now e :
  After (Next e) now || IsZero (Next e) = true <-> now < Next e \/ Next e = 0.
Proof.
  unfold After, IsZero. rewrite orb_true_iff, Z.ltb_lt, Z.eqb_eq. done.
Qed.

Lemma due_iff now e :
  After (Next e) now || IsZero (Next e) = false <-> Next e <> 0 /\ Next e <= now.
Proof.
  rewrite <- not_true_iff_false, not_due_iff. lia.
Qed.

(** What the [range] loop does to a slice without repetition: it starts a
    prefix of the slice, stops at the first entry that is not due, and
    touches no other entry. *)
Lemma fire_scan_spec now es h h' ds :
  NoDup es -> Forall (allocated h) es -> fire_scan now es h = (h', ds) ->
  exists rest,
    es = ds.*1 ++ rest /\
    (forall p e, head rest = Some p -> h !! p = Some e ->
        now < Next e \/ Next e = 0) /\
    (forall p j, (p, j) ∈ ds ->
        exists e, h !! p = Some e /\ j = Entry_Job e /\
          Next e <> 0 /\ Next e <= now /\
          h' !! p = Some (fire_entry now e)) /\
    (forall p, p ∉ ds.*1 -> h' !! p = h !! p).
Proof.
  revert h h' ds.
  induction es as [|p es IH]; intros h h' ds Hnd Hall Hscan; simpl in Hscan.
  - simplify_eq. exists []. repeat split; try done.
    intros p j Hin. by apply elem_of_nil in Hin.
  - apply NoDup_cons in Hnd as [Hp Hnd].
    apply Forall_cons in Hall as [[e He] Hall]. rewrite He in Hscan.
    destruct (After (Next e) now || IsZero (Next e)) eqn:Hstop.
    + simplify_eq. exists (p :: es). repeat split; try done.
      * intros q e' [= <-] He'. simplify_eq. by apply not_due_iff.
      * intros q j Hin. by apply elem_of_nil in Hin.
    + destruct (fire_scan now es (<[p:=fire_entry now e]> h)) as [h1 ds1] eqn:Hrec.
      simplify_eq.
      assert (Hall' : Forall (allocated (<[p:=fire_entry now e]> h)) es).
      { eapply Forall_impl; [done|]. intros q.
        apply heap_le_allocated. eapply heap_le_insert; [done|].
        apply fire_entry_static. }
      destruct (IH _ _ _ Hnd Hall' Hrec) as (rest & Hes & Hhead & Hds & Hother).
      assert (Hsub : forall q, q ∈ ds1.*1 ++ rest -> q <> p).
      { intros q Hq ->. by rewrite <- Hes in Hq. }
      exists rest. repeat split.
      * simpl. by rewrite Hes at 1.
      * intros q e' Hq He'. apply (Hhead q e' Hq).
        rewrite list_lookup_insert_ne; [done|].
        apply not_eq_sym, Hsub, elem_of_app. right.
        apply head_Some in Hq as [l' ->]. by left.
      * intros q j Hin. apply elem_of_cons in Hin as [[= -> ->]|Hin].
        -- exists e. apply due_iff in Hstop as [? ?]. repeat split; try done.
           rewrite Hother.
           ++ apply list_lookup_insert_eq. by eapply lookup_lt_Some.
           ++ intros Hin. by apply (Hsub p); [apply elem_of_app; left|].
        -- destruct (Hds q j Hin) as (e' & He' & Hj & Hnz & Hle & Hq).
           exists e'. repeat split; try done.
           rewrite list_lookup_insert_ne in He'; [done|].
           apply not_eq_sym, Hsub, elem_of_app. left.
           by apply (list_elem_of_fmap_2 fst) in Hin.
      * intros q Hq. simpl in Hq. apply not_elem_of_cons in Hq as [Hne Hq].
        rewrite (Hother q Hq). by rewrite list_lookup_insert_ne.
Qed.

(** In a sorted slice nothing after an entry that is not due is due. *)
Lemma sorted_rest_not_due now h rest p e q e' :
  sorted_by (LessAt h) rest -> head rest = Some p -> h !! p = Some e ->
  now < Next e \/ Next e = 0 ->
  q ∈ rest -> h !! q = Some e' -> now < Next e' \/ Next e' = 0.
Proof.
  intros Hs Hhead He Hnd Hq He'.
  apply head_Some in Hhead as [l ->].
  apply elem_of_cons in Hq as [->|Hq]; [by simplify_eq|].
  apply StronglySorted_inv in Hs as [_ Hall].
  rewrite Forall_forall in Hall. specialize (Hall q Hq). simpl in Hall.
  unfold LessAt in Hall. rewrite He, He' in Hall.
  apply not_true_iff_false in Hall. rewrite Less_spec in Hall. lia.
Qed.

(** C2: when the timer fires, the fired time becomes the loop's [now]; the
    entries started are a prefix of the sorted slice, each started once, and
    they are exactly the entries of the slice whose [Next] is a real time at
    or before [now] (so entries due at the same wake are all started in it);
    the scan stops at the first entry whose [Next] is after [now] or zero;
    every started entry gets [Prev] set to its old [Next] and [Next] set to
    [Schedule.Next(now)], and no other entry changes. *)
Theorem C2_timer_fire (c c' : Cron) (t : Time) (started : list (loc * Job)) :
  reachable c ->
  step c (LoopFire t started) c' ->
  exists now0 es timer rest,
    loop c = Some (AtSelect now0 es timer) /\
    loop c' = Some (AtRescan t) /\
    entries c' = entries c /\
    es = started.*1 ++ rest /\
    NoDup started.*1 /\
    (forall p e, p ∈ es -> heap c !! p = Some e ->
        (p ∈ started.*1 <-> Next e <> 0 /\ Next e <= t)) /\
    (forall p e, head rest = Some p -> heap c !! p = Some e ->
        t < Next e \/ Next e = 0) /\
    (forall p j, (p, j) ∈ started ->
        exists e, heap c !! p = Some e /\ j = Entry_Job e /\
          heap c' !! p =
            Some (mkEntry (Entry_Schedule e)
                    (Schedule_Next (Entry_Schedule e) t) (Next e)
                    (Name e) (Entry_Job e))) /\
    (forall p, p ∉ started.*1 -> heap c' !! p = heap c !! p).
Proof.
  intros Hreach Hstep. apply reachable_wf in Hreach as Hwf.
  inversion Hstep as
    [| | | | | | | | | | | | |t0 started0 c0 c0' H| | | | |]; subst.
  unfold loop_fire in H.
  destruct (loop c) as [[|?|now0 es timer| | |]|] eqn:Hl; try done.
  destruct (fire_scan (In t (location c)) es (heap c)) as [h ds] eqn:Hscan.
  simplify_eq. unfold In in *.
  destruct Hwf as [_ Hsa Hsn Hss _ _ _]. rewrite Hl in Hsa, Hsn, Hss.
  simpl in Hsa, Hsn, Hss.
  destruct (fire_scan_spec _ _ _ _ _ Hsn Hsa Hscan)
    as (rest & Hes & Hhead & Hds & Hother).
  exists now0, es, timer, rest. simpl. split_and!; try done.
  - rewrite Hes in Hsn. by apply NoDup_app in Hsn as [? _].
  - intros p e Hp He. split.
    + intros Hin. apply list_elem_of_fmap in Hin as ([q j] & -> & Hin).
      destruct (Hds _ _ Hin) as (e' & He' & _ & Hnz & Hle & _).
      simpl in *. by simplify_eq.
    + intros [Hnz Hle]. rewrite Hes in Hp.
      apply elem_of_app in Hp as [?|Hrest]; [done|].
      exfalso. destruct rest as [|r rest']; [by apply elem_of_nil in Hrest|].
      rewrite Hes in Hss, Hsa.
      apply StronglySorted_app in Hss as (_ & _ & Hss).
      apply Forall_app in Hsa as [_ Hsa].
      apply Forall_cons in Hsa as [[er Her] _].
      assert (t < Next e \/ Next e = 0); [|lia].
      eapply (sorted_rest_not_due t (heap c) (r :: rest') r er p e); try done.
      by eapply Hhead.
  - intros p j Hin. destruct (Hds _ _ Hin) as (e & He & Hj & _ & _ & Hp).
    exists e. by split_and!.
Qed.

(** The sample scheduler at 160: [c] and [a] are both due and both
    started; [b] is not. *)
Lemma C2_witness :
  reachable sample_select /\
  step sample_select (LoopFire 160 [(2%nat, job 3); (0%nat, job 1)]) sample_fired /\
  exists now0 es timer rest,
    loop sample_select = Some (AtSelect now0 es timer) /\
    loop sample_fired = Some (AtRescan 160) /\
    entries sample_fired = entries sample_select /\
    es = [(2%nat, job 3); (0%nat, job 1)].*1 ++ rest /\
    NoDup [(2%nat, job 3); (0%nat, job 1)].*1 /\
    (forall p e, p ∈ es -> heap sample_select !! p = Some e ->
        (p ∈ [(2%nat, job 3); (0%nat, job 1)].*1 <->
         Next e <> 0 /\ Next e <= 160)) /\
    (forall p e, head rest = Some p -> heap sample_select !! p = Some e ->
        160 < Next e \/ Next e = 0) /\
    (forall p j, (p, j) ∈ [(2%nat, job 3); (0%nat, job 1)] ->
        exists e, heap sample_select !! p = Some e /\ j = Entry_Job e /\
          heap sample_fired !! p =
            Some (mkEntry (Entry_Schedule e)
                    (Schedule_Next (Entry_Schedule e) 160) (Next e)
                    (Name e) (Entry_Job e))) /\
    (forall p, p ∉ [(2%nat, job 3); (0%nat, job 1)].*1 ->
        heap sample_fired !! p = heap sample_select !! p).
Proof.
  assert (Hstep : step sample_select
            (LoopFire 160 [(2%nat, job 3); (0%nat, job 1)]) sample_fired).
  { apply step_fire. vm_compute. reflexivity. }
  split; [apply sample_select_reachable|]. split; [exact Hstep|].
  apply (C2_timer_fire _ _ _ _ sample_select_reachable Hstep).
Defined.

(** ** Removal and the waiting loop *)

(** [RemoveJobOrFunc] changes the registry only: the loop keeps the slice
    it is waiting with, so the next timer case starts what it would have
    started without the removal. *)
Lemma Remove_keeps_slice name c c' t :
  RemoveJobOrFunc name c = Some c' ->
  loop c' = loop c /\ heap c' = heap c /\
  snd <$> loop_fire t c' = snd <$> loop_fire t c.
Proof.
  unfold RemoveJobOrFunc. destruct (mu c); [done|]. intros [= <-].
  repeat split. unfold loop_fire. simpl.
  destruct (loop c) as [[]|]; try done.
  by destruct (fire_scan _ _ _).
Qed.

(** C1 (the code does otherwise): three entries are registered and the loop
    waits for the earliest, [c], due at 130.  [RemoveJobOrFunc("c")] then
    deletes [c] from the registry.  When the timer fires at 130 the loop
    scans the slice it built before the removal and starts [c]'s job. *)
Theorem C1_removed_entry_still_started :
  reachable sample_select /\
  loop sample_select = Some (AtSelect 100 [2; 0; 1]%nat 30) /\
  RemoveJobOrFunc "c" sample_select = Some sample_removed /\
  entries sample_removed !! "c" = None /\
  snd <$> loop_fire 130 sample_removed = Some [(2%nat, job 3)] /\
  heap sample_select !! 2%nat = Some (mkEntry (every 30) 130 0 "c" (job 3)).
Proof.
  split; [apply sample_select_reachable|].
  split; [reflexivity|]. split; [by vm_compute|].
  split; [by vm_compute|]. split; by vm_compute.
Qed.

(** ** Start after Stop *)

(** The sample scheduler is stopped and started again: the new loop seeds
    the entries at 500, sorts them and waits for [c] at 530. *)
Lemma C3_counterexample :
  reachable sample_select /\
  running sample_select = true /\
  exists stopped,
    Stop sample_select = Some stopped /\
    running stopped = false /\ loop stopped = None /\
    running (Start stopped) = true /\
    loop (Start stopped) = Some AtSeed /\
    loop (Cron_Run stopped) = Some AtSeed /\
    exists seeded waiting,
      step (Start stopped) (LoopSeed 500) seeded /\
      step seeded LoopRescan waiting /\
      loop waiting = Some (AtSelect 500 [2; 0; 1]%nat 30).
Proof.
  split; [apply sample_select_reachable|]. split; [done|].
  eexists. split; [by vm_compute|]. repeat split.
  eexists _, _. split; [|split].
  - eapply (step_seed (mapToSlice _)); [done|]. by vm_compute.
  - apply loop_rescan_step. by vm_compute.
  - by vm_compute.
Qed.

(** Seeding gives every entry of the order its first [Next]. *)
Lemma seed_spec now order h p e :
  NoDup order -> p ∈ order -> h !! p = Some e ->
  foldl (seed_entry now) h order !! p =
    Some (set_Next (Schedule_Next (Entry_Schedule e) now) e).
Proof.
  revert h. induction order as [|p0 order IH]; intros h Hnd Hin Hp; simpl.
  - by apply elem_of_nil in Hin.
  - apply NoDup_cons in Hnd as [Hp0 Hnd].
    destruct (decide (p = p0)) as [->|Hne].
    + rewrite seed_other by done. unfold seed_entry. rewrite Hp.
      apply list_lookup_insert_eq. by eapply lookup_lt_Some.
    + apply elem_of_cons in Hin as [?|Hin]; [done|].
      apply IH; [done|done|]. unfold seed_entry.
      destruct (h !! p0); [|done]. by rewrite list_lookup_insert_ne.
Qed.

(** C3 (as amended): the scheduler has two lifecycle states, told apart by
    [running].  [Stop] on a running instance ends the loop and clears
    [running], and a second [Stop] changes nothing; after that, [Start] or
    [Run] on the same instance sets [running] again and starts a new loop
    at the top of [run], with the registry and the entries as they were, and
    that loop, as soon as the mutex is free, gives every registered entry a
    [Next] computed from the time it reads. *)
Theorem C3_stop_then_start (c stopped : Cron) :
  reachable c ->
  running c = true ->
  Stop c = Some stopped ->
  running stopped = false /\ loop stopped = None /\
  entries stopped = entries c /\ heap stopped = heap c /\
  Stop stopped = Some stopped /\
  Start stopped =
    mkCron (entries c) (heap c) true (Some AtSeed) (mu c) (ErrorLog c) (location c) /\
  Cron_Run stopped = Start stopped /\
  (mu c = None -> forall t, exists seeded,
      step (Start stopped) (LoopSeed t) seeded /\
      loop seeded = Some (AtRescan t) /\ entries seeded = entries c /\
      forall n p e,
        entries c !! n = Some p -> heap c !! p = Some e ->
        heap seeded !! p =
          Some (mkEntry (Entry_Schedule e) (Schedule_Next (Entry_Schedule e) t)
                  (Prev e) (Name e) (Entry_Job e))).
Proof.
  intros Hreach Hrun. apply reachable_wf in Hreach as Hwf.
  unfold Stop. rewrite Hrun. simpl.
  destruct (loop c) as [[]|] eqn:Hl; try done. intros [= <-].
  split_and!; try done. intros Hmu t. eexists. split_and!.
  - eapply (step_seed (mapToSlice _)); [done|].
    unfold loop_seed_with. simpl. by rewrite Hmu.
  - done.
  - done.
  - intros n p e Hn Hp. simpl. unfold In.
    apply (seed_spec t (mapToSlice (entries c)) (heap c) p e); [| |done].
    + eapply NoDup_mapToSlice, Hwf.
    + apply elem_of_mapToSlice. eauto.
Qed.

(** The same instance, stopped and started. *)
Lemma C3_witness :
  let c := sample_select in
  let stopped := set_running false (set_loop None sample_select) in
  reachable c /\
  running c = true /\
  Stop c = Some stopped /\
  running stopped = false /\ loop stopped = None /\
  entries stopped = entries c /\ heap stopped = heap c /\
  Stop stopped = Some stopped /\
  Start stopped =
    mkCron (entries c) (heap c) true (Some AtSeed) (mu c) (ErrorLog c) (location c) /\
  Cron_Run stopped = Start stopped /\
  (mu c = None -> forall t, exists seeded,
      step (Start stopped) (LoopSeed t) seeded /\
      loop seeded = Some (AtRescan t) /\ entries seeded = entries c /\
      forall n p e,
        entries c !! n = Some p -> heap c !! p = Some e ->
        heap seeded !! p =
          Some (mkEntry (Entry_Schedule e) (Schedule_Next (Entry_Schedule e) t)
                  (Prev e) (Name e) (Entry_Job e))).
Proof.
  split; [apply sample_select_reachable|].
  split; [reflexivity|]. split; [reflexivity|].
  apply (C3_stop_then_start sample_select _ sample_select_reachable);
    reflexivity.
Defined.

(** ** Update before the scheduler is started *)

(** While the scheduler is not running, [Schedule] leaves an existing name
    alone whatever the [update] flag says. *)
Lemma Schedule_idle_existing schedule name cmd update c c' p :
  entries c !! name = Some p ->
  Schedule_idle schedule name cmd update c = Some c' ->
  entries c' = entries c /\
  heap c' = heap c ++ [mkEntry schedule zeroTime zeroTime name cmd].
Proof.
  unfold Schedule_idle, alloc. intros Hp.
  destruct (running c); [done|]. destruct (mu c); [done|].
  rewrite Hp. by intros [= <-].
Qed.

(** C5 (the code does otherwise): on a scheduler that has not been started,
    [a] is registered with the every-minute schedule and job 1.
    [UpdateJob("*/5 * * * *", "a", job 2)] parses, returns no error, and
    leaves the registry as it was: [a] keeps its old schedule and job. *)
Theorem C5_update_ignored_when_not_running :
  sample_Parse "*/5 * * * *" = inl (every 300) /\
  running sample_idle = false /\
  entries sample_idle !! "a" = Some 0%nat /\
  exists c',
    UpdateJob sample_Parse 0 "*/5 * * * *" "a" (job 2) sample_idle = Some (None, c') /\
    entries c' = entries sample_idle /\
    heap c' !! 0%nat = Some (mkEntry (every 60) 0 0 "a" (job 1)).
Proof.
  split; [reflexivity|]. split; [reflexivity|]. split; [by vm_compute|].
  eexists. split; [by vm_compute|]. split; [|reflexivity].
  apply map_eq. intros k. by vm_compute.
Qed.

(** Once running, the update does replace schedule and job, and the loop
    computes [Next] from the time at which it receives the entry. *)
Lemma Schedule_update_running t schedule name cmd c c' :
  running c = true ->
  Cron_Schedule t schedule name cmd true c = Some c' ->
  entries c' = <[name := length (heap c)]> (entries c) /\
  heap c' !! length (heap c) =
    Some (mkEntry schedule (Schedule_Next schedule t) zeroTime name cmd).
Proof.
  intros Hrun. unfold Cron_Schedule. rewrite Hrun. simpl.
  unfold Schedule_update_lock, alloc. rewrite Hrun. simpl.
  destruct (mu c) eqn:Hmu; [done|]. simpl.
  unfold Schedule_update_send. simpl.
  destruct (loop c) as [[]|]; try done.
  rewrite lookup_alloc. intros [= <-]. simpl. split; [done|].
  rewrite insert_alloc. apply lookup_alloc.
Qed.

(** ** Parse errors *)

(** A registration call returns from any state in which the mutex is free
    and, if the scheduler runs, the loop is in its select. *)
Lemma Cron_Schedule_returns t schedule name cmd update c :
  mu c = None ->
  (running c = true -> exists now es timer, loop c = Some (AtSelect now es timer)) ->
  is_Some (Cron_Schedule t schedule name cmd update c).
Proof.
  intros Hmu Hloop. unfold Cron_Schedule.
  destruct (running c) eqn:Hrun; simpl.
  - destruct Hloop as (now & es & timer & Hl); [done|]. destruct update.
    + unfold Schedule_update_lock, alloc. rewrite Hrun, Hmu. simpl.
      unfold Schedule_update_send. simpl. rewrite Hl, lookup_alloc. by eexists.
    + unfold Schedule_add, alloc. rewrite Hrun, Hl. by eexists.
  - unfold Schedule_idle, alloc. rewrite Hrun, Hmu. by eexists.
Qed.

(** C7: whatever the parser is, each of [AddJob], [AddFunc], [UpdateJob]
    and [UpdateFunc] returns the parser's error as it is and leaves the
    scheduler untouched when parsing fails; when parsing succeeds it returns
    no error (nil) and what it does to the scheduler is what [Schedule] does
    with the parsed schedule, and the call does return whenever the mutex is
    free and a running loop is in its select. *)
Theorem C7_parse_error_returned (Parse : string -> Schedule + error)
    (t : Time) (spec name : string) (cmd : Job) (f : func) (c : Cron) :
  match Parse spec with
  | inr err =>
      AddJob Parse t spec name cmd c = Some (Some err, c) /\
      UpdateJob Parse t spec name cmd c = Some (Some err, c) /\
      AddFunc Parse t spec name f c = Some (Some err, c) /\
      UpdateFunc Parse t spec name f c = Some (Some err, c)
  | inl schedule =>
      AddJob Parse t spec name cmd c =
        pair None <$> Cron_Schedule t schedule name cmd false c /\
      UpdateJob Parse t spec name cmd c =
        pair None <$> Cron_Schedule t schedule name cmd true c /\
      AddFunc Parse t spec name f c =
        pair None <$> Cron_Schedule t schedule name (FuncJob f) false c /\
      UpdateFunc Parse t spec name f c =
        pair None <$> Cron_Schedule t schedule name (FuncJob f) true c /\
      (mu c = None ->
       (running c = true ->
        exists now es timer, loop c = Some (AtSelect now es timer)) ->
       exists c1 c2,
         AddJob Parse t spec name cmd c = Some (None, c1) /\
         UpdateJob Parse t spec name cmd c = Some (None, c2))
  end.
Proof.
  unfold AddFunc, UpdateFunc, AddJob, UpdateJob.
  destruct (Parse spec) as [schedule|err]; [|done].
  split_and!; try done.
  intros Hmu Hloop.
  destruct (Cron_Schedule_returns t schedule name cmd false c Hmu Hloop) as [c1 ->].
  destruct (Cron_Schedule_returns t schedule name cmd true c Hmu Hloop) as [c2 ->].
  by exists c1, c2.
Qed.

(** ** The registration calls on sample input *)

Example AddJob_bad_spec :
  AddJob sample_Parse 0 "every minute" "z" (job 8) sample_idle =
    Some (Some "bad spec", sample_idle).
Proof. reflexivity. Qed.

Example UpdateJob_bad_spec_running :
  UpdateJob sample_Parse 170 "every minute" "a" (job 8) sample_second =
    Some (Some "bad spec", sample_second).
Proof. reflexivity. Qed.

Example AddJob_good_spec :
  exists c',
    AddJob sample_Parse 0 "*/5 * * * *" "z" (job 8) sample_idle = Some (None, c') /\
    registered c' "z" = Some (every 300, job 8).
Proof. eexists. split; [by vm_compute|reflexivity]. Qed.

Example UpdateJob_good_spec_running :
  exists c',
    UpdateJob sample_Parse 170 "*/5 * * * *" "a" (job 8) sample_second =
      Some (None, c') /\
    registered c' "a" = Some (every 300, job 8) /\
    heap c' !! 3%nat = Some (mkEntry (every 300) 470 0 "a" (job 8)).
Proof. eexists. split; [by vm_compute|]. split; by vm_compute. Qed.

(** ** A job that panics *)

(** The timer case does not look at what a job does: with every job
    replaced by one that returns, it starts the same entries and leaves the
    same [Next] and [Prev]. *)
Lemma fire_scan_returning now es h :
  fire_scan now es (with_returning_job <$> h) =
  (with_returning_job <$> (fire_scan now es h).1,
   (fun d : loc * Job => (d.1, returning d.2)) <$> (fire_scan now es h).2).
Proof.
  revert h. induction es as [|p es IH]; intros h; simpl; [done|].
  rewrite list_lookup_fmap. destruct (h !! p) as [e|] eqn:Hp; simpl; [|done].
  destruct (After (Next e) now || IsZero (Next e)); [done|].
  change (fire_entry now (with_returning_job e))
    with (with_returning_job (fire_entry now e)).
  rewrite <- list_fmap_insert, IH.
  by destruct (fire_scan now es (<[p:=fire_entry now e]> h)).
Qed.

(** C8: a job whose [Run] panics ends its goroutine by a normal return (the
    panic goes no further, so the process and with it the scheduler live
    on: the end of the goroutine is a transition that leaves the scheduler's
    state as it is); exactly one report is logged, made of the panic value
    and at most the first 64 KiB of the stack trace, to [ErrorLog] if set and
    to the standard logger otherwise; and the timer case that started the
    job does the same to the scheduler as it would with jobs that return:
    same entries started, same [Next], [Prev], registry and loop. *)
Theorem C8_panic_contained (c : Cron) (stack : string) (j : Job) (r : string) :
  Run j = Panicked r ->
  runWithRecovery c stack j =
    (Returned,
     [(match ErrorLog c with Some l => Logger l | None => StdLogger end,
       "cron: panic running job: " +:+ r +:+ newline +:+
       String.substring 0 (Nat.shiftl 64 10) stack)]) /\
  step c (JobEnds stack j (runWithRecovery c stack j).2) c /\
  (forall t,
     loop_fire t (set_heap (with_returning_job <$> heap c) c) =
     (fun r : Cron * list (loc * Job) =>
        (set_heap (with_returning_job <$> heap r.1) r.1,
         (fun d : loc * Job => (d.1, returning d.2)) <$> r.2)) <$> loop_fire t c).
Proof.
  intros Hrun.
  assert (Hrec : runWithRecovery c stack j =
            (Returned,
             [(match ErrorLog c with Some l => Logger l | None => StdLogger end,
               "cron: panic running job: " +:+ r +:+ newline +:+
               String.substring 0 (Nat.shiftl 64 10) stack)])).
  { unfold runWithRecovery, recover, logf. rewrite Hrun.
    by destruct (ErrorLog c). }
  split; [exact Hrec|]. split.
  - apply step_job. by rewrite Hrec.
  - intros t. unfold loop_fire. simpl.
    destruct (loop c) as [[]|]; try done.
    rewrite fire_scan_returning.
    by destruct (fire_scan (In t (location c)) es (heap c)).
Qed.

(** A job that panics with [boom], run for the sample scheduler (no
    [ErrorLog] set). *)
Lemma C8_witness :
  Run sample_crasher = Panicked "boom" /\
  runWithRecovery sample_select "goroutine 7 [running]:" sample_crasher =
    (Returned,
     [(StdLogger,
       "cron: panic running job: " +:+ "boom" +:+ newline +:+
       String.substring 0 (Nat.shiftl 64 10) "goroutine 7 [running]:")]) /\
  step sample_select
    (JobEnds "goroutine 7 [running]:" sample_crasher
       (runWithRecovery sample_select "goroutine 7 [running]:" sample_crasher).2)
    sample_select /\
  (forall t,
     loop_fire t (set_heap (with_returning_job <$> heap sample_select) sample_select) =
     (fun r : Cron * list (loc * Job) =>
        (set_heap (with_returning_job <$> heap r.1) r.1,
         (fun d : loc * Job => (d.1, returning d.2)) <$> r.2))
       <$> loop_fire t sample_select).
Proof.
  split; [reflexivity|].
  apply (C8_panic_contained sample_select "goroutine 7 [running]:"
           sample_crasher "boom" eq_refl).
Defined.

(** ** What the scheduler holds, and what it leaves alone *)

Lemma held_allocated c p : wf c -> held c p -> allocated (heap c) p.
Proof.
  intros [He Hsa Hsn Hss Hr Hmu Hrun] [[n Hn]|[Hs|[Hrec|Hm]]].
  - destruct (He n p Hn) as (e & Hp & _). by exists e.
  - rewrite Forall_forall in Hsa. by apply Hsa.
  - rewrite Forall_forall in Hr. by apply Hr.
  - by apply Hmu.
Qed.

(** After a case analysis on the fields of the state, rewrite what is known
    about them everywhere in the goal. *)
Ltac norm_fields :=
  simpl;
  repeat match goal with
         | H : mu ?c = _ |- context [mu ?c] => rewrite H
         | H : loop ?c = _ |- context [loop ?c] => rewrite H
         | H : running ?c = _ |- context [running ?c] => rewrite H
         end;
  simpl.

(** Every address the scheduler holds after a step it held before, or the
    step allocated it. *)
Lemma step_held c ev c' p :
  wf c -> step c ev c' -> held c' p ->
  held c p \/ (length (heap c) <= p)%nat.
Proof.
  intros Hwf Hstep. unfold held. destruct Hstep as
    [schedule name cmd update c c' H | t schedule name cmd c c' H
    | schedule name cmd c c' H | t c c' H | name c c' H
    | order out c c' Hperm H | c c' H | c | c | c c' H | l c
    | order t c c' Hperm H | es c c' Hperm Hsorted H | t started c c' H
    | c c' H | c c' H | order out c c' Hperm H | stack j logged c H
    | out c c' H].
  - unfold Schedule_idle, alloc in H.
    destruct (running c) eqn:Hrun; [done|]. destruct (mu c) eqn:Hmu; [done|].
    simplify_eq. destruct (entries c !! name) eqn:Hn; norm_fields; [tauto|].
    intros [[n Hp]|?]; [|tauto].
    apply lookup_insert_Some in Hp as [[_ <-]|[_ Hp]]; [by right|eauto].
  - unfold Schedule_add, alloc in H.
    destruct (running c) eqn:Hrun; [|done]. simpl in H.
    destruct (loop c) as [[]|] eqn:Hl; try done. simplify_eq. norm_fields.
    intros [?|[Hp|[Hp|?]]]; [tauto| |right|tauto].
    + by apply elem_of_nil in Hp.
    + apply list_elem_of_singleton in Hp. lia.
  - unfold Schedule_update_lock, alloc in H.
    destruct (running c) eqn:Hrun; [|done]. simpl in H.
    destruct (mu c) eqn:Hmu; [done|]. simplify_eq. norm_fields.
    intros [[n Hp]|[?|[?|Hp]]]; [|tauto|tauto|right; by simplify_eq].
    apply lookup_insert_Some in Hp as [[_ <-]|[_ Hp]]; [by right|eauto].
  - unfold Schedule_update_send in H.
    destruct (mu c) as [p0|] eqn:Hmu; [|done].
    destruct (loop c) as [[]|] eqn:Hl; try done.
    destruct (heap c !! p0) as [e|] eqn:Hp0; [|done]. simplify_eq. norm_fields.
    intros [?|[Hp|[Hp|?]]]; [tauto| | |done].
    + by apply elem_of_nil in Hp.
    + apply list_elem_of_singleton in Hp as ->. tauto.
  - unfold RemoveJobOrFunc in H. destruct (mu c) eqn:Hmu; [done|].
    simplify_eq. norm_fields.
    intros [[n Hp]|?]; [|tauto].
    apply lookup_delete_Some in Hp as [_ Hp]. eauto.
  - unfold Entries_idle_with, entrySnapshot_with in H.
    destruct (running c) eqn:Hrun; [done|]. destruct (mu c) eqn:Hmu; [done|].
    destruct (snapshot_loop order (heap c) []). simplify_eq. norm_fields. tauto.
  - unfold Entries_send in H.
    destruct (running c) eqn:Hrun; [|done]. simpl in H.
    destruct (loop c) as [[]|] eqn:Hl; try done. simplify_eq. norm_fields. tauto.
  - unfold Start. destruct (running c) eqn:Hrun; [tauto|]. norm_fields.
    intros [?|[Hp|[Hp|?]]]; [tauto| | |tauto]; by apply elem_of_nil in Hp.
  - unfold Cron_Run. destruct (running c) eqn:Hrun; [tauto|]. norm_fields.
    intros [?|[Hp|[Hp|?]]]; [tauto| | |tauto]; by apply elem_of_nil in Hp.
  - unfold Stop in H. destruct (running c); simpl in H; [|simplify_eq; norm_fields; tauto].
    destruct (loop c) as [[]|] eqn:Hl; try done. simplify_eq. norm_fields.
    intros [?|[Hp|[Hp|?]]]; [tauto| | |tauto]; by apply elem_of_nil in Hp.
  - norm_fields. tauto.
  - unfold loop_seed_with in H.
    destruct (loop c) as [[]|] eqn:Hl; try done.
    destruct (mu c) eqn:Hmu; [done|]. simplify_eq. norm_fields.
    intros [?|[Hp|[Hp|?]]]; [tauto| | |tauto]; by apply elem_of_nil in Hp.
  - unfold loop_rescan_with in H.
    destruct (loop c) as [[]|] eqn:Hl; try done.
    destruct (mu c) eqn:Hmu; [done|]. simplify_eq. norm_fields.
    intros [?|[Hp|[Hp|?]]]; [tauto| | |tauto].
    + rewrite Hperm in Hp. apply elem_of_mapToSlice in Hp. tauto.
    + by apply elem_of_nil in Hp.
  - unfold loop_fire in H.
    destruct (loop c) as [[]|] eqn:Hl; try done.
    destruct (fire_scan (In t (location c)) es (heap c)). simplify_eq. norm_fields.
    intros [?|[Hp|[Hp|?]]]; [tauto| | |tauto]; by apply elem_of_nil in Hp.
  - unfold loop_add in H.
    destruct (loop c) as [[]|] eqn:Hl; try done.
    destruct (mu c) eqn:Hmu; [done|].
    destruct (heap c !! newEntry) as [e|] eqn:Hp0; [|done]. simplify_eq.
    destruct (entries c !! Name e) eqn:Hn; norm_fields.
    + intros [?|[Hp|[Hp|?]]]; [tauto| | |tauto]; by apply elem_of_nil in Hp.
    + intros [[n Hp]|[Hp|[Hp|?]]]; [| | |tauto]; try by apply elem_of_nil in Hp.
      apply lookup_insert_Some in Hp as [[_ <-]|[_ Hp]]; [|eauto].
      left. right. right. left. by apply list_elem_of_singleton.
  - unfold loop_update in H.
    destruct (loop c) as [[]|] eqn:Hl; try done.
    destruct (mu c) eqn:Hmu; [done|].
    destruct (heap c !! newEntry) as [e|] eqn:Hp0; [|done]. simplify_eq. norm_fields.
    intros [[n Hp]|[Hp|[Hp|?]]]; [| | |tauto]; try by apply elem_of_nil in Hp.
    apply lookup_insert_Some in Hp as [[_ <-]|[_ Hp]]; [|eauto].
    left. right. right. left. by apply list_elem_of_singleton.
  - unfold loop_snapshot_with, entrySnapshot_with in H.
    destruct (loop c) as [[]|] eqn:Hl; try done.
    destruct (mu c) eqn:Hmu; [done|].
    destruct (snapshot_loop order (heap c) []). simplify_eq. norm_fields.
    intros [?|[Hp|[Hp|?]]]; [tauto|tauto| |tauto]. by apply elem_of_nil in Hp.
  - tauto.
  - apply Entries_crossed_same in H as (-> & _). tauto.
Qed.

(** A step leaves alone every allocated entry the scheduler does not
    hold. *)
Lemma step_heap_frame c ev c' q :
  wf c -> step c ev c' -> allocated (heap c) q -> ~ held c q ->
  heap c' !! q = heap c !! q.
Proof.
  intros Hwf Hstep [eq Hq] Hnh.
  assert (Happ : forall x, (heap c ++ x) !! q = heap c !! q).
  { intros x. apply lookup_app_l. by eapply lookup_lt_Some. }
  destruct Hstep as
    [schedule name cmd update c c' H | t schedule name cmd c c' H
    | schedule name cmd c c' H | t c c' H | name c c' H
    | order out c c' Hperm H | c c' H | c | c | c c' H | l c
    | order t c c' Hperm H | es c c' Hperm Hsorted H | t started c c' H
    | c c' H | c c' H | order out c c' Hperm H | stack j logged c H
    | out c c' H].
  - unfold Schedule_idle, alloc in H.
    destruct (running c) eqn:Hrun; [done|]. destruct (mu c) eqn:Hmu; [done|].
    simplify_eq. destruct (entries c !! name); simpl; apply Happ.
  - unfold Schedule_add, alloc in H.
    destruct (running c) eqn:Hrun; [|done]. simpl in H.
    destruct (loop c) as [[]|] eqn:Hl; try done. simplify_eq. simpl.
    rewrite insert_alloc. apply Happ.
  - unfold Schedule_update_lock, alloc in H.
    destruct (running c) eqn:Hrun; [|done]. simpl in H.
    destruct (mu c) eqn:Hmu; [done|]. simplify_eq. simpl. apply Happ.
  - unfold Schedule_update_send in H.
    destruct (mu c) as [p0|] eqn:Hmu; [|done].
    destruct (loop c) as [[]|] eqn:Hl; try done.
    destruct (heap c !! p0) as [e|] eqn:Hp0; [|done]. simplify_eq. simpl.
    apply list_lookup_insert_ne. intros ->. apply Hnh. unfold held. tauto.
  - unfold RemoveJobOrFunc in H. destruct (mu c); [done|]. by simplify_eq.
  - unfold Entries_idle_with, entrySnapshot_with in H.
    destruct (running c) eqn:Hrun; [done|]. destruct (mu c) eqn:Hmu; [done|].
    rewrite snapshot_loop_spec in H
      by (eapply mapToSlice_allocated; [apply Hwf|done]).
    simplify_eq. simpl. apply Happ.
  - unfold Entries_send in H.
    destruct (running c) eqn:Hrun; [|done]. simpl in H.
    destruct (loop c) as [[]|] eqn:Hl; try done. by simplify_eq.
  - unfold Start. by destruct (running c).
  - unfold Cron_Run. by destruct (running c).
  - unfold Stop in H. destruct (running c); simpl in H; [|by simplify_eq].
    destruct (loop c) as [[]|] eqn:Hl; try done. by simplify_eq.
  - done.
  - unfold loop_seed_with in H.
    destruct (loop c) as [[]|] eqn:Hl; try done.
    destruct (mu c) eqn:Hmu; [done|]. simplify_eq. simpl.
    apply seed_other. intros Hin. apply Hnh. left.
    rewrite Hperm in Hin. by apply elem_of_mapToSlice in Hin.
  - unfold loop_rescan_with in H.
    destruct (loop c) as [[]|] eqn:Hl; try done.
    destruct (mu c) eqn:Hmu; [done|]. by simplify_eq.
  - unfold loop_fire in H.
    destruct (loop c) as [[]|] eqn:Hl; try done.
    pose proof (fire_scan_other (In t (location c)) es (heap c) q) as Hother.
    destruct (fire_scan (In t (location c)) es (heap c)). simplify_eq. simpl.
    apply Hother. intros Hin. apply Hnh. right. left. by rewrite Hl.
  - unfold loop_add in H.
    destruct (loop c) as [[]|] eqn:Hl; try done.
    destruct (mu c) eqn:Hmu; [done|].
    destruct (heap c !! newEntry) as [e|] eqn:Hp0; [|done]. simplify_eq.
    by destruct (entries c !! Name e).
  - unfold loop_update in H.
    destruct (loop c) as [[]|] eqn:Hl; try done.
    destruct (mu c) eqn:Hmu; [done|].
    destruct (heap c !! newEntry) as [e|] eqn:Hp0; [|done]. by simplify_eq.
  - unfold loop_snapshot_with, entrySnapshot_with in H.
    destruct (loop c) as [[]|] eqn:Hl; try done.
    destruct (mu c) eqn:Hmu; [done|].
    rewrite snapshot_loop_spec in H
      by (eapply mapToSlice_allocated; [apply Hwf|done]).
    simplify_eq. simpl. apply Happ.
  - done.
  - by apply Entries_crossed_same in H as (-> & _).
Qed.

Lemma steps_heap_frame c evs c' q :
  wf c -> steps c evs c' -> allocated (heap c) q -> ~ held c q ->
  heap c' !! q = heap c !! q.
Proof.
  intros Hwf Hs. induction Hs as [|c ev c1 evs c2 Hstep Hs IH]; [done|].
  intros Ha Hnh.
  pose proof (step_heap_frame _ _ _ _ Hwf Hstep Ha Hnh) as Heq.
  rewrite <- Heq. apply IH.
  - by eapply step_wf.
  - unfold allocated. by rewrite Heq.
  - intros Hh. destruct (step_held _ _ _ _ Hwf Hstep Hh) as [?|Hge]; [done|].
    destruct Ha as [e He]. apply lookup_lt_Some in He. lia.
Qed.

(** The copies [entrySnapshot] makes, position by position. *)
Lemma copies_lookup h order i p :
  Forall (allocated h) order -> order !! i = Some p ->
  exists e, h !! p = Some e /\
    omap (fun p => copy_of <$> h !! p) order !! i = Some (copy_of e).
Proof.
  intros Hall. revert i. induction Hall as [|p0 order [e0 Hp0] _ IH]; intros i Hi.
  - done.
  - csimpl. rewrite Hp0. csimpl. destruct i as [|i]; simpl in *.
    + simplify_eq. eauto.
    + by apply IH.
Qed.

Lemma copies_length h order :
  Forall (allocated h) order ->
  length (omap (fun p => copy_of <$> h !! p) order) = length order.
Proof.
  induction 1 as [|p0 order [e0 Hp0] _ IH]; csimpl; [done|].
  rewrite Hp0. csimpl. by rewrite IH.
Qed.

Lemma entrySnapshot_with_spec order c c1 out :
  wf c -> order ≡ₚ mapToSlice (entries c) ->
  entrySnapshot_with order c = (c1, out) ->
  c1 = set_heap (heap c ++ omap (fun p => copy_of <$> heap c !! p) order) c /\
  out = seq (length (heap c)) (length order) /\
  Forall2 (fun q p => exists e, heap c !! p = Some e /\
                        heap c1 !! q = Some (copy_of e)) out order.
Proof.
  intros Hwf Hperm. unfold entrySnapshot_with.
  assert (Hall : Forall (allocated (heap c)) order)
    by (eapply mapToSlice_allocated; [apply Hwf|done]).
  rewrite snapshot_loop_spec by done. intros [= <- <-]. simpl.
  split; [done|]. split; [done|].
  apply Forall2_same_length_lookup_2; [by rewrite length_seq|].
  intros i q p Hq Hp. apply lookup_seq in Hq as [-> Hlt].
  destruct (copies_lookup _ _ _ _ Hall Hp) as (e & He & Hc).
  exists e. split; [done|].
  rewrite lookup_app_r by lia.
  by replace (length (heap c) + i - length (heap c))%nat with i by lia.
Qed.

(** ** Snapshots *)

Lemma sample_waiting_reachable : reachable sample_waiting.
Proof.
  eapply reachable_step; [apply sample_select_reachable|].
  apply step_Entries_send. reflexivity.
Qed.

Lemma sample_snapped_step :
  step sample_waiting (LoopSnapshot [3; 4; 5]%nat) sample_snapped.
Proof.
  eapply (step_snapshot (mapToSlice (entries sample_waiting))); [done|].
  vm_compute. reflexivity.
Qed.

Lemma sample_later_steps :
  steps sample_snapped
    [LoopFire 160 [(2%nat, job 3); (0%nat, job 1)]; CallRemove "a"]
    sample_later.
Proof.
  eapply steps_cons; [apply step_fire; vm_compute; reflexivity|].
  eapply steps_cons; [apply step_Remove; vm_compute; reflexivity|].
  apply steps_nil.
Qed.

(** C9 (the code does otherwise): three entries are registered and the loop
    waits in its select.  A caller of [Entries] sends its request and the
    loop receives it.  Before the loop's reply is taken a second caller of
    [Entries] sends its request on the same channel: it meets the receive of
    the first caller, whose [Entries()] returns nil although three entries
    are registered.  The loop's reply, the copies at 3, 4 and 5, goes to the
    second caller. *)
Theorem C9_crossed_request_returns_nil :
  reachable sample_select /\
  size (entries sample_select) = 3%nat /\
  step sample_select SendSnapshot sample_waiting /\
  Entries_crossed sample_waiting = Some (sample_waiting, []) /\
  step sample_waiting (CrossedSnapshot []) sample_waiting /\
  step sample_waiting (LoopSnapshot [3; 4; 5]%nat) sample_snapped /\
  (entrySnapshot sample_waiting).2 = [3; 4; 5]%nat.
Proof.
  split; [apply sample_select_reachable|].
  split; [by vm_compute|].
  split; [apply step_Entries_send; reflexivity|].
  split; [reflexivity|].
  split; [apply step_Entries_crossed; reflexivity|].
  split; [apply sample_snapped_step|].
  by vm_compute.
Qed.

(** ** The window of an update *)

(** While a caller of [Schedule(.., update = true)] holds the lock and
    waits to send, no step other than the loop's receive touches the
    registry or the caller's entry. *)
Lemma update_window_step c ev c' p name e0 :
  wf c -> mu c = Some p -> entries c !! name = Some p ->
  heap c !! p = Some e0 ->
  step c ev c' -> (forall t, ev <> SendUpdate t) ->
  mu c' = Some p /\ entries c' !! name = Some p /\ heap c' !! p = Some e0.
Proof.
  intros Hwf Hmu Hn Hp Hstep Hev.
  destruct Hstep as
    [schedule name' cmd update c c' H | t schedule name' cmd c c' H
    | schedule name' cmd c c' H | t c c' H | name' c c' H
    | order out c c' Hperm H | c c' H | c | c | c c' H | l c
    | order t c c' Hperm H | es c c' Hperm Hsorted H | t started c c' H
    | c c' H | c c' H | order out c c' Hperm H | stack j logged c H
    | out c c' H].
  - unfold Schedule_idle, alloc in H. rewrite Hmu in H.
    by destruct (running c).
  - unfold Schedule_add, alloc in H.
    destruct (running c) eqn:Hrun; [|done]. simpl in H.
    destruct (loop c) as [[]|] eqn:Hl; try done. simplify_eq. simpl.
    rewrite insert_alloc. split_and!; try done.
    by apply lookup_app_l_Some.
  - unfold Schedule_update_lock, alloc in H. rewrite Hmu in H.
    by destruct (running c).
  - by destruct (Hev t).
  - unfold RemoveJobOrFunc in H. by rewrite Hmu in H.
  - unfold Entries_idle_with in H. rewrite Hmu in H. by destruct (running c).
  - unfold Entries_send in H.
    destruct (running c) eqn:Hrun; [|done]. simpl in H.
    destruct (loop c) as [[]|] eqn:Hl; try done. by simplify_eq.
  - unfold Start. by destruct (running c).
  - unfold Cron_Run. by destruct (running c).
  - unfold Stop in H. destruct (running c); simpl in H; [|by simplify_eq].
    destruct (loop c) as [[]|] eqn:Hl; try done. by simplify_eq.
  - done.
  - unfold loop_seed_with in H. rewrite Hmu in H. by destruct (loop c) as [[]|].
  - unfold loop_rescan_with in H. rewrite Hmu in H. by destruct (loop c) as [[]|].
  - unfold loop_fire in H.
    destruct (loop c) as [[]|] eqn:Hl; try done.
    pose proof (fire_scan_other (In t (location c)) es (heap c) p) as Hother.
    destruct (fire_scan (In t (location c)) es (heap c)).
    simpl in Hother. simplify_eq. simpl.
    split_and!; try done. rewrite Hother; [done|].
    destruct (wf_mu c Hwf p Hmu) as [_ Hnot]. by rewrite Hl in Hnot.
  - unfold loop_add in H. rewrite Hmu in H. by destruct (loop c) as [[]|].
  - unfold loop_update in H. rewrite Hmu in H. by destruct (loop c) as [[]|].
  - unfold loop_snapshot_with in H. rewrite Hmu in H.
    by destruct (loop c) as [[]|].
  - done.
  - by apply Entries_crossed_same in H as (-> & _).
Qed.

Lemma update_window_steps c evs c' p name e0 :
  wf c -> mu c = Some p -> entries c !! name = Some p ->
  heap c !! p = Some e0 ->
  steps c evs c' -> Forall (fun ev => forall t, ev <> SendUpdate t) evs ->
  wf c' /\ mu c' = Some p /\ entries c' !! name = Some p /\
  heap c' !! p = Some e0.
Proof.
  intros Hwf Hmu Hn Hp Hs. revert Hwf Hmu Hn Hp.
  induction Hs as [|c ev c1 evs c2 Hstep Hs IH]; intros Hwf Hmu Hn Hp Hall.
  - done.
  - apply Forall_cons in Hall as [Hev Hall].
    destruct (update_window_step _ _ _ _ _ _ Hwf Hmu Hn Hp Hstep Hev)
      as (Hmu1 & Hn1 & Hp1).
    apply IH; try done. by eapply step_wf.
Qed.

Lemma sample_second_reachable : reachable sample_second.
Proof.
  eapply reachable_step; [eapply reachable_step|].
  - apply sample_select_reachable.
  - apply (step_fire 160 [(2%nat, job 3); (0%nat, job 1)] _ sample_fired).
    vm_compute. reflexivity.
  - apply loop_rescan_step. vm_compute. reflexivity.
Qed.

Lemma sample_locked_step :
  step sample_second (LockUpdate (every 10) "a" (job 9)) sample_locked.
Proof. apply step_Schedule_update_lock. vm_compute. reflexivity. Qed.

(** C10: an update of a name while the scheduler runs stores, at once, a
    newly built entry under that name: its [Prev] and [Next] are the zero
    time whatever the replaced entry's were.  It stays in the registry like
    that through every step until the loop receives it on [c.update]; the
    loop then sets its [Next] to [Schedule.Next] of the time of receipt and
    stores it under its name again; [Prev] stays zero. *)
Theorem C10_update_resets_prev (c c1 : Cron) (schedule : Schedule)
    (name : string) (cmd : Job) :
  reachable c ->
  step c (LockUpdate schedule name cmd) c1 ->
  running c = true /\
  entries c1 !! name = Some (length (heap c)) /\
  heap c1 !! length (heap c) =
    Some (mkEntry schedule zeroTime zeroTime name cmd) /\
  (forall evs c2,
      steps c1 evs c2 ->
      Forall (fun ev => forall t, ev <> SendUpdate t) evs ->
      entries c2 !! name = Some (length (heap c)) /\
      heap c2 !! length (heap c) =
        Some (mkEntry schedule zeroTime zeroTime name cmd) /\
      (forall t c3,
          step c2 (SendUpdate t) c3 ->
          entries c3 !! name = Some (length (heap c)) /\
          heap c3 !! length (heap c) =
            Some (mkEntry schedule (Schedule_Next schedule t) zeroTime name cmd) /\
          (forall c4,
              step c3 LoopUpdate c4 ->
              entries c4 !! name = Some (length (heap c)) /\
              heap c4 !! length (heap c) =
                Some (mkEntry schedule (Schedule_Next schedule t) zeroTime
                        name cmd)))).
Proof.
  intros Hreach Hstep. apply reachable_wf in Hreach as Hwf.
  pose proof (step_wf _ _ _ Hwf Hstep) as Hwf1.
  inversion Hstep as [| |schedule0 name0 cmd0 c0 c0' H| | | | | | | | | | | | | | | |];
    subst.
  unfold Schedule_update_lock, alloc in H.
  destruct (running c) eqn:Hrun; [|done]. simpl in H.
  destruct (mu c) eqn:Hmu; [done|]. simplify_eq.
  set (p := length (heap c)) in *.
  set (c1 := set_mu _ _) in *.
  assert (Hn1 : entries c1 !! name = Some p) by apply lookup_insert_eq.
  assert (Hp1 : heap c1 !! p = Some (mkEntry schedule zeroTime zeroTime name cmd))
    by apply lookup_alloc.
  split_and!; try done.
  intros evs c2 Hsteps Hall.
  destruct (update_window_steps _ _ _ _ _ _ Hwf1 eq_refl Hn1 Hp1 Hsteps Hall)
    as (Hwf2 & Hmu2 & Hn2 & Hp2).
  split_and!; try done.
  intros t c3 Hsend.
  inversion Hsend as [| | |t0 c0 c0' H| | | | | | | | | | | | | | |]; subst.
  unfold Schedule_update_send in H. rewrite Hmu2 in H.
  destruct (loop c2) as [[]|] eqn:Hl2; try done.
  rewrite Hp2 in H. simplify_eq. unfold In. simpl.
  assert (Hp3 : <[p:=set_Next (Schedule_Next schedule t)
                      (mkEntry schedule zeroTime zeroTime name cmd)]> (heap c2) !! p =
                Some (mkEntry schedule (Schedule_Next schedule t) zeroTime name cmd)).
  { apply list_lookup_insert_eq. by eapply lookup_lt_Some. }
  split_and!; try done.
  intros c4 Hupd.
  inversion Hupd as [| | | | | | | | | | | | | | |c0 c0' H| | |]; subst.
  unfold loop_update in H. simpl in H. rewrite Hp3 in H. simplify_eq. simpl.
  split; [apply lookup_insert_eq|done].
Qed.

(** [a] has run once ([Prev] = 160) when it is updated. *)
Lemma C10_witness :
  reachable sample_second /\
  step sample_second (LockUpdate (every 10) "a" (job 9)) sample_locked /\
  heap sample_second !! 0%nat = Some (mkEntry (every 60) 220 160 "a" (job 1)) /\
  running sample_second = true /\
  entries sample_locked !! "a" = Some (length (heap sample_second)) /\
  heap sample_locked !! length (heap sample_second) =
    Some (mkEntry (every 10) zeroTime zeroTime "a" (job 9)) /\
  (forall evs c2,
      steps sample_locked evs c2 ->
      Forall (fun ev => forall t, ev <> SendUpdate t) evs ->
      entries c2 !! "a" = Some (length (heap sample_second)) /\
      heap c2 !! length (heap sample_second) =
        Some (mkEntry (every 10) zeroTime zeroTime "a" (job 9)) /\
      (forall t c3,
          step c2 (SendUpdate t) c3 ->
          entries c3 !! "a" = Some (length (heap sample_second)) /\
          heap c3 !! length (heap sample_second) =
            Some (mkEntry (every 10) (Schedule_Next (every 10) t) zeroTime
                    "a" (job 9)) /\
          (forall c4,
              step c3 LoopUpdate c4 ->
              entries c4 !! "a" = Some (length (heap sample_second)) /\
              heap c4 !! length (heap sample_second) =
                Some (mkEntry (every 10) (Schedule_Next (every 10) t) zeroTime
                        "a" (job 9))))).
Proof.
  split; [apply sample_second_reachable|].
  split; [apply sample_locked_step|].
  split; [reflexivity|].
  apply (C10_update_resets_prev sample_second sample_locked (every 10) "a"
           (job 9) sample_second_reachable sample_locked_step).
Defined.

(** ** Registration is insert-only *)

Lemma Add_spec r c :
  ready c ->
  exists c',
    Add r c = Some c' /\ ready c' /\ running c' = running c /\
    heap_le (heap c) (heap c') /\
    match entries c !! reg_name r with
    | Some _ => entries c' = entries c
    | None =>
        entries c' = <[reg_name r := length (heap c)]> (entries c) /\
        exists e, heap c' !! length (heap c) = Some e /\
          Entry_Schedule e = reg_schedule r /\ Entry_Job e = reg_cmd r
    end.
Proof.
  intros (Hwf & Hmu & Hloop). unfold Add, Cron_Schedule.
  destruct r as [t schedule name cmd]. simpl.
  destruct (running c) eqn:Hrun; simpl.
  - (* running: through c.add and the loop *)
    destruct Hloop as (now & es & timer & Hl); [done|].
    destruct (Schedule_add t schedule name cmd c) as [c1|] eqn:H1; last first.
    { unfold Schedule_add, alloc in H1. by rewrite Hrun, Hl in H1. }
    pose proof (step_wf _ _ _ Hwf (step_Schedule_add _ _ _ _ _ _ H1)) as Hwf1.
    unfold Schedule_add, alloc in H1. rewrite Hrun, Hl in H1. simpl in H1.
    rewrite insert_alloc in H1. injection H1 as <-. simpl.
    unfold loop_settle, loop_add. simpl. rewrite Hmu, lookup_alloc. simpl.
    set (e := mkEntry schedule (Schedule_Next schedule (In t (location c)))
                zeroTime name cmd) in *.
    set (c1 := set_loop _ (set_heap (heap c ++ [e]) c)) in *.
    set (c2 := set_loop (Some (AtRescan (In t (location c)))) _).
    assert (H2 : loop_add c1 = Some c2).
    { unfold loop_add. simpl. by rewrite Hmu, lookup_alloc. }
    pose proof (step_wf _ _ _ Hwf1 (step_add _ _ H2)) as Hwf2.
    assert (Hmu2 : mu c2 = None).
    { unfold c2. by destruct (entries c !! name). }
    assert (Hl2 : loop c2 = Some (AtRescan (In t (location c)))) by done.
    assert (Hh2 : heap c2 = heap c ++ [e]).
    { unfold c2. by destruct (entries c !! name). }
    assert (Hr2 : running c2 = true).
    { unfold c2. destruct (entries c !! name); simpl; done. }
    assert (He2 : match entries c !! name with
                  | Some _ => entries c2 = entries c
                  | None => entries c2 = <[name := length (heap c)]> (entries c)
                  end).
    { unfold c2. by destruct (entries c !! name). }
    clearbody c2 c1.
    unfold loop_rescan at 1, loop_rescan_with. rewrite Hl2, Hmu2.
    eexists. split; [done|].
    unfold ready. split_and!.
    + eapply step_wf; [exact Hwf2|]. apply loop_rescan_step.
      unfold loop_rescan, loop_rescan_with. by rewrite Hl2, Hmu2.
    + done.
    + intros _. simpl. eauto.
    + done.
    + simpl. rewrite Hh2. apply heap_le_app.
    + simpl. destruct (entries c !! name) eqn:Hn; [done|].
      split; [done|]. exists e. rewrite Hh2. split; [apply lookup_alloc|done].
  - (* not running: directly *)
    clear Hloop.
    destruct (Schedule_idle schedule name cmd false c) as [c1|] eqn:H1; last first.
    { unfold Schedule_idle, alloc in H1. by rewrite Hrun, Hmu in H1. }
    pose proof (step_wf _ _ _ Hwf (step_Schedule_idle _ _ _ _ _ _ H1)) as Hwf1.
    unfold Schedule_idle, alloc in H1. rewrite Hrun, Hmu in H1.
    injection H1 as <-. simpl.
    pose proof (wf_loop_None c Hwf Hrun) as Hnone.
    destruct (entries c !! name) eqn:Hn; unfold loop_settle; simpl;
      rewrite Hnone; simpl; (eexists; split; [done|]); unfold ready; simpl.
    + split_and!; try done.
      * intros ?. congruence.
      * apply heap_le_app.
    + split_and!; try done.
      * intros ?. congruence.
      * apply heap_le_app.
      * eexists. split; [apply lookup_alloc|done].
Qed.

Lemma registered_Some c name p e :
  entries c !! name = Some p -> heap c !! p = Some e ->
  registered c name = Some (Entry_Schedule e, Entry_Job e).
Proof. intros Hn Hp. unfold registered. rewrite Hn. simpl. by rewrite Hp. Qed.

Lemma registered_None c name :
  entries c !! name = None -> registered c name = None.
Proof. intros Hn. unfold registered. by rewrite Hn. Qed.

Lemma registered_kept c c' name p :
  wf c -> heap_le (heap c) (heap c') ->
  entries c !! name = Some p -> entries c' !! name = Some p ->
  is_Some (registered c name) /\ registered c' name = registered c name.
Proof.
  intros Hwf Hle Hn Hn'.
  destruct (wf_entries c Hwf name p Hn) as (e & Hp & _).
  destruct (Hle p e Hp) as (e' & Hp' & Hs & _ & Hj).
  rewrite (registered_Some c name p e), (registered_Some c' name p e') by done.
  split; [by eexists|]. by rewrite Hs, Hj.
Qed.

Lemma Add_registered r c c' name :
  ready c -> Add r c = Some c' ->
  ready c' /\ running c' = running c /\
  (forall p, entries c !! name = Some p -> entries c' !! name = Some p) /\
  registered c' name =
    match registered c name with
    | Some sj => Some sj
    | None =>
        if decide (reg_name r = name) then Some (reg_schedule r, reg_cmd r)
        else None
    end.
Proof.
  intros Hready Hadd.
  destruct (Add_spec r c Hready) as (c'' & Hadd' & Hready' & Hrun & Hle & Hent).
  rewrite Hadd in Hadd'. injection Hadd' as <-.
  destruct Hready as (Hwf & _). split; [done|]. split; [done|].
  assert (Hsame : entries c' !! name = entries c !! name ->
            registered c' name =
              match registered c name with
              | Some sj => Some sj
              | None => None
              end).
  { intros Heq. destruct (entries c !! name) as [p|] eqn:Hn.
    - destruct (registered_kept c c' name p Hwf Hle Hn Heq) as [[sj Hsj] ->].
      by rewrite Hsj.
    - by rewrite !registered_None. }
  destruct (entries c !! reg_name r) as [q|] eqn:Hq.
  - rewrite Hent. split; [done|]. rewrite Hsame by by rewrite Hent.
    destruct (registered c name) eqn:Hreg; [done|].
    case_decide as Hd; [|done]. subst name.
    destruct (wf_entries c Hwf _ _ Hq) as (e & Hp & _).
    by rewrite (registered_Some c _ q e) in Hreg.
  - destruct Hent as (Hent & e & Hp & Hs & Hj).
    destruct (decide (reg_name r = name)) as [<-|Hne].
    + split; [intros p; by rewrite Hq|].
      rewrite (registered_None c) by done.
      rewrite (registered_Some c' _ (length (heap c)) e);
        [by rewrite Hs, Hj|rewrite Hent; apply lookup_insert_eq|done].
    + split; [intros p Hn; by rewrite Hent, lookup_insert_ne|].
      rewrite Hsame by by rewrite Hent, lookup_insert_ne.
      by destruct (registered c name).
Qed.

(** C4: whatever the sequence of additions, and whether the scheduler is
    stopped (direct path) or running (through [c.add] and the loop), every
    call returns, a name that is registered keeps the very entry it has, and
    in the end each name is bound to the schedule and job it was bound to
    before the sequence or, if it was not bound, to those of the first
    addition that names it; names never added stay unbound. *)
Theorem C4_add_is_insert_only (c : Cron) (rs : list registration) :
  reachable c ->
  mu c = None ->
  (running c = true ->
   exists now es timer, loop c = Some (AtSelect now es timer)) ->
  exists c',
    Adds rs c = Some c' /\
    running c' = running c /\
    forall name,
      (forall p, entries c !! name = Some p -> entries c' !! name = Some p) /\
      registered c' name =
        match registered c name with
        | Some sj => Some sj
        | None =>
            (fun r => (reg_schedule r, reg_cmd r)) <$> first_registration name rs
        end.
Proof.
  intros Hreach Hmu Hloop.
  assert (Hready : ready c) by (split; [by apply reachable_wf|done]).
  clear Hreach Hmu Hloop. revert c Hready.
  induction rs as [|r rs IH]; intros c Hready; simpl.
  - exists c. split_and!; try done. intros name. split; [done|].
    by destruct (registered c name).
  - destruct (Add_spec r c Hready) as (c1 & Hadd & Hready1 & _).
    rewrite Hadd. simpl.
    destruct (IH c1 Hready1) as (c' & Hadds & Hrun' & Hnames).
    exists c'. split; [done|].
    assert (Hrun1 : running c1 = running c).
    { by destruct (Add_registered r c c1 EmptyString Hready Hadd) as (_ & ? & _). }
    split; [congruence|]. intros name.
    destruct (Add_registered r c c1 name Hready Hadd) as (_ & _ & Hkeep1 & Hreg1).
    destruct (Hnames name) as [Hkeep' Hreg']. split.
    + intros p Hp. by apply Hkeep', Hkeep1.
    + rewrite Hreg', Hreg1.
      destruct (registered c name); [done|].
      by case_decide.
Qed.

(** Three additions to the running sample scheduler: [d], the registered
    [a], and [d] again. *)
Lemma C4_witness :
  reachable sample_select /\
  mu sample_select = None /\
  (running sample_select = true ->
   exists now es timer, loop sample_select = Some (AtSelect now es timer)) /\
  exists c',
    Adds sample_registrations sample_select = Some c' /\
    running c' = running sample_select /\
    forall name,
      (forall p, entries sample_select !! name = Some p ->
                 entries c' !! name = Some p) /\
      registered c' name =
        match registered sample_select name with
        | Some sj => Some sj
        | None =>
            (fun r => (reg_schedule r, reg_cmd r))
              <$> first_registration name sample_registrations
        end.
Proof.
  assert (Hloop : running sample_select = true ->
            exists now es timer, loop sample_select = Some (AtSelect now es timer)).
  { intros _. by eexists _, _, _. }
  split; [apply sample_select_reachable|]. split; [reflexivity|].
  split; [exact Hloop|].
  apply (C4_add_is_insert_only sample_select sample_registrations
           sample_select_reachable eq_refl Hloop).
Defined.

(** The same sequence on a scheduler that was never started, and on the
    running one: [d] gets its first registration, [a] keeps what it had. *)
Example Adds_not_running :
  exists c',
    Adds sample_registrations sample_idle = Some c' /\
    registered c' "d" = Some (every 10, job 4) /\
    registered c' "a" = Some (every 60, job 1) /\
    dom (entries c') = {["a"; "d"]}.
Proof.
  eexists. split; [by vm_compute|]. split; [reflexivity|]. split; [reflexivity|].
  by vm_compute.
Qed.

Example Adds_running :
  exists c',
    Adds sample_registrations sample_select = Some c' /\
    registered c' "d" = Some (every 10, job 4) /\
    registered c' "a" = Some (every 60, job 1) /\
    heap c' !! 3%nat = Some (mkEntry (every 10) 120 0 "d" (job 4)) /\
    loop c' = Some (AtSelect 112 [3; 2; 0; 1]%nat 8).
Proof.
  eexists. split; [by vm_compute|]. split; [reflexivity|]. split; [reflexivity|].
  split; by vm_compute.
Qed.

(** * Further properties *)

(** ** More on the order and on [mapToSlice] *)

(** X1: [byTime.Less] is a strict weak order on entries, which is what
    [sort.Sort] needs: it is irreflexive, asymmetric and transitive, being
    unordered is transitive, and two entries are unordered exactly when both
    have a zero [Next] or both have the same real [Next]. *)
Theorem X1_Less_strict_weak_order :
  (forall a, Less a a = false) /\
  (forall a b, Less a b = true -> Less b a = false) /\
  (forall a b c, Less a b = true -> Less b c = true -> Less a c = true) /\
  (forall a b c,
      Less a b = false -> Less b a = false ->
      Less b c = false -> Less c b = false ->
      Less a c = false /\ Less c a = false) /\
  (forall a b,
      Less a b = false /\ Less b a = false <-> Next a = Next b).
Proof.
  split_and!.
  - intros a. apply not_true_iff_false. rewrite Less_spec. lia.
  - apply Less_asym.
  - apply Less_trans.
  - intros a b c. rewrite <- !not_true_iff_false, !Less_spec. lia.
  - intros a b. rewrite <- !not_true_iff_false, !Less_spec. lia.
Qed.

(** X2: [mapToSlice] returns exactly the values of the map, one slot per
    key: its length is the size of the map, an address is in it if and only
    if some key maps to it, the empty map gives the empty slice, and when no
    two keys share a value no address comes twice. *)
Theorem X2_mapToSlice_values (m : gmap string loc) :
  length (mapToSlice m) = size m /\
  (forall p, p ∈ mapToSlice m <-> exists n, m !! n = Some p) /\
  (m = ∅ -> mapToSlice m = []) /\
  ((forall n1 n2 p, m !! n1 = Some p -> m !! n2 = Some p -> n1 = n2) ->
   NoDup (mapToSlice m)).
Proof.
  split_and!.
  - unfold mapToSlice. by rewrite length_fmap, length_map_to_list.
  - apply elem_of_mapToSlice.
  - intros ->. unfold mapToSlice. by rewrite map_to_list_empty.
  - intros Hinj. unfold mapToSlice. apply NoDup_fmap_2_strong.
    + intros [n1 p1] [n2 p2] H1%elem_of_map_to_list H2%elem_of_map_to_list Heq.
      simpl in Heq. subst p2. f_equal. by eapply Hinj.
    + apply NoDup_map_to_list.
Qed.

(** ** Removal *)

(** X3: [RemoveJobOrFunc] never fails and returns whenever the mutex is
    free; afterwards the name is unbound, every other name is bound as
    before, and entries, loop and running flag are untouched; removing a
    name that is not registered changes nothing at all. *)
Theorem X3_Remove_lookup (c : Cron) (name : string) :
  mu c = None ->
  exists c',
    RemoveJobOrFunc name c = Some c' /\
    entries c' !! name = None /\
    (forall n, n <> name -> entries c' !! n = entries c !! n) /\
    heap c' = heap c /\ loop c' = loop c /\ running c' = running c /\
    (entries c !! name = None -> c' = c).
Proof.
  intros Hmu. unfold RemoveJobOrFunc. rewrite Hmu. eexists. split; [done|].
  simpl. split_and!; try done.
  - apply lookup_delete_eq.
  - intros n Hn. by apply lookup_delete_ne.
  - intros Hnone. destruct c. unfold set_entries. simpl in *.
    f_equal. by apply delete_id.
Qed.

(** Removing [c] from the waiting sample scheduler. *)
Lemma X3_witness :
  mu sample_select = None /\
  exists c',
    RemoveJobOrFunc "c" sample_select = Some c' /\
    entries c' !! "c" = None /\
    (forall n, n <> "c" -> entries c' !! n = entries sample_select !! n) /\
    heap c' = heap sample_select /\ loop c' = loop sample_select /\
    running c' = running sample_select /\
    (entries sample_select !! "c" = None -> c' = sample_select).
Proof.
  split; [reflexivity|]. apply (X3_Remove_lookup sample_select "c" eq_refl).
Defined.

(** ** The timer *)

Lemma rescan_inv c c' :
  step c LoopRescan c' ->
  exists now es,
    loop c = Some (AtRescan now) /\ mu c = None /\
    es ≡ₚ mapToSlice (entries c) /\ sorted_by (LessAt (heap c)) es /\
    c' = set_loop (Some (AtSelect now es (arm_timer now (heap c) es))) c.
Proof.
  intros Hstep. inversion Hstep as
    [| | | | | | | | | | | |es c0 c0' Hperm Hsorted H | | | | | |]; subst.
  unfold loop_rescan_with in H.
  destruct (loop c) as [[]|] eqn:Hl; try done.
  destruct (mu c) eqn:Hmu; [done|]. simplify_eq. by eexists _, _.
Qed.

Lemma Sub_mono t u now : t <= u -> Sub t now <= Sub u now.
Proof.
  intros Hle. unfold Sub, maxDuration, minDuration. simpl.
  repeat case_match;
    repeat match goal with
           | H : (_ <? _) = true |- _ => apply Z.ltb_lt in H
           | H : (_ <? _) = false |- _ => apply Z.ltb_ge in H
           end; lia.
Qed.

(** The timer armed for a sorted slice runs out no later than any entry of
    the slice with a real [Next] is due. *)
Lemma arm_timer_le now h es p e :
  sorted_by (LessAt h) es -> Forall (allocated h) es ->
  p ∈ es -> h !! p = Some e -> Next e <> 0 ->
  exists p0 e0,
    head es = Some p0 /\ h !! p0 = Some e0 /\ Next e0 <> 0 /\
    arm_timer now h es = Sub (Next e0) now /\ Next e0 <= Next e.
Proof.
  intros Hs Hall Hin Hp Hnz. destruct es as [|p0 es]; [by apply elem_of_nil in Hin|].
  apply Forall_cons in Hall as [[e0 Hp0] _].
  assert (Hle : Next e0 <> 0 /\ Next e0 <= Next e).
  { apply elem_of_cons in Hin as [->|Hin].
    - simplify_eq. lia.
    - apply StronglySorted_inv in Hs as [_ Hfa].
      rewrite Forall_forall in Hfa. specialize (Hfa p Hin). simpl in Hfa.
      unfold LessAt in Hfa. rewrite Hp, Hp0 in Hfa.
      apply not_true_iff_false in Hfa. rewrite Less_spec in Hfa. lia. }
  exists p0, e0. split_and!; try done; try tauto.
  simpl. rewrite Hp0. unfold IsZero.
  destruct (Z.eqb_spec (Next e0) 0); [tauto|done].
Qed.

Lemma arm_timer_idle now h es :
  Forall (allocated h) es ->
  (forall p e, p ∈ es -> h !! p = Some e -> Next e = 0) ->
  arm_timer now h es = 100000 * Hour.
Proof.
  intros Hall Hzero. destruct es as [|p0 es]; [done|].
  apply Forall_cons in Hall as [[e0 Hp0] _]. simpl. rewrite Hp0.
  rewrite (Hzero p0 e0); [done|by left|done].
Qed.

(** X5: when the loop sorts the registry and arms its timer, it waits 100000
    hours if no registered entry has a real [Next] (in particular if the
    registry is empty); otherwise it waits exactly for the earliest real
    [Next] in the registry, measured from the loop's [now] with
    [Time.Sub] (so a [Next] already past gives a timer that fires at once),
    which is no later than any registered entry is due. *)
Theorem X5_timer_earliest (c c' : Cron) :
  reachable c ->
  step c LoopRescan c' ->
  exists now es timer,
    loop c = Some (AtRescan now) /\
    loop c' = Some (AtSelect now es timer) /\
    ((forall n p e, entries c !! n = Some p -> heap c !! p = Some e ->
                    Next e = 0) ->
     timer = 100000 * Hour) /\
    (forall n p e,
        entries c !! n = Some p -> heap c !! p = Some e -> Next e <> 0 ->
        timer <= Sub (Next e) now /\
        exists n0 p0 e0,
          entries c !! n0 = Some p0 /\ heap c !! p0 = Some e0 /\
          Next e0 <> 0 /\ Next e0 <= Next e /\ timer = Sub (Next e0) now).
Proof.
  intros Hreach Hstep. apply reachable_wf in Hreach as Hwf.
  destruct (rescan_inv _ _ Hstep) as (now & es & Hl & Hmu & Hperm & Hs & ->).
  assert (Hall : Forall (allocated (heap c)) es)
    by (eapply mapToSlice_allocated; [apply Hwf|done]).
  exists now, es, (arm_timer now (heap c) es). split_and!; try done.
  - intros Hzero. apply arm_timer_idle; [done|].
    intros p e Hin Hp. rewrite Hperm in Hin.
    apply elem_of_mapToSlice in Hin as [n Hn]. eauto.
  - intros n p e Hn Hp Hnz.
    assert (Hin : p ∈ es) by (rewrite Hperm; apply elem_of_mapToSlice; eauto).
    destruct (arm_timer_le now _ _ _ _ Hs Hall Hin Hp Hnz)
      as (p0 & e0 & Hhead & Hp0 & Hnz0 & Htimer & Hle).
    split; [rewrite Htimer; by apply Sub_mono|].
    assert (Hin0 : p0 ∈ es).
    { apply head_Some in Hhead as [l ->]. by left. }
    rewrite Hperm in Hin0. apply elem_of_mapToSlice in Hin0 as [n0 Hn0].
    exists n0, p0, e0. by split_and!.
Qed.

(** The sample scheduler, seeded at 100: it waits 30, for [c] at 130. *)
Lemma X5_witness :
  reachable sample_rescan /\
  step sample_rescan LoopRescan sample_select /\
  exists now es timer,
    loop sample_rescan = Some (AtRescan now) /\
    loop sample_select = Some (AtSelect now es timer) /\
    ((forall n p e, entries sample_rescan !! n = Some p ->
                    heap sample_rescan !! p = Some e -> Next e = 0) ->
     timer = 100000 * Hour) /\
    (forall n p e,
        entries sample_rescan !! n = Some p ->
        heap sample_rescan !! p = Some e -> Next e <> 0 ->
        timer <= Sub (Next e) now /\
        exists n0 p0 e0,
          entries sample_rescan !! n0 = Some p0 /\
          heap sample_rescan !! p0 = Some e0 /\
          Next e0 <> 0 /\ Next e0 <= Next e /\ timer = Sub (Next e0) now).
Proof.
  split; [apply sample_rescan_reachable|]. split; [apply sample_select_step|].
  apply (X5_timer_earliest _ _ sample_rescan_reachable sample_select_step).
Defined.

(** ** Seeding *)

(** X6: on entering [run] the loop gives every registered entry the [Next]
    its schedule computes from the time just read, whatever [Next] it had,
    and keeps its [Prev], schedule, name and job; entries that are not in the
    registry (removed or replaced ones) and the registry itself are left as
    they are; the loop goes on to sort. *)
Theorem X6_seed_on_start (c c' : Cron) (t : Time) :
  reachable c ->
  step c (LoopSeed t) c' ->
  loop c = Some AtSeed /\ loop c' = Some (AtRescan t) /\
  entries c' = entries c /\ running c' = running c /\
  (forall n p e,
      entries c !! n = Some p -> heap c !! p = Some e ->
      heap c' !! p =
        Some (mkEntry (Entry_Schedule e) (Schedule_Next (Entry_Schedule e) t)
                (Prev e) (Name e) (Entry_Job e))) /\
  (forall q, (forall n, entries c !! n <> Some q) -> heap c' !! q = heap c !! q).
Proof.
  intros Hreach Hstep. apply reachable_wf in Hreach as Hwf.
  inversion Hstep as
    [| | | | | | | | | | |order t0 c0 c0' Hperm H| | | | | | |]; subst.
  unfold loop_seed_with in H.
  destruct (loop c) as [[]|] eqn:Hl; try done.
  destruct (mu c) eqn:Hmu; [done|]. simplify_eq. unfold In. simpl.
  split_and!; try done.
  - intros n p e Hn Hp.
    apply (seed_spec t order (heap c) p e); [| |done].
    + rewrite Hperm. eapply NoDup_mapToSlice, Hwf.
    + rewrite Hperm. apply elem_of_mapToSlice. eauto.
  - intros q Hq. apply seed_other. rewrite Hperm. intros Hin.
    apply elem_of_mapToSlice in Hin as [n Hn]. by apply (Hq n).
Qed.

(** The stopped sample scheduler (its entries still carry the [Next] of the
    first run) is started again and seeded at 500. *)
Lemma X6_witness :
  let started := Start (set_running false (set_loop None sample_select)) in
  let seeded :=
    mkCron sample_entries
      [ mkEntry (every 60) 560 0 "a" (job 1);
        mkEntry never 0 0 "b" (job 2);
        mkEntry (every 30) 530 0 "c" (job 3) ]
      true (Some (AtRescan 500)) None None "UTC" in
  reachable started /\
  step started (LoopSeed 500) seeded /\
  loop started = Some AtSeed /\ loop seeded = Some (AtRescan 500) /\
  entries seeded = entries started /\ running seeded = running started /\
  (forall n p e,
      entries started !! n = Some p -> heap started !! p = Some e ->
      heap seeded !! p =
        Some (mkEntry (Entry_Schedule e) (Schedule_Next (Entry_Schedule e) 500)
                (Prev e) (Name e) (Entry_Job e))) /\
  (forall q, (forall n, entries started !! n <> Some q) ->
             heap seeded !! q = heap started !! q).
Proof.
  assert (Hreach : reachable
            (Start (set_running false (set_loop None sample_select)))).
  { eapply reachable_step; [eapply reachable_step|].
    - apply sample_select_reachable.
    - apply step_Stop. reflexivity.
    - apply step_Start. }
  assert (Hstep : step (Start (set_running false (set_loop None sample_select)))
            (LoopSeed 500)
            (mkCron sample_entries
               [ mkEntry (every 60) 560 0 "a" (job 1);
                 mkEntry never 0 0 "b" (job 2);
                 mkEntry (every 30) 530 0 "c" (job 3) ]
               true (Some (AtRescan 500)) None None "UTC")).
  { eapply (step_seed (mapToSlice _)); [done|]. vm_compute. reflexivity. }
  split; [exact Hreach|]. split; [exact Hstep|].
  apply (X6_seed_on_start _ _ _ Hreach Hstep).
Defined.

(** ** Invariants of every reachable state *)

(** X7: in every state a scheduler made by [NewWithLocation] can reach, a
    name of the registry is bound to an allocated entry whose [Name] is that
    name, so no entry is registered under two names; and while the loop
    waits in its select, the slice it holds consists of allocated entries,
    has no entry twice, and is still sorted by [byTime] (nothing that runs
    while it waits disturbs the order). *)
Theorem X7_registry_and_slice_invariant (c : Cron) :
  reachable c ->
  (forall n p, entries c !! n = Some p ->
     exists e, heap c !! p = Some e /\ Name e = n) /\
  (forall n1 n2 p,
     entries c !! n1 = Some p -> entries c !! n2 = Some p -> n1 = n2) /\
  (forall now es timer,
     loop c = Some (AtSelect now es timer) ->
     NoDup es /\ Forall (allocated (heap c)) es /\
     sorted_by (LessAt (heap c)) es).
Proof.
  intros Hreach. apply reachable_wf in Hreach as Hwf.
  split_and!.
  - apply Hwf.
  - intros n1 n2 p. eapply entries_ok_inj, Hwf.
  - intros now es timer Hl.
    destruct Hwf as [_ Hsa Hsn Hss _ _ _]. rewrite Hl in Hsa, Hsn, Hss.
    done.
Qed.

Lemma X7_witness :
  reachable sample_second /\
  (forall n p, entries sample_second !! n = Some p ->
     exists e, heap sample_second !! p = Some e /\ Name e = n) /\
  (forall n1 n2 p,
     entries sample_second !! n1 = Some p ->
     entries sample_second !! n2 = Some p -> n1 = n2) /\
  (forall now es timer,
     loop sample_second = Some (AtSelect now es timer) ->
     NoDup es /\ Forall (allocated (heap sample_second)) es /\
     sorted_by (LessAt (heap sample_second)) es).
Proof.
  split; [apply sample_second_reachable|].
  apply (X7_registry_and_slice_invariant _ sample_second_reachable).
Defined.

(** ** What no step does *)

Lemma step_heap_le c ev c' : wf c -> step c ev c' -> heap_le (heap c) (heap c').
Proof.
  intros Hwf Hstep. destruct Hstep as
    [schedule name cmd update c c' H | t schedule name cmd c c' H
    | schedule name cmd c c' H | t c c' H | name c c' H
    | order out c c' Hperm H | c c' H | c | c | c c' H | l c
    | order t c c' Hperm H | es c c' Hperm Hsorted H | t started c c' H
    | c c' H | c c' H | order out c c' Hperm H | stack j logged c H
    | out c c' H].
  - unfold Schedule_idle, alloc in H.
    destruct (running c); [done|]. destruct (mu c); [done|]. simplify_eq.
    destruct (entries c !! name); apply heap_le_app.
  - unfold Schedule_add, alloc in H.
    destruct (running c); [|done]. simpl in H.
    destruct (loop c) as [[]|]; try done. simplify_eq. simpl.
    rewrite insert_alloc. apply heap_le_app.
  - unfold Schedule_update_lock, alloc in H.
    destruct (running c); [|done]. simpl in H.
    destruct (mu c); [done|]. simplify_eq. apply heap_le_app.
  - unfold Schedule_update_send in H.
    destruct (mu c) as [p0|]; [|done].
    destruct (loop c) as [[]|]; try done.
    destruct (heap c !! p0) as [e|] eqn:Hp0; [|done]. simplify_eq. simpl.
    eapply heap_le_insert; [done|apply set_Next_static].
  - unfold RemoveJobOrFunc in H. destruct (mu c); [done|]. simplify_eq.
    apply heap_le_refl.
  - unfold Entries_idle_with, entrySnapshot_with in H.
    destruct (running c); [done|]. destruct (mu c); [done|].
    rewrite snapshot_loop_spec in H
      by (eapply mapToSlice_allocated; [apply Hwf|done]).
    simplify_eq. apply heap_le_app.
  - unfold Entries_send in H.
    destruct (running c); [|done]. simpl in H.
    destruct (loop c) as [[]|]; try done. simplify_eq. apply heap_le_refl.
  - unfold Start. destruct (running c); apply heap_le_refl.
  - unfold Cron_Run. destruct (running c); apply heap_le_refl.
  - unfold Stop in H. destruct (running c); simpl in H;
      [|simplify_eq; apply heap_le_refl].
    destruct (loop c) as [[]|]; try done. simplify_eq. apply heap_le_refl.
  - apply heap_le_refl.
  - unfold loop_seed_with in H.
    destruct (loop c) as [[]|]; try done.
    destruct (mu c); [done|]. simplify_eq. apply seed_heap_le.
  - unfold loop_rescan_with in H.
    destruct (loop c) as [[]|]; try done.
    destruct (mu c); [done|]. simplify_eq. apply heap_le_refl.
  - unfold loop_fire in H.
    destruct (loop c) as [[]|]; try done.
    pose proof (fire_scan_heap_le (In t (location c)) es (heap c)) as Hle.
    destruct (fire_scan (In t (location c)) es (heap c)). by simplify_eq.
  - unfold loop_add in H.
    destruct (loop c) as [[]|]; try done.
    destruct (mu c); [done|].
    destruct (heap c !! newEntry) as [e|]; [|done]. simplify_eq.
    destruct (entries c !! Name e); apply heap_le_refl.
  - unfold loop_update in H.
    destruct (loop c) as [[]|]; try done.
    destruct (mu c); [done|].
    destruct (heap c !! newEntry) as [e|]; [|done]. simplify_eq.
    apply heap_le_refl.
  - unfold loop_snapshot_with, entrySnapshot_with in H.
    destruct (loop c) as [[]|]; try done.
    destruct (mu c); [done|].
    rewrite snapshot_loop_spec in H
      by (eapply mapToSlice_allocated; [apply Hwf|done]).
    simplify_eq. apply heap_le_app.
  - apply heap_le_refl.
  - apply Entries_crossed_same in H as (-> & _). apply heap_le_refl.
Qed.

Lemma steps_heap_le c evs c' : wf c -> steps c evs c' -> heap_le (heap c) (heap c').
Proof.
  intros Hwf Hs. induction Hs as [|c ev c1 evs c2 Hstep Hs IH].
  - apply heap_le_refl.
  - eapply heap_le_trans; [by eapply step_heap_le|].
    apply IH. by eapply step_wf.
Qed.

(** X8: an entry, once built, stays where it is and keeps its schedule, its
    name and its job through everything the scheduler and its callers do:
    only [Next] and [Prev] are ever assigned.  (An update replaces the entry
    in the registry by another one; it does not modify it.) *)
Theorem X8_static_fields_never_change (c c' : Cron) (evs : list event)
    (p : loc) (e : Entry) :
  reachable c ->
  steps c evs c' ->
  heap c !! p = Some e ->
  exists e',
    heap c' !! p = Some e' /\
    Entry_Schedule e' = Entry_Schedule e /\ Name e' = Name e /\
    Entry_Job e' = Entry_Job e.
Proof.
  intros Hreach Hsteps Hp. apply reachable_wf in Hreach as Hwf.
  destruct (steps_heap_le _ _ _ Hwf Hsteps p e Hp) as (e' & Hp' & Hs).
  exists e'. split; [done|]. apply Hs.
Qed.

(** Entry [a] of the sample scheduler, across a snapshot, a timer case and
    its own removal. *)
Lemma X8_witness :
  reachable sample_snapped /\
  steps sample_snapped
    [LoopFire 160 [(2%nat, job 3); (0%nat, job 1)]; CallRemove "a"]
    sample_later /\
  heap sample_snapped !! 0%nat = Some (mkEntry (every 60) 160 0 "a" (job 1)) /\
  exists e',
    heap sample_later !! 0%nat = Some e' /\
    Entry_Schedule e' = every 60 /\ Name e' = "a" /\ Entry_Job e' = job 1.
Proof.
  assert (Hreach : reachable sample_snapped).
  { eapply reachable_step; [apply sample_waiting_reachable|].
    apply sample_snapped_step. }
  split; [exact Hreach|]. split; [apply sample_later_steps|].
  split; [reflexivity|].
  apply (X8_static_fields_never_change sample_snapped sample_later _ 0%nat
           (mkEntry (every 60) 160 0 "a" (job 1)) Hreach sample_later_steps
           eq_refl).
Defined.

(** ** What a timer case can start *)

(** What a timer case starts is part of the slice the loop waits with. *)
Lemma fire_started_in_slice now es h p :
  p ∈ (fire_scan now es h).2.*1 -> p ∈ es.
Proof.
  revert h. induction es as [|p0 es IH]; intros h; simpl.
  { intros Hin. by apply elem_of_nil in Hin. }
  destruct (h !! p0) as [e|];
    [|simpl; intros Hin; by apply elem_of_nil in Hin].
  destruct (After (Next e) now || IsZero (Next e));
    [simpl; intros Hin; by apply elem_of_nil in Hin|].
  specialize (IH (<[p0:=fire_entry now e]> h)).
  destruct (fire_scan now es (<[p0:=fire_entry now e]> h)) as [h' ds].
  simpl in *. intros [->|Hin]%elem_of_cons; [by left|]. right. by apply IH.
Qed.

(** ** A timer case inside the window of an update *)

(** With the mutex held by an updater and the loop anywhere but in its
    select, nothing moves: every step that remains possible leaves registry,
    entries, loop, mutex and running flag as they are. *)
Lemma stuck_step c ev c' p l :
  wf c -> mu c = Some p -> loop c = Some l ->
  (forall now es timer, l <> AtSelect now es timer) ->
  (forall now es timer, l <> AtSnapshot now es timer) ->
  step c ev c' ->
  entries c' = entries c /\ heap c' = heap c /\ loop c' = loop c /\
  mu c' = mu c /\ running c' = running c /\
  match ev with
  | CallStart | CallRun | SetErrorLog _ | JobEnds _ _ _ => True
  | _ => False
  end.
Proof.
  intros Hwf Hmu Hl Hsel Hsnap Hstep.
  assert (Hrun : running c = true).
  { apply (wf_running c Hwf). rewrite Hl. by eexists. }
  destruct Hstep as
    [schedule name cmd update c c' H | t schedule name cmd c c' H
    | schedule name cmd c c' H | t c c' H | name c c' H
    | order out c c' Hperm H | c c' H | c | c | c c' H | l0 c
    | order t c c' Hperm H | es c c' Hperm Hsorted H | t started c c' H
    | c c' H | c c' H | order out c c' Hperm H | stack j logged c H
    | out c c' H].
  - unfold Schedule_idle, alloc in H. by rewrite Hrun in H.
  - unfold Schedule_add, alloc in H. rewrite Hrun, Hl in H. simpl in H.
    destruct l; try done. by destruct (Hsel now es timer).
  - unfold Schedule_update_lock, alloc in H. by rewrite Hrun, Hmu in H.
  - unfold Schedule_update_send in H. rewrite Hmu, Hl in H.
    destruct l; try done. by destruct (Hsel now es timer).
  - unfold RemoveJobOrFunc in H. by rewrite Hmu in H.
  - unfold Entries_idle_with in H. by rewrite Hrun in H.
  - unfold Entries_send in H. rewrite Hrun, Hl in H. simpl in H.
    destruct l; try done. by destruct (Hsel now es timer).
  - unfold Start. by rewrite Hrun.
  - unfold Cron_Run. by rewrite Hrun.
  - unfold Stop in H. rewrite Hrun, Hl in H. simpl in H.
    destruct l; try done. by destruct (Hsel now es timer).
  - done.
  - unfold loop_seed_with in H. rewrite Hmu in H. by destruct (loop c) as [[]|].
  - unfold loop_rescan_with in H. rewrite Hmu in H. by destruct (loop c) as [[]|].
  - unfold loop_fire in H. rewrite Hl in H.
    destruct l; try done. by destruct (Hsel now es timer).
  - unfold loop_add in H. rewrite Hmu in H. by destruct (loop c) as [[]|].
  - unfold loop_update in H. rewrite Hmu in H. by destruct (loop c) as [[]|].
  - unfold loop_snapshot_with in H. rewrite Hmu in H.
    by destruct (loop c) as [[]|].
  - done.
  - apply Entries_crossed_same in H as (_ & _ & _ & now & es & timer & Hl').
    rewrite Hl in Hl'. injection Hl' as ->. by destruct (Hsnap now es timer).
Qed.

Lemma stuck_steps c evs c' p l :
  wf c -> mu c = Some p -> loop c = Some l ->
  (forall now es timer, l <> AtSelect now es timer) ->
  (forall now es timer, l <> AtSnapshot now es timer) ->
  steps c evs c' ->
  entries c' = entries c /\ heap c' = heap c /\ loop c' = loop c /\
  mu c' = mu c /\ running c' = running c /\
  Forall (fun ev => match ev with
                    | CallStart | CallRun | SetErrorLog _ | JobEnds _ _ _ => True
                    | _ => False
                    end) evs.
Proof.
  intros Hwf Hmu Hl Hsel Hsnap Hs. revert Hwf Hmu Hl.
  induction Hs as [|c ev c1 evs c2 Hstep Hs IH]; intros Hwf Hmu Hl.
  - by split_and!.
  - destruct (stuck_step _ _ _ _ _ Hwf Hmu Hl Hsel Hsnap Hstep)
      as (He & Hh & Hl1 & Hmu1 & Hr & Hev).
    destruct IH as (He2 & Hh2 & Hl2 & Hmu2 & Hr2 & Hevs).
    + by eapply step_wf.
    + by rewrite Hmu1.
    + by rewrite Hl1.
    + split_and!; try congruence. by constructor.
Qed.

(** X13: if a caller of an update on a running scheduler has taken the lock
    and overwritten the registry, and the loop then takes its timer case
    instead of receiving the entry, the scheduler is stuck for good: the
    loop cannot re-read the registry (the lock is held) and the caller
    cannot hand over its entry (the loop is not in its select).  From then
    on the only steps left are calls of [Start] or [Run] that find the
    scheduler running, changes of [ErrorLog] and the ends of job goroutines
    already started; registry, entries, loop and lock never change again,
    the new entry keeps its zero [Next], no entry is started any more and
    no call of [Stop], [Entries], [RemoveJobOrFunc] or a registration can
    return. *)
Theorem X13_timer_case_during_update_blocks (c c1 c2 c3 : Cron)
    (schedule : Schedule) (name : string) (cmd : Job) (t : Time)
    (started : list (loc * Job)) (evs : list event) :
  reachable c ->
  step c (LockUpdate schedule name cmd) c1 ->
  step c1 (LoopFire t started) c2 ->
  steps c2 evs c3 ->
  loop c3 = Some (AtRescan t) /\ mu c3 = Some (length (heap c)) /\
  running c3 = true /\
  entries c3 = <[name := length (heap c)]> (entries c) /\
  heap c3 = heap c2 /\
  heap c3 !! length (heap c) =
    Some (mkEntry schedule zeroTime zeroTime name cmd) /\
  Forall (fun ev => match ev with
                    | CallStart | CallRun | SetErrorLog _ | JobEnds _ _ _ => True
                    | _ => False
                    end) evs.
Proof.
  intros Hreach Hlock Hfire Hsteps. apply reachable_wf in Hreach as Hwf.
  pose proof (step_wf _ _ _ Hwf Hlock) as Hwf1.
  pose proof (step_wf _ _ _ Hwf1 Hfire) as Hwf2.
  assert (Hn1 : entries c1 = <[name := length (heap c)]> (entries c) /\
                mu c1 = Some (length (heap c)) /\ running c1 = true /\
                heap c1 !! length (heap c) =
                  Some (mkEntry schedule zeroTime zeroTime name cmd)).
  { inversion Hlock as
      [| |schedule0 name0 cmd0 c0 c0' H| | | | | | | | | | | | | | | |]; subst.
    unfold Schedule_update_lock, alloc in H.
    destruct (running c) eqn:Hrun; [|done]. simpl in H.
    destruct (mu c) eqn:Hmu; [done|]. simplify_eq. simpl.
    split_and!; try done. apply lookup_alloc. }
  destruct Hn1 as (He1 & Hmu1 & Hrun1 & Hp1).
  destruct (update_window_step c1 _ c2 (length (heap c)) name _
              Hwf1 Hmu1 ltac:(rewrite He1; apply lookup_insert_eq) Hp1 Hfire
              ltac:(done)) as (Hmu2 & _ & Hp2).
  assert (Hl2 : loop c2 = Some (AtRescan t) /\ entries c2 = entries c1 /\
                running c2 = running c1).
  { inversion Hfire as
      [| | | | | | | | | | | | |t0 started0 c0 c0' H| | | | |]; subst.
    unfold loop_fire in H.
    destruct (loop c1) as [[]|]; try done.
    destruct (fire_scan (In t (location c1)) es (heap c1)). by simplify_eq. }
  destruct Hl2 as (Hl2 & He2 & Hrun2).
  destruct (stuck_steps c2 evs c3 _ _ Hwf2 Hmu2 Hl2 ltac:(done) ltac:(done) Hsteps)
    as (He3 & Hh3 & Hl3 & Hmu3 & Hrun3 & Hevs).
  split_and!; try congruence.
Qed.

(** The sample scheduler: [a] is being updated when the timer fires at 190;
    afterwards a caller tries [Start]. *)
Lemma X13_witness :
  reachable sample_second /\
  step sample_second (LockUpdate (every 10) "a" (job 9)) sample_locked /\
  step sample_locked (LoopFire 190 [(2%nat, job 3)]) sample_stuck /\
  steps sample_stuck [CallStart] sample_stuck /\
  loop sample_stuck = Some (AtRescan 190) /\
  mu sample_stuck = Some (length (heap sample_second)) /\
  running sample_stuck = true /\
  entries sample_stuck =
    <["a" := length (heap sample_second)]> (entries sample_second) /\
  heap sample_stuck = heap sample_stuck /\
  heap sample_stuck !! length (heap sample_second) =
    Some (mkEntry (every 10) zeroTime zeroTime "a" (job 9)) /\
  Forall (fun ev => match ev with
                    | CallStart | CallRun | SetErrorLog _ | JobEnds _ _ _ => True
                    | _ => False
                    end) [CallStart].
Proof.
  assert (Hfire : step sample_locked (LoopFire 190 [(2%nat, job 3)]) sample_stuck).
  { apply step_fire. vm_compute. reflexivity. }
  assert (Hsteps : steps sample_stuck [CallStart] sample_stuck).
  { eapply steps_cons; [apply step_Start|]. apply steps_nil. }
  split; [apply sample_second_reachable|]. split; [apply sample_locked_step|].
  split; [exact Hfire|]. split; [exact Hsteps|].
  apply (X13_timer_case_during_update_blocks sample_second sample_locked
           sample_stuck sample_stuck (every 10) "a" (job 9) 190
           [(2%nat, job 3)] [CallStart]
           sample_second_reachable sample_locked_step Hfire Hsteps).
Defined.

(** ** No registered entry is missed *)

Lemma step_covered c ev c' : wf c -> covered c -> step c ev c' -> covered c'.
Proof.
  intros Hwf Hcov Hstep. unfold covered in *. destruct Hstep as
    [schedule name cmd update c c' H | t schedule name cmd c c' H
    | schedule name cmd c c' H | t c c' H | name c c' H
    | order out c c' Hperm H | c c' H | c | c | c c' H | l0 c
    | order t c c' Hperm H | es c c' Hperm Hsorted H | t started c c' H
    | c c' H | c c' H | order out c c' Hperm H | stack j logged c H
    | out c c' H].
  - unfold Schedule_idle, alloc in H.
    destruct (running c) eqn:Hrun; [done|]. destruct (mu c); [done|].
    simplify_eq. pose proof (wf_loop_None c Hwf Hrun) as Hnone.
    destruct (entries c !! name); simpl; by rewrite Hnone.
  - unfold Schedule_add, alloc in H.
    destruct (running c); [|done]. simpl in H.
    destruct (loop c) as [[]|]; try done. by simplify_eq.
  - unfold Schedule_update_lock, alloc in H.
    destruct (running c); [|done]. simpl in H.
    destruct (mu c) eqn:Hmu; [done|]. simplify_eq. simpl.
    destruct (loop c) as [[]|]; try done; intros n p Hn;
      (apply lookup_insert_Some in Hn as [[_ <-]|[_ Hn]]; [by right|]);
      (destruct (Hcov n p Hn) as [?|?]; [by left|done]).
  - unfold Schedule_update_send in H.
    destruct (mu c) as [p0|]; [|done].
    destruct (loop c) as [[]|]; try done.
    destruct (heap c !! p0); [|done]. by simplify_eq.
  - unfold RemoveJobOrFunc in H. destruct (mu c) eqn:Hmu; [done|].
    simplify_eq. simpl. rewrite Hmu.
    destruct (loop c) as [[]|]; try done; intros n p Hn;
      apply lookup_delete_Some in Hn as [_ Hn]; by eapply Hcov.
  - unfold Entries_idle_with, entrySnapshot_with in H.
    destruct (running c) eqn:Hrun; [done|]. destruct (mu c); [done|].
    destruct (snapshot_loop order (heap c) []). simplify_eq. simpl.
    by rewrite (wf_loop_None c Hwf Hrun).
  - unfold Entries_send in H.
    destruct (running c); [|done]. simpl in H.
    destruct (loop c) as [[]|]; try done. by simplify_eq.
  - unfold Start. by destruct (running c).
  - unfold Cron_Run. by destruct (running c).
  - unfold Stop in H. destruct (running c); simpl in H; [|by simplify_eq].
    destruct (loop c) as [[]|]; try done. by simplify_eq.
  - done.
  - unfold loop_seed_with in H.
    destruct (loop c) as [[]|]; try done.
    destruct (mu c); [done|]. by simplify_eq.
  - unfold loop_rescan_with in H.
    destruct (loop c) as [[]|]; try done.
    destruct (mu c); [done|]. simplify_eq. simpl.
    intros n p Hn. left. rewrite Hperm. apply elem_of_mapToSlice. eauto.
  - unfold loop_fire in H.
    destruct (loop c) as [[]|]; try done.
    destruct (fire_scan (In t (location c)) es (heap c)). by simplify_eq.
  - unfold loop_add in H.
    destruct (loop c) as [[]|]; try done.
    destruct (mu c); [done|].
    destruct (heap c !! newEntry); [|done]. by simplify_eq.
  - unfold loop_update in H.
    destruct (loop c) as [[]|]; try done.
    destruct (mu c); [done|].
    destruct (heap c !! newEntry); [|done]. by simplify_eq.
  - unfold loop_snapshot_with, entrySnapshot_with in H.
    destruct (loop c) as [[]|] eqn:Hl; try done.
    destruct (mu c) eqn:Hmu; [done|].
    destruct (snapshot_loop order (heap c) []). simplify_eq. simpl.
    rewrite Hmu. done.
  - done.
  - by apply Entries_crossed_same in H as (-> & _).
Qed.

Lemma reachable_covered c : reachable c -> covered c.
Proof.
  intros (location & evs & Hs).
  assert (Hgen : forall c0, wf c0 -> covered c0 -> steps c0 evs c -> covered c).
  { clear Hs. intros c0 Hwf0 Hc0 Hs.
    induction Hs as [|c0 ev c1 evs c2 Hstep Hs IH]; [done|].
    apply IH; [by eapply step_wf|by eapply step_covered]. }
  apply (Hgen _ (wf_New location)); [done|done].
Qed.

(** X14: the loop's slice may hold entries that are no longer registered,
    but it never lacks one that is: when the timer fires, every registered
    entry with a real [Next] at or before the fired time is started in that
    timer case (the entry of an updater that still holds the lock apart: its
    [Next] is still to be computed). *)
Theorem X14_registered_due_entries_started (c c' : Cron) (t : Time)
    (started : list (loc * Job)) :
  reachable c ->
  step c (LoopFire t started) c' ->
  forall n p e,
    entries c !! n = Some p -> heap c !! p = Some e -> mu c <> Some p ->
    Next e <> 0 -> Next e <= t ->
    (p, Entry_Job e) ∈ started.
Proof.
  intros Hreach Hstep n p e Hn Hp Hmu Hnz Hle.
  apply reachable_wf in Hreach as Hwf.
  apply reachable_covered in Hreach as Hcov.
  inversion Hstep as
    [| | | | | | | | | | | | |t0 started0 c0 c0' H| | | | |]; subst.
  unfold loop_fire in H. unfold covered in Hcov.
  destruct (loop c) as [[|?|now0 es timer| | |]|] eqn:Hl; try done.
  destruct (fire_scan (In t (location c)) es (heap c)) as [h ds] eqn:Hscan.
  simplify_eq. unfold In in *.
  destruct Hwf as [_ Hsa Hsn Hss _ _ _]. rewrite Hl in Hsa, Hsn, Hss.
  simpl in Hsa, Hsn, Hss.
  destruct (fire_scan_spec _ _ _ _ _ Hsn Hsa Hscan)
    as (rest & Hes & Hhead & Hds & _).
  destruct (Hcov n p Hn) as [Hin|?]; [|done].
  rewrite Hes in Hin. apply elem_of_app in Hin as [Hin|Hrest].
  - apply list_elem_of_fmap in Hin as ([q j] & -> & Hin).
    destruct (Hds _ _ Hin) as (e' & He' & -> & _). simpl in *. by simplify_eq.
  - exfalso. destruct rest as [|r rest']; [by apply elem_of_nil in Hrest|].
    rewrite Hes in Hss, Hsa.
    apply StronglySorted_app in Hss as (_ & _ & Hss).
    apply Forall_app in Hsa as [_ Hsa].
    apply Forall_cons in Hsa as [[er Her] _].
    assert (t < Next e \/ Next e = 0); [|lia].
    eapply (sorted_rest_not_due t (heap c) (r :: rest') r er p e); try done.
    by eapply Hhead.
Qed.

(** At 160 the registered entry [a] of the sample scheduler is due. *)
Lemma X14_witness :
  reachable sample_select /\
  step sample_select (LoopFire 160 [(2%nat, job 3); (0%nat, job 1)]) sample_fired /\
  forall n p e,
    entries sample_select !! n = Some p -> heap sample_select !! p = Some e ->
    mu sample_select <> Some p -> Next e <> 0 -> Next e <= 160 ->
    (p, Entry_Job e) ∈ [(2%nat, job 3); (0%nat, job 1)].
Proof.
  assert (Hstep : step sample_select
            (LoopFire 160 [(2%nat, job 3); (0%nat, job 1)]) sample_fired).
  { apply step_fire. vm_compute. reflexivity. }
  split; [apply sample_select_reachable|]. split; [exact Hstep|].
  apply (X14_registered_due_entries_started _ _ _ _
           sample_select_reachable Hstep).
Defined.

(** ** From registration to the first run *)

Lemma mapToSlice_singleton (name : string) (p : loc) :
  mapToSlice (<[name := p]> ∅) = [p].
Proof. unfold mapToSlice. by rewrite insert_empty, map_to_list_singleton. Qed.

(** X15: a job registered (by an add or an update alike) on a new scheduler
    and then started: the loop seeds its [Next] from the start time [t0] and
    waits for it, or for 100000 hours if the schedule gives the zero time.
    A timer that fires at [t1], at or after that [Next], starts the job
    once, sets [Prev] to the [Next] it was started for and [Next] to what
    the schedule computes from [t1]; a timer that fires before it is due, or
    for a schedule that never is, starts nothing and changes no entry. *)
Theorem X15_first_run (location name : string) (schedule : Schedule)
    (cmd : Job) (update : bool) (t0 t1 : Time) :
  exists c timer,
    execs [CallSchedule schedule name cmd update; CallStart; LoopSeed t0;
           LoopRescan] (NewWithLocation location) = Some c /\
    c = mkCron (<[name := 0%nat]> ∅)
          [mkEntry schedule (Schedule_Next schedule t0) zeroTime name cmd]
          true (Some (AtSelect t0 [0%nat] timer)) None None location /\
    timer = (if IsZero (Schedule_Next schedule t0) then 100000 * Hour
             else Sub (Schedule_Next schedule t0) t0) /\
    (Schedule_Next schedule t0 <> 0 -> Schedule_Next schedule t0 <= t1 ->
     loop_fire t1 c =
       Some (mkCron (<[name := 0%nat]> ∅)
               [mkEntry schedule (Schedule_Next schedule t1)
                  (Schedule_Next schedule t0) name cmd]
               true (Some (AtRescan t1)) None None location,
             [(0%nat, cmd)])) /\
    (Schedule_Next schedule t0 = 0 \/ t1 < Schedule_Next schedule t0 ->
     loop_fire t1 c = Some (set_loop (Some (AtRescan t1)) c, [])).
Proof.
  eexists _, _. split; [|split; [reflexivity|]].
  - simpl. unfold Schedule_idle, alloc. simpl. rewrite lookup_empty. simpl.
    unfold loop_seed, loop_seed_with. simpl.
    rewrite mapToSlice_singleton. simpl.
    unfold loop_rescan, loop_rescan_with. simpl.
    rewrite ?mapToSlice_singleton. simpl. unfold In. reflexivity.
  - split; [reflexivity|]. split.
    + intros Hnz Hle. unfold loop_fire. simpl.
      assert (Hdue : After (Schedule_Next schedule t0) t1
                     || IsZero (Schedule_Next schedule t0) = false).
      { apply (due_iff t1 (mkEntry schedule (Schedule_Next schedule t0)
                             zeroTime name cmd)). by simpl. }
      unfold In. by rewrite Hdue.
    + intros Hnot. unfold loop_fire. simpl.
      assert (Hstop : After (Schedule_Next schedule t0) t1
                      || IsZero (Schedule_Next schedule t0) = true).
      { apply (not_due_iff t1 (mkEntry schedule (Schedule_Next schedule t0)
                                 zeroTime name cmd)). simpl. tauto. }
      unfold In. by rewrite Hstop.
Qed.

(** ** The location *)

Lemma step_location c ev c' : step c ev c' -> location c' = location c.
Proof.
  intros Hstep. destruct Hstep as
    [schedule name cmd update c c' H | t schedule name cmd c c' H
    | schedule name cmd c c' H | t c c' H | name c c' H
    | order out c c' Hperm H | c c' H | c | c | c c' H | l0 c
    | order t c c' Hperm H | es c c' Hperm Hsorted H | t started c c' H
    | c c' H | c c' H | order out c c' Hperm H | stack j logged c H
    | out c c' H].
  - unfold Schedule_idle, alloc in H.
    destruct (running c); [done|]. destruct (mu c); [done|]. simplify_eq.
    by destruct (entries c !! name).
  - unfold Schedule_add, alloc in H.
    destruct (running c); [|done]. simpl in H.
    destruct (loop c) as [[]|]; try done. by simplify_eq.
  - unfold Schedule_update_lock, alloc in H.
    destruct (running c); [|done]. simpl in H.
    destruct (mu c); [done|]. by simplify_eq.
  - unfold Schedule_update_send in H.
    destruct (mu c) as [p0|]; [|done].
    destruct (loop c) as [[]|]; try done.
    destruct (heap c !! p0); [|done]. by simplify_eq.
  - unfold RemoveJobOrFunc in H. destruct (mu c); [done|]. by simplify_eq.
  - unfold Entries_idle_with, entrySnapshot_with in H.
    destruct (running c); [done|]. destruct (mu c); [done|].
    destruct (snapshot_loop order (heap c) []). by simplify_eq.
  - unfold Entries_send in H.
    destruct (running c); [|done]. simpl in H.
    destruct (loop c) as [[]|]; try done. by simplify_eq.
  - unfold Start. by destruct (running c).
  - unfold Cron_Run. by destruct (running c).
  - unfold Stop in H. destruct (running c); simpl in H; [|by simplify_eq].
    destruct (loop c) as [[]|]; try done. by simplify_eq.
  - done.
  - unfold loop_seed_with in H.
    destruct (loop c) as [[]|]; try done.
    destruct (mu c); [done|]. by simplify_eq.
  - unfold loop_rescan_with in H.
    destruct (loop c) as [[]|]; try done.
    destruct (mu c); [done|]. by simplify_eq.
  - unfold loop_fire in H.
    destruct (loop c) as [[]|]; try done.
    destruct (fire_scan (In t (location c)) es (heap c)). by simplify_eq.
  - unfold loop_add in H.
    destruct (loop c) as [[]|]; try done.
    destruct (mu c); [done|].
    destruct (heap c !! newEntry) as [e|]; [|done]. simplify_eq.
    by destruct (entries c !! Name e).
  - unfold loop_update in H.
    destruct (loop c) as [[]|]; try done.
    destruct (mu c); [done|].
    destruct (heap c !! newEntry); [|done]. by simplify_eq.
  - unfold loop_snapshot_with, entrySnapshot_with in H.
    destruct (loop c) as [[]|]; try done.
    destruct (mu c); [done|].
    destruct (snapshot_loop order (heap c) []). by simplify_eq.
  - done.
  - by apply Entries_crossed_same in H as (-> & _).
Qed.

(** X16: [Location] returns the location given to [NewWithLocation], at
    every moment of the scheduler's life: no call and no step of the loop
    changes it. *)
Theorem X16_Location_fixed (l : string) (evs : list event) (c : Cron) :
  steps (NewWithLocation l) evs c -> Location c = l.
Proof.
  intros Hs. unfold Location.
  assert (Hgen : forall c0, steps c0 evs c -> location c = location c0).
  { clear Hs. intros c0 Hs.
    induction Hs as [|c0 ev c1 evs c2 Hstep Hs IH]; [done|].
    rewrite IH. by eapply step_location. }
  by rewrite (Hgen _ Hs).
Qed.

Lemma X16_witness :
  steps (NewWithLocation "UTC")
    [CallSchedule (every 60) "a" (job 1) false; CallStart; LoopSeed 0]
    (mkCron (<["a" := 0%nat]> ∅) [mkEntry (every 60) 60 0 "a" (job 1)]
       true (Some (AtRescan 0)) None None "UTC") /\
  Location
    (mkCron (<["a" := 0%nat]> ∅) [mkEntry (every 60) 60 0 "a" (job 1)]
       true (Some (AtRescan 0)) None None "UTC") = "UTC".
Proof.
  assert (Hs : steps (NewWithLocation "UTC")
            [CallSchedule (every 60) "a" (job 1) false; CallStart; LoopSeed 0]
            (mkCron (<["a" := 0%nat]> ∅) [mkEntry (every 60) 60 0 "a" (job 1)]
               true (Some (AtRescan 0)) None None "UTC")).
  { eapply steps_cons; [apply step_Schedule_idle; vm_compute; reflexivity|].
    eapply steps_cons; [apply step_Start|].
    eapply steps_cons;
      [eapply (step_seed (mapToSlice _)); [done|vm_compute; reflexivity]|].
    apply steps_nil. }
  split; [exact Hs|]. apply (X16_Location_fixed "UTC" _ _ Hs).
Defined.

(** ** A removal between the two halves of an update *)

(** X17: once the loop has received an updated entry, the updater's lock is
    released before the loop takes it to store the entry.  A
    [RemoveJobOrFunc] of the same name that gets the lock in between does
    unbind the name, but not for long: the loop then stores the updated
    entry under its name, so the name is registered again, with the [Next]
    computed at the time of receipt. *)
Theorem X17_Remove_inside_update_is_undone (c c1 c2 c3 : Cron) (t : Time)
    (p : loc) (e : Entry) :
  mu c = Some p ->
  heap c !! p = Some e ->
  step c (SendUpdate t) c1 ->
  RemoveJobOrFunc (Name e) c1 = Some c2 ->
  step c2 LoopUpdate c3 ->
  entries c2 !! Name e = None /\
  entries c3 !! Name e = Some p /\
  heap c3 !! p =
    Some (mkEntry (Entry_Schedule e) (Schedule_Next (Entry_Schedule e) t)
            (Prev e) (Name e) (Entry_Job e)) /\
  loop c3 = Some (AtRescan t).
Proof.
  intros Hmu Hp Hsend Hrem Hupd.
  inversion Hsend as [| | |t0 c0 c0' H| | | | | | | | | | | | | | |]; subst.
  unfold Schedule_update_send in H. rewrite Hmu in H.
  destruct (loop c) as [[]|] eqn:Hl; try done.
  rewrite Hp in H. injection H as <-.
  unfold RemoveJobOrFunc in Hrem. simpl in Hrem. injection Hrem as <-.
  inversion Hupd as [| | | | | | | | | | | | | | |c0 c0' H| | |]; subst.
  unfold loop_update in H. simpl in H.
  assert (Hp' : <[p:=set_Next (Schedule_Next (Entry_Schedule e) (In t (location c))) e]>
                  (heap c) !! p =
                Some (set_Next (Schedule_Next (Entry_Schedule e) (In t (location c))) e)).
  { apply list_lookup_insert_eq. by eapply lookup_lt_Some. }
  rewrite Hp' in H. injection H as <-. simpl. unfold In.
  split_and!; try done.
  - apply lookup_delete_eq.
  - apply lookup_insert_eq.
Qed.

(** The update of [a] on the sample scheduler is received at 170, [a] is
    removed, the loop stores the update. *)
Lemma X17_witness :
  let received :=
    mkCron (<["a" := 3%nat]> sample_entries)
      (heap sample_fired ++ [mkEntry (every 10) 180 0 "a" (job 9)])
      true (Some (AtUpdateLock 170 3%nat)) None None "UTC" in
  let removed := set_entries (delete "a" (entries received)) received in
  let stored :=
    set_loop (Some (AtRescan 170))
      (set_entries (<["a" := 3%nat]> (entries removed)) removed) in
  reachable sample_locked /\
  mu sample_locked = Some 3%nat /\
  heap sample_locked !! 3%nat = Some (mkEntry (every 10) 0 0 "a" (job 9)) /\
  step sample_locked (SendUpdate 170) received /\
  RemoveJobOrFunc "a" received = Some removed /\
  step removed LoopUpdate stored /\
  entries removed !! "a" = None /\
  entries stored !! "a" = Some 3%nat /\
  heap stored !! 3%nat = Some (mkEntry (every 10) 180 0 "a" (job 9)) /\
  loop stored = Some (AtRescan 170).
Proof.
  intros received removed stored.
  assert (Hreach : reachable sample_locked).
  { eapply reachable_step; [apply sample_second_reachable|].
    apply sample_locked_step. }
  assert (Hsend : step sample_locked (SendUpdate 170) received).
  { apply step_Schedule_update_send. vm_compute. reflexivity. }
  assert (Hrem : RemoveJobOrFunc "a" received = Some removed) by reflexivity.
  assert (Hupd : step removed LoopUpdate stored).
  { apply step_update. vm_compute. reflexivity. }
  split; [exact Hreach|]. split; [reflexivity|]. split; [reflexivity|].
  split; [exact Hsend|]. split; [exact Hrem|]. split; [exact Hupd|].
  apply (X17_Remove_inside_update_is_undone sample_locked received removed
           stored 170 3%nat (mkEntry (every 10) 0 0 "a" (job 9))
           eq_refl eq_refl Hsend Hrem Hupd).
Defined.

(** ** While the loop is blocked *)

(** With the loop anywhere but in its select, a step is either the loop's
    own, or it leaves the loop where it is and every entry in place; and if
    the mutex is free afterwards it was free before, and the registry has
    at most lost names. *)
Lemma blocked_loop_step c ev c' l :
  wf c -> loop c = Some l ->
  (forall now es timer, l <> AtSelect now es timer) ->
  step c ev c' ->
  loop_step_at l ev \/
  (loop c' = Some l /\
   (forall p e, heap c !! p = Some e -> heap c' !! p = Some e) /\
   (mu c' = None -> mu c = None /\ entries c' ⊆ entries c)).
Proof.
  intros Hwf Hl Hsel Hstep.
  assert (Hrun : running c = true).
  { apply (wf_running c Hwf). rewrite Hl. by eexists. }
  destruct Hstep as
    [schedule name cmd update c c' H | t schedule name cmd c c' H
    | schedule name cmd c c' H | t c c' H | name c c' H
    | order out c c' Hperm H | c c' H | c | c | c c' H | l0 c
    | order t c c' Hperm H | es c c' Hperm Hsorted H | t started c c' H
    | c c' H | c c' H | order out c c' Hperm H | stack j logged c H
    | out c c' H].
  - unfold Schedule_idle, alloc in H. by rewrite Hrun in H.
  - unfold Schedule_add, alloc in H. rewrite Hrun, Hl in H. simpl in H.
    destruct l; try done. by destruct (Hsel now es timer).
  - unfold Schedule_update_lock, alloc in H. rewrite Hrun in H. simpl in H.
    destruct (mu c) eqn:Hmu; [done|]. simplify_eq. right. simpl.
    split_and!; try done. intros p e Hp. by apply lookup_app_l_Some.
  - unfold Schedule_update_send in H. rewrite Hl in H.
    destruct (mu c); [|done].
    destruct l; try done. by destruct (Hsel now es timer).
  - unfold RemoveJobOrFunc in H. destruct (mu c) eqn:Hmu; [done|].
    simplify_eq. right. simpl. split_and!; try done.
    intros _. split; [done|]. apply delete_subseteq.
  - unfold Entries_idle_with in H. by rewrite Hrun in H.
  - unfold Entries_send in H. rewrite Hrun, Hl in H. simpl in H.
    destruct l; try done. by destruct (Hsel now es timer).
  - right. unfold Start. rewrite Hrun. by split_and!.
  - right. unfold Cron_Run. rewrite Hrun. by split_and!.
  - unfold Stop in H. rewrite Hrun, Hl in H. simpl in H.
    destruct l; try done. by destruct (Hsel now es timer).
  - right. simpl. by split_and!.
  - left. unfold loop_seed_with in H. rewrite Hl in H. by destruct l.
  - left. unfold loop_rescan_with in H. rewrite Hl in H. by destruct l.
  - unfold loop_fire in H. rewrite Hl in H.
    destruct l; try done. by destruct (Hsel now es timer).
  - left. unfold loop_add in H. rewrite Hl in H. by destruct l.
  - left. unfold loop_update in H. rewrite Hl in H. by destruct l.
  - left. unfold loop_snapshot_with in H. rewrite Hl in H. by destruct l.
  - right. by split_and!.
  - apply Entries_crossed_same in H as (-> & _). right. by split_and!.
Qed.

Lemma blocked_loop_steps c evs c' l :
  wf c -> loop c = Some l ->
  (forall now es timer, l <> AtSelect now es timer) ->
  steps c evs c' -> Forall (fun ev => ~ loop_step_at l ev) evs ->
  wf c' /\ loop c' = Some l /\
  (forall p e, heap c !! p = Some e -> heap c' !! p = Some e) /\
  (mu c' = None -> mu c = None /\ entries c' ⊆ entries c).
Proof.
  intros Hwf Hl Hsel Hs. revert Hwf Hl.
  induction Hs as [|c ev c1 evs c2 Hstep Hs IH]; intros Hwf Hl Hall.
  - by split_and!.
  - apply Forall_cons in Hall as [Hev Hall].
    destruct (blocked_loop_step _ _ _ _ Hwf Hl Hsel Hstep)
      as [?|(Hl1 & Hh1 & Hm1)]; [done|].
    destruct (IH (step_wf _ _ _ Hwf Hstep) Hl1 Hall) as (Hwf2 & Hl2 & Hh2 & Hm2).
    split_and!; try done.
    + intros p e Hp. by apply Hh2, Hh1.
    + intros Hmu2. destruct (Hm2 Hmu2) as [Hmu1 Hsub].
      destruct (Hm1 Hmu1) as [Hmu Hsub1].
      split; [done|]. by etrans.
Qed.

(** ** Entries the scheduler has let go of *)

(** Nothing brings such an entry back: a registration stores the entry it
    has just built, and the loop stores the entry it has received. *)
Lemma step_dropped c ev c' q :
  wf c -> allocated (heap c) q -> dropped c q -> step c ev c' -> dropped c' q.
Proof.
  intros Hwf [eq Hq] (Hreg & Hrec & Hmuq) Hstep.
  assert (Hlt : q <> length (heap c)).
  { apply lookup_lt_Some in Hq. lia. }
  assert (Hins : forall n p, p <> q ->
            forall m, <[n := p]> (entries c) !! m <> Some q).
  { intros n p Hpq m Hm.
    apply lookup_insert_Some in Hm as [[_ ?]|[_ Hm]]; [done|by apply (Hreg m)]. }
  unfold dropped. destruct Hstep as
    [schedule name cmd update c c' H | t schedule name cmd c c' H
    | schedule name cmd c c' H | t c c' H | name c c' H
    | order out c c' Hperm H | c c' H | c | c | c c' H | l0 c
    | order t c c' Hperm H | es c c' Hperm Hsorted H | t started c c' H
    | c c' H | c c' H | order out c c' Hperm H | stack j logged c H
    | out c c' H].
  - unfold Schedule_idle, alloc in H.
    destruct (running c) eqn:Hrun; [done|]. destruct (mu c) eqn:Hmu; [done|].
    simplify_eq. destruct (entries c !! name) eqn:Hn; norm_fields;
      split_and!; try done.
    by apply Hins.
  - unfold Schedule_add, alloc in H.
    destruct (running c) eqn:Hrun; [|done]. simpl in H.
    destruct (loop c) as [[]|] eqn:Hl; try done. simplify_eq. norm_fields.
    split_and!; try done. by intros ->%list_elem_of_singleton.
  - unfold Schedule_update_lock, alloc in H.
    destruct (running c) eqn:Hrun; [|done]. simpl in H.
    destruct (mu c) eqn:Hmu; [done|]. simplify_eq. norm_fields.
    split_and!; try done; [by apply Hins|congruence].
  - unfold Schedule_update_send in H.
    destruct (mu c) as [p0|] eqn:Hmu; [|done].
    destruct (loop c) as [[]|] eqn:Hl; try done.
    destruct (heap c !! p0) as [e|] eqn:Hp0; [|done]. simplify_eq. norm_fields.
    split_and!; try done. intros ->%list_elem_of_singleton. by apply Hmuq.
  - unfold RemoveJobOrFunc in H. destruct (mu c) eqn:Hmu; [done|].
    simplify_eq. norm_fields. split_and!; try done.
    intros n Hn. apply lookup_delete_Some in Hn as [_ Hn]. by apply (Hreg n).
  - unfold Entries_idle_with, entrySnapshot_with in H.
    destruct (running c) eqn:Hrun; [done|]. destruct (mu c) eqn:Hmu; [done|].
    destruct (snapshot_loop order (heap c) []). simplify_eq. by norm_fields.
  - unfold Entries_send in H.
    destruct (running c) eqn:Hrun; [|done]. simpl in H.
    destruct (loop c) as [[]|] eqn:Hl; try done. simplify_eq. norm_fields.
    split_and!; try done; apply not_elem_of_nil.
  - unfold Start. destruct (running c) eqn:Hrun; [done|]. norm_fields.
    split_and!; try done; apply not_elem_of_nil.
  - unfold Cron_Run. destruct (running c) eqn:Hrun; [done|]. norm_fields.
    split_and!; try done; apply not_elem_of_nil.
  - unfold Stop in H. destruct (running c); simpl in H; [|by simplify_eq].
    destruct (loop c) as [[]|] eqn:Hl; try done. simplify_eq. norm_fields.
    split_and!; try done; apply not_elem_of_nil.
  - done.
  - unfold loop_seed_with in H.
    destruct (loop c) as [[]|] eqn:Hl; try done.
    destruct (mu c) eqn:Hmu; [done|]. simplify_eq. norm_fields.
    split_and!; try done; apply not_elem_of_nil.
  - unfold loop_rescan_with in H.
    destruct (loop c) as [[]|] eqn:Hl; try done.
    destruct (mu c) eqn:Hmu; [done|]. simplify_eq. norm_fields.
    split_and!; try done; apply not_elem_of_nil.
  - unfold loop_fire in H.
    destruct (loop c) as [[]|] eqn:Hl; try done.
    destruct (fire_scan (In t (location c)) es (heap c)). simplify_eq. norm_fields.
    split_and!; try done; apply not_elem_of_nil.
  - unfold loop_add in H.
    destruct (loop c) as [[]|] eqn:Hl; try done.
    destruct (mu c) eqn:Hmu; [done|].
    destruct (heap c !! newEntry) as [e|] eqn:Hp0; [|done]. simplify_eq.
    assert (Hne : newEntry <> q).
    { intros ->. apply Hrec. simpl. by apply list_elem_of_singleton. }
    destruct (entries c !! Name e) eqn:Hn; norm_fields;
      (split_and!; [|apply not_elem_of_nil|done]); [done|by apply Hins].
  - unfold loop_update in H.
    destruct (loop c) as [[]|] eqn:Hl; try done.
    destruct (mu c) eqn:Hmu; [done|].
    destruct (heap c !! newEntry) as [e|] eqn:Hp0; [|done]. simplify_eq.
    assert (Hne : newEntry <> q).
    { intros ->. apply Hrec. simpl. by apply list_elem_of_singleton. }
    norm_fields. split_and!; [by apply Hins|apply not_elem_of_nil|done].
  - unfold loop_snapshot_with, entrySnapshot_with in H.
    destruct (loop c) as [[]|] eqn:Hl; try done.
    destruct (mu c) eqn:Hmu; [done|].
    destruct (snapshot_loop order (heap c) []). simplify_eq. norm_fields.
    split_and!; try done; apply not_elem_of_nil.
  - done.
  - by apply Entries_crossed_same in H as (-> & _).
Qed.

Lemma steps_dropped c evs c' q :
  wf c -> allocated (heap c) q -> dropped c q -> steps c evs c' ->
  wf c' /\ allocated (heap c') q /\ dropped c' q.
Proof.
  intros Hwf Ha Hd Hs. revert Hwf Ha Hd.
  induction Hs as [|c ev c1 evs c2 Hstep Hs IH]; intros Hwf Ha Hd; [done|].
  apply IH.
  - by eapply step_wf.
  - eapply heap_le_allocated; [by eapply step_heap_le|done].
  - by eapply step_dropped.
Qed.

(** An allocated entry the scheduler does not hold is never held again, and
    never written. *)
Lemma steps_not_held c evs c' q :
  wf c -> allocated (heap c) q -> ~ held c q -> steps c evs c' ->
  ~ held c' q /\ heap c' !! q = heap c !! q.
Proof.
  intros Hwf Ha Hnh Hs. split; [|by eapply steps_heap_frame].
  revert Hwf Ha Hnh.
  induction Hs as [|c ev c1 evs c2 Hstep Hs IH]; intros Hwf Ha Hnh; [done|].
  apply IH.
  - by eapply step_wf.
  - eapply heap_le_allocated; [by eapply step_heap_le|done].
  - intros Hh. destruct (step_held _ _ _ _ Hwf Hstep Hh) as [?|Hge]; [done|].
    destruct Ha as [e He]. apply lookup_lt_Some in He. lia.
Qed.

(** A timer case starts nothing outside the slice the loop waits with. *)
Lemma fire_not_in_slice c t started c' q :
  step c (LoopFire t started) c' ->
  q ∉ slice_of (loop c) -> q ∉ started.*1.
Proof.
  intros Hfire Hnot.
  inversion Hfire as
    [| | | | | | | | | | | | |t0 started0 c0 c0' H| | | | |]; subst.
  unfold loop_fire in H.
  destruct (loop c) as [[]|] eqn:Hl; try done.
  pose proof (fire_started_in_slice (In t (location c)) es (heap c) q) as Hsub.
  destruct (fire_scan (In t (location c)) es (heap c)) as [h ds].
  simplify_eq. simpl in *. tauto.
Qed.

(** ** Removal and the following cycles *)

(** X11: a removal takes effect when the loop next sorts, whatever happens
    before and after.  Take an entry bound to a name, other than an update
    the loop has received and not stored yet.  From [RemoveJobOrFunc] of
    that name on, no name is bound to the entry again; it may still be in
    the slice the loop waits with, and be started from there, until the
    loop's next sort; from that sort on it is in no slice of the loop, no
    timer case starts it, and nothing writes to it. *)
Theorem X11_Remove_effective_after_rescan (c c1 c2 c3 c4 : Cron)
    (name : string) (q : loc) (evs1 evs2 : list event) :
  reachable c ->
  entries c !! name = Some q ->
  q ∉ received_of (loop c) ->
  step c (CallRemove name) c1 ->
  steps c1 evs1 c2 ->
  step c2 LoopRescan c3 ->
  steps c3 evs2 c4 ->
  (forall n, entries c2 !! n <> Some q) /\
  (forall n, entries c4 !! n <> Some q) /\
  (q ∉ slice_of (loop c3)) /\ (q ∉ slice_of (loop c4)) /\
  heap c4 !! q = heap c3 !! q /\
  (forall t started c5, step c4 (LoopFire t started) c5 -> q ∉ started.*1).
Proof.
  intros Hreach Hq Hrec Hrem Hs1 Hres Hs2. apply reachable_wf in Hreach as Hwf.
  pose proof (step_wf _ _ _ Hwf Hrem) as Hwf1.
  assert (Ha : allocated (heap c) q).
  { destruct (wf_entries c Hwf _ _ Hq) as (e & He & _). by exists e. }
  assert (Hd1 : allocated (heap c1) q /\ dropped c1 q).
  { inversion Hrem as [| | | |name0 c0 c0' H| | | | | | | | | | | | | |]; subst.
    unfold RemoveJobOrFunc in H. destruct (mu c) eqn:Hmu; [done|].
    simplify_eq. split; [done|]. unfold dropped. norm_fields.
    split_and!; try done.
    intros n Hn. apply lookup_delete_Some in Hn as [Hne Hn]. apply Hne.
    by eapply (entries_ok_inj _ _ _ _ q (wf_entries c Hwf)). }
  destruct Hd1 as [Ha1 Hd1].
  destruct (steps_dropped _ _ _ _ Hwf1 Ha1 Hd1 Hs1) as (Hwf2 & Ha2 & Hd2).
  pose proof (step_wf _ _ _ Hwf2 Hres) as Hwf3.
  destruct (rescan_inv _ _ Hres) as (now & es & Hl2 & Hmu2 & Hperm & _ & ->).
  destruct Hd2 as (Hreg2 & Hrec2 & Hmuq2).
  assert (Hes : q ∉ es).
  { rewrite Hperm. intros [n Hn]%elem_of_mapToSlice. by apply (Hreg2 n). }
  set (c3 := set_loop _ c2) in *.
  assert (Hnh3 : ~ held c3 q).
  { unfold held, c3. simpl. rewrite Hmu2.
    intros [[n Hn]|[?|[Hin|?]]]; try done.
    - by apply (Hreg2 n).
    - by apply elem_of_nil in Hin. }
  destruct (steps_not_held c3 evs2 c4 q Hwf3 Ha2 Hnh3 Hs2) as [Hnh4 Hh4].
  split_and!; try done.
  - intros n Hn. apply Hnh4. left. by exists n.
  - intros Hin. apply Hnh4. right. by left.
  - intros t started c5 Hfire. eapply fire_not_in_slice; [done|].
    intros Hin. apply Hnh4. right. by left.
Qed.

(** [c] is removed from the sample scheduler while the loop waits for it in
    its select.  The stale wake at 130 still starts [c]; the loop then sorts
    again, and the wake at 160 starts [a] only. *)
Lemma X11_witness :
  let stale :=
    mkCron (delete "c" sample_entries)
      [ mkEntry (every 60) 160 0 "a" (job 1);
        mkEntry never 0 0 "b" (job 2);
        mkEntry (every 30) 160 130 "c" (job 3) ]
      true (Some (AtRescan 130)) None None "UTC" in
  let sorted := set_loop (Some (AtSelect 130 [0; 1]%nat 30)) stale in
  reachable sample_select /\
  entries sample_select !! "c" = Some 2%nat /\
  (2%nat ∉ received_of (loop sample_select)) /\
  step sample_select (CallRemove "c") sample_removed /\
  steps sample_removed [LoopFire 130 [(2%nat, job 3)]] stale /\
  step stale LoopRescan sorted /\
  steps sorted [CallStart] sorted /\
  (exists c5, step sorted (LoopFire 160 [(0%nat, job 1)]) c5) /\
  (forall n, entries stale !! n <> Some 2%nat) /\
  (forall n, entries sorted !! n <> Some 2%nat) /\
  (2%nat ∉ slice_of (loop sorted)) /\ (2%nat ∉ slice_of (loop sorted)) /\
  heap sorted !! 2%nat = heap sorted !! 2%nat /\
  (forall t started c5,
      step sorted (LoopFire t started) c5 -> 2%nat ∉ started.*1).
Proof.
  intros stale sorted.
  assert (Hq : entries sample_select !! "c" = Some 2%nat) by (by vm_compute).
  assert (Hrec : 2%nat ∉ received_of (loop sample_select))
    by apply not_elem_of_nil.
  assert (Hrem : step sample_select (CallRemove "c") sample_removed).
  { apply step_Remove. reflexivity. }
  assert (Hs1 : steps sample_removed [LoopFire 130 [(2%nat, job 3)]] stale).
  { eapply steps_cons; [apply step_fire; vm_compute; reflexivity|].
    apply steps_nil. }
  assert (Hres : step stale LoopRescan sorted).
  { apply loop_rescan_step. vm_compute. reflexivity. }
  assert (Hs2 : steps sorted [CallStart] sorted).
  { eapply steps_cons; [apply step_Start|]. apply steps_nil. }
  split; [apply sample_select_reachable|]. split; [exact Hq|].
  split; [exact Hrec|]. split; [exact Hrem|]. split; [exact Hs1|].
  split; [exact Hres|]. split; [exact Hs2|].
  split; [eexists; apply step_fire; vm_compute; reflexivity|].
  apply (X11_Remove_effective_after_rescan sample_select sample_removed stale
           sorted sorted "c" 2%nat _ _
           sample_select_reachable Hq Hrec Hrem Hs1 Hres Hs2).
Defined.

(** ** An addition through the loop *)

Lemma send_add_inv c t schedule name cmd c' :
  step c (SendAdd t schedule name cmd) c' ->
  running c = true /\
  (exists now es timer, loop c = Some (AtSelect now es timer)) /\
  c' = set_loop (Some (AtAddLock t (length (heap c))))
         (set_heap
            (heap c ++
             [mkEntry schedule (Schedule_Next schedule t) zeroTime name cmd]) c).
Proof.
  intros Hstep. inversion Hstep as
    [|t0 schedule0 name0 cmd0 c0 c0' H| | | | | | | | | | | | | | | | |]; subst.
  unfold Schedule_add, alloc in H.
  destruct (running c) eqn:Hrun; [|done]. simpl in H.
  destruct (loop c) as [[]|] eqn:Hl; try done.
  rewrite insert_alloc in H. unfold In in H. simplify_eq.
  split; [done|]. split; [by eexists _, _, _|done].
Qed.

Lemma loop_add_inv c c' :
  step c LoopAdd c' ->
  exists now p e,
    loop c = Some (AtAddLock now p) /\ mu c = None /\ heap c !! p = Some e /\
    c' = set_loop (Some (AtRescan now))
           (match entries c !! Name e with
            | Some _ => c
            | None => set_entries (<[Name e := p]> (entries c)) c
            end).
Proof.
  intros Hstep. inversion Hstep as
    [| | | | | | | | | | | | | |c0 c0' H| | | |]; subst.
  unfold loop_add in H.
  destruct (loop c) as [[]|] eqn:Hl; try done.
  destruct (mu c) eqn:Hmu; [done|].
  destruct (heap c !! newEntry) as [e|] eqn:Hp; [|done]. simplify_eq.
  by eexists _, _, _.
Qed.

(** The loop's sort puts every registered entry in the slice, and arms a
    timer that runs out no later than the entry is due. *)
Lemma rescan_registered c c' name p e :
  wf c -> step c LoopRescan c' ->
  entries c !! name = Some p -> heap c !! p = Some e ->
  exists now es timer,
    loop c = Some (AtRescan now) /\ loop c' = Some (AtSelect now es timer) /\
    entries c' = entries c /\ heap c' = heap c /\
    es ≡ₚ mapToSlice (entries c) /\ p ∈ es /\
    (Next e <> 0 -> timer <= Sub (Next e) now).
Proof.
  intros Hwf Hres Hn Hp.
  destruct (rescan_inv _ _ Hres) as (now & es & Hl & Hmu & Hperm & Hsorted & ->).
  assert (Hin : p ∈ es).
  { rewrite Hperm. apply elem_of_mapToSlice. by exists name. }
  eexists now, es, _. simpl. split_and!; try done.
  intros Hnz.
  destruct (arm_timer_le now (heap c) es p e Hsorted
              (mapToSlice_allocated _ _ (wf_entries c Hwf) es Hperm)
              Hin Hp Hnz)
    as (p0 & e0 & _ & _ & _ & -> & Hle).
  by apply Sub_mono.
Qed.

(** X9: an addition of a name that is not registered, on a running
    scheduler, followed through every run.  When the loop receives the entry
    ([AddJob] returns then) it gives it the [Next] its schedule computes from
    the time of receipt, with a zero [Prev]; the name is not registered yet.
    Whatever is called before the loop takes the lock to store the entry,
    the name is still unbound when it does (the registry can only have lost
    names), so the loop stores the entry under it.  If the name is still
    bound to the entry when the loop next sorts, the entry is in the slice
    the loop then waits with, and the timer runs out no later than the entry
    is due. *)
Theorem X9_Add_running_scheduled (c c1 c2 c3 : Cron) (t : Time)
    (schedule : Schedule) (name : string) (cmd : Job) (evs : list event) :
  reachable c ->
  entries c !! name = None ->
  step c (SendAdd t schedule name cmd) c1 ->
  steps c1 evs c2 -> Forall (fun ev => ev <> LoopAdd) evs ->
  step c2 LoopAdd c3 ->
  entries c1 = entries c /\
  loop c2 = Some (AtAddLock t (length (heap c))) /\
  entries c2 !! name = None /\
  entries c3 = <[name := length (heap c)]> (entries c2) /\
  heap c3 !! length (heap c) =
    Some (mkEntry schedule (Schedule_Next schedule t) zeroTime name cmd) /\
  loop c3 = Some (AtRescan t) /\
  (forall evs' c4 c5,
      steps c3 evs' c4 -> Forall (fun ev => ev <> LoopRescan) evs' ->
      step c4 LoopRescan c5 ->
      entries c4 !! name = Some (length (heap c)) ->
      exists es timer,
        loop c5 = Some (AtSelect t es timer) /\ length (heap c) ∈ es /\
        heap c5 !! length (heap c) =
          Some (mkEntry schedule (Schedule_Next schedule t) zeroTime name cmd) /\
        (Schedule_Next schedule t <> 0 ->
         timer <= Sub (Schedule_Next schedule t) t)).
Proof.
  intros Hreach Hnone Hsend Hs Hall Hadd. apply reachable_wf in Hreach as Hwf.
  pose proof (step_wf _ _ _ Hwf Hsend) as Hwf1.
  destruct (send_add_inv _ _ _ _ _ _ Hsend) as (Hrun & _ & Hc1).
  set (p := length (heap c)) in *.
  set (e := mkEntry schedule (Schedule_Next schedule t) zeroTime name cmd) in *.
  assert (Hl1 : loop c1 = Some (AtAddLock t p)) by (by rewrite Hc1).
  assert (He1 : entries c1 = entries c) by (by rewrite Hc1).
  assert (Hp1 : heap c1 !! p = Some e) by (rewrite Hc1; apply lookup_alloc).
  destruct (blocked_loop_steps c1 evs c2 (AtAddLock t p) Hwf1 Hl1
              ltac:(done) Hs) as (Hwf2 & Hl2 & Hh2 & Hm2).
  { eapply Forall_impl; [exact Hall|]. intros ev Hne Hls. by destruct ev. }
  pose proof (step_wf _ _ _ Hwf2 Hadd) as Hwf3.
  destruct (loop_add_inv _ _ Hadd) as (now & p' & e' & Hl2' & Hmu2 & Hp2 & Hc3).
  rewrite Hl2 in Hl2'. injection Hl2' as <- <-.
  rewrite (Hh2 p e Hp1) in Hp2. injection Hp2 as <-.
  destruct (Hm2 Hmu2) as [_ Hsub]. rewrite He1 in Hsub.
  assert (Hnone2 : entries c2 !! name = None)
    by (by eapply lookup_weaken_None).
  simpl in Hc3. rewrite Hnone2 in Hc3.
  assert (Hl3 : loop c3 = Some (AtRescan t)) by (by rewrite Hc3).
  assert (He3 : entries c3 = <[name := p]> (entries c2)) by (by rewrite Hc3).
  assert (Hp3 : heap c3 !! p = Some e) by (rewrite Hc3; by apply Hh2).
  split_and!; try done.
  intros evs' c4 c5 Hs' Hall' Hres Hn4.
  destruct (blocked_loop_steps c3 evs' c4 (AtRescan t) Hwf3 Hl3
              ltac:(done) Hs') as (Hwf4 & Hl4 & Hh4 & _).
  { eapply Forall_impl; [exact Hall'|]. intros ev Hne Hls. by destruct ev. }
  destruct (rescan_registered c4 c5 name p e Hwf4 Hres Hn4 (Hh4 p e Hp3))
    as (now & es & timer & Hl4' & Hl5 & _ & Hh5 & _ & Hin & Hle).
  rewrite Hl4 in Hl4'. injection Hl4' as <-.
  exists es, timer. rewrite Hh5. split_and!; try done. by apply Hh4.
Qed.

(** [d], due every 10, is sent to the waiting sample scheduler at 110; [c]
    is removed before the loop stores [d]; the loop then sorts [d], [a] and
    [b] and waits for [d] at 120. *)
Lemma X9_witness :
  let d := mkEntry (every 10) 120 0 "d" (job 4) in
  let received :=
    mkCron sample_entries (sample_heap ++ [d]) true
      (Some (AtAddLock 110 3%nat)) None None "UTC" in
  let window := set_entries (delete "c" sample_entries) received in
  let stored :=
    set_loop (Some (AtRescan 110))
      (set_entries (<["d" := 3%nat]> (entries window)) window) in
  let sorted := set_loop (Some (AtSelect 110 [3; 0; 1]%nat 10)) stored in
  reachable sample_select /\
  entries sample_select !! "d" = None /\
  step sample_select (SendAdd 110 (every 10) "d" (job 4)) received /\
  steps received [CallRemove "c"] window /\
  Forall (fun ev => ev <> LoopAdd) [CallRemove "c"] /\
  step window LoopAdd stored /\
  (steps stored [] stored /\ step stored LoopRescan sorted) /\
  entries received = entries sample_select /\
  loop window = Some (AtAddLock 110 (length (heap sample_select))) /\
  entries window !! "d" = None /\
  entries stored = <["d" := length (heap sample_select)]> (entries window) /\
  heap stored !! length (heap sample_select) = Some d /\
  loop stored = Some (AtRescan 110) /\
  (forall evs' c4 c5,
      steps stored evs' c4 -> Forall (fun ev => ev <> LoopRescan) evs' ->
      step c4 LoopRescan c5 ->
      entries c4 !! "d" = Some (length (heap sample_select)) ->
      exists es timer,
        loop c5 = Some (AtSelect 110 es timer) /\
        length (heap sample_select) ∈ es /\
        heap c5 !! length (heap sample_select) = Some d /\
        (Schedule_Next (every 10) 110 <> 0 ->
         timer <= Sub (Schedule_Next (every 10) 110) 110)).
Proof.
  intros d received window stored sorted.
  assert (Hnone : entries sample_select !! "d" = None) by (by vm_compute).
  assert (Hsend : step sample_select (SendAdd 110 (every 10) "d" (job 4)) received).
  { apply step_Schedule_add. vm_compute. reflexivity. }
  assert (Hs : steps received [CallRemove "c"] window).
  { eapply steps_cons; [apply step_Remove; reflexivity|]. apply steps_nil. }
  assert (Hall : Forall (fun ev => ev <> LoopAdd) [CallRemove "c"]).
  { by repeat constructor. }
  assert (Hadd : step window LoopAdd stored).
  { apply step_add. vm_compute. reflexivity. }
  split; [apply sample_select_reachable|]. split; [exact Hnone|].
  split; [exact Hsend|]. split; [exact Hs|]. split; [exact Hall|].
  split; [exact Hadd|].
  split.
  { split; [apply steps_nil|]. apply loop_rescan_step. vm_compute. reflexivity. }
  apply (X9_Add_running_scheduled sample_select received window stored 110
           (every 10) "d" (job 4) [CallRemove "c"]
           sample_select_reachable Hnone Hsend Hs Hall Hadd).
Defined.

(** X4: on a running scheduler, whether a removal undoes an addition
    depends on when it gets the lock.  [AddJob] returns as soon as the loop
    has received the entry, before the loop stores it.  A
    [RemoveJobOrFunc] of the name that comes after the loop's store gives
    back the registry as it was before the addition; one that comes between
    the receipt and the store finds nothing to delete, and the loop then
    stores the entry: the name stays registered. *)
Theorem X4_Add_then_Remove (c c1 c2 c3 c2' c3' : Cron) (t : Time)
    (schedule : Schedule) (name : string) (cmd : Job) :
  entries c !! name = None ->
  step c (SendAdd t schedule name cmd) c1 ->
  step c1 LoopAdd c2 -> step c2 (CallRemove name) c3 ->
  step c1 (CallRemove name) c2' -> step c2' LoopAdd c3' ->
  entries c2 = <[name := length (heap c)]> (entries c) /\
  entries c3 = entries c /\
  entries c2' = entries c /\
  entries c3' = <[name := length (heap c)]> (entries c) /\
  heap c3' !! length (heap c) =
    Some (mkEntry schedule (Schedule_Next schedule t) zeroTime name cmd).
Proof.
  intros Hnone Hsend Hadd Hrem Hrem' Hadd'.
  destruct (send_add_inv _ _ _ _ _ _ Hsend) as (Hrun & _ & ->).
  set (e := mkEntry schedule (Schedule_Next schedule t) zeroTime name cmd) in *.
  assert (Hc2 : entries c2 = <[name := length (heap c)]> (entries c)).
  { destruct (loop_add_inv _ _ Hadd) as (now & p & e' & Hl & Hmu & Hp & ->).
    simpl in *. injection Hl as <- <-.
    rewrite lookup_alloc in Hp. injection Hp as <-. simpl.
    by rewrite Hnone. }
  assert (Hc3 : entries c3 = entries c).
  { inversion Hrem as [| | | |name0 c0 c0' H| | | | | | | | | | | | | |]; subst.
    unfold RemoveJobOrFunc in H. destruct (mu c2); [done|]. simplify_eq.
    simpl. rewrite Hc2, delete_insert_eq. by apply delete_id. }
  assert (Hc2' : c2' = set_loop (Some (AtAddLock t (length (heap c))))
                         (set_heap (heap c ++ [e]) c)).
  { inversion Hrem' as [| | | |name0 c0 c0' H| | | | | | | | | | | | | |]; subst.
    unfold RemoveJobOrFunc in H. simpl in H. destruct (mu c); [done|].
    simplify_eq. unfold set_entries. simpl. by rewrite delete_id. }
  subst c2'.
  destruct (loop_add_inv _ _ Hadd') as (now & p & e' & Hl & Hmu & Hp & ->).
  simpl in *. injection Hl as <- <-.
  rewrite lookup_alloc in Hp. injection Hp as <-. simpl.
  rewrite Hnone. simpl. split_and!; try done. apply lookup_alloc.
Qed.

(** [d] is sent to the waiting sample scheduler at 110 and removed, once
    after and once before the loop stores it. *)
Lemma X4_witness :
  let d := mkEntry (every 10) 120 0 "d" (job 4) in
  let received :=
    mkCron sample_entries (sample_heap ++ [d]) true
      (Some (AtAddLock 110 3%nat)) None None "UTC" in
  let stored :=
    set_loop (Some (AtRescan 110))
      (set_entries (<["d" := 3%nat]> sample_entries) received) in
  let removed := set_entries sample_entries stored in
  reachable sample_select /\
  entries sample_select !! "d" = None /\
  step sample_select (SendAdd 110 (every 10) "d" (job 4)) received /\
  step received LoopAdd stored /\ step stored (CallRemove "d") removed /\
  step received (CallRemove "d") received /\ step received LoopAdd stored /\
  entries stored = <["d" := length (heap sample_select)]> (entries sample_select) /\
  entries removed = entries sample_select /\
  entries received = entries sample_select /\
  entries stored = <["d" := length (heap sample_select)]> (entries sample_select) /\
  heap stored !! length (heap sample_select) = Some d.
Proof.
  intros d received stored removed.
  assert (Hnone : entries sample_select !! "d" = None) by (by vm_compute).
  assert (Hsend : step sample_select (SendAdd 110 (every 10) "d" (job 4)) received).
  { apply step_Schedule_add. vm_compute. reflexivity. }
  assert (Hadd : step received LoopAdd stored).
  { apply step_add. vm_compute. reflexivity. }
  assert (Hrem : step stored (CallRemove "d") removed).
  { apply step_Remove. vm_compute. reflexivity. }
  assert (Hrem' : step received (CallRemove "d") received).
  { apply step_Remove. vm_compute. reflexivity. }
  split; [apply sample_select_reachable|]. split; [exact Hnone|].
  split; [exact Hsend|]. split; [exact Hadd|]. split; [exact Hrem|].
  split; [exact Hrem'|]. split; [exact Hadd|].
  apply (X4_Add_then_Remove sample_select received stored removed received
           stored 110 (every 10) "d" (job 4)
           Hnone Hsend Hadd Hrem Hrem' Hadd).
Defined.

(** ** An update through the loop *)







(** ** A snapshot through the loop *)

(** X12: a request of [Entries] on a running scheduler, followed through
    every run up to the loop's reply.  The loop receives the request in its
    select and keeps its slice and its timer; whatever is called before it
    replies (removals, further calls of [Entries], ...) it is still there,
    and after its reply it is back in the select with the same slice and the
    same timer: the cycle is not started again.  The reply is made when the
    loop gets the lock, so it is a copy of the registry as it is then, not
    as it was when the request was made: one newly allocated entry per
    name bound at that moment, each with the schedule, [Next], [Prev] and job
    of the registered entry and an empty [Name]; registry and existing
    entries are left as they are. *)
Theorem X12_Entries_running_keeps_cycle (c c1 c2 c3 : Cron)
    (evs : list event) (out : list loc) :
  reachable c ->
  step c SendSnapshot c1 ->
  steps c1 evs c2 -> Forall (fun ev => forall o, ev <> LoopSnapshot o) evs ->
  step c2 (LoopSnapshot out) c3 ->
  exists now es timer,
    loop c = Some (AtSelect now es timer) /\
    loop c2 = Some (AtSnapshot now es timer) /\
    loop c3 = Some (AtSelect now es timer) /\
    entries c3 = entries c2 /\
    (forall p, allocated (heap c2) p -> heap c3 !! p = heap c2 !! p) /\
    length out = size (entries c2) /\
    (forall q, q ∈ out -> ~ allocated (heap c2) q) /\
    exists order,
      order ≡ₚ mapToSlice (entries c2) /\
      Forall2 (fun q p => exists e,
                 heap c2 !! p = Some e /\
                 heap c3 !! q =
                   Some (mkEntry (Entry_Schedule e) (Next e) (Prev e)
                           EmptyString (Entry_Job e)))
              out order.
Proof.
  intros Hreach Hsend Hs Hall Hsnap. apply reachable_wf in Hreach as Hwf.
  pose proof (step_wf _ _ _ Hwf Hsend) as Hwf1.
  inversion Hsend as [| | | | | |c0 c0' H| | | | | | | | | | | |]; subst.
  unfold Entries_send in H.
  destruct (running c) eqn:Hrun; [|done]. simpl in H.
  destruct (loop c) as [[| |now es timer| | |]|] eqn:Hl; try done.
  injection H as <-.
  destruct (blocked_loop_steps _ evs c2 (AtSnapshot now es timer) Hwf1 eq_refl
              ltac:(done) Hs) as (Hwf2 & Hl2 & _).
  { eapply Forall_impl; [exact Hall|]. intros ev Hne Hls.
    destruct ev; try done. by apply (Hne out0). }
  inversion Hsnap as
    [| | | | | | | | | | | | | | | |order out0 c' c1' Hperm H| |]; subst.
  unfold loop_snapshot_with in H. rewrite Hl2 in H.
  destruct (mu c2) eqn:Hmu2; [done|].
  destruct (entrySnapshot_with order c2) as [c0 out0] eqn:Hsn.
  injection H as <- <-.
  destruct (entrySnapshot_with_spec _ _ _ _ Hwf2 Hperm Hsn) as (-> & -> & Hall2).
  exists now, es, timer. simpl in *. split_and!; try done.
  - intros p [e Hp]. apply lookup_app_l. by eapply lookup_lt_Some.
  - rewrite length_seq, Hperm. unfold mapToSlice.
    by rewrite length_fmap, length_map_to_list.
  - intros q [Hge _]%elem_of_seq [e He]. apply lookup_lt_Some in He. lia.
  - by exists order.
Qed.

(** A request on the sample scheduler; before the loop replies, a second
    caller's request crosses it and [b] is removed.  The reply holds copies
    of [c] and [a] only, and the loop waits on for [c] at 130. *)
Lemma X12_witness :
  let window := set_entries (delete "b" sample_entries) sample_waiting in
  let replied :=
    mkCron (delete "b" sample_entries)
      (sample_heap ++
       [ mkEntry (every 30) 130 0 "" (job 3);
         mkEntry (every 60) 160 0 "" (job 1) ])
      true (Some (AtSelect 100 [2; 0; 1]%nat 30)) None None "UTC" in
  reachable sample_select /\
  step sample_select SendSnapshot sample_waiting /\
  steps sample_waiting [CrossedSnapshot []; CallRemove "b"] window /\
  Forall (fun ev => forall o, ev <> LoopSnapshot o)
    [CrossedSnapshot []; CallRemove "b"] /\
  step window (LoopSnapshot [3; 4]%nat) replied /\
  exists now es timer,
    loop sample_select = Some (AtSelect now es timer) /\
    loop window = Some (AtSnapshot now es timer) /\
    loop replied = Some (AtSelect now es timer) /\
    entries replied = entries window /\
    (forall p, allocated (heap window) p -> heap replied !! p = heap window !! p) /\
    length [3; 4]%nat = size (entries window) /\
    (forall q, q ∈ [3; 4]%nat -> ~ allocated (heap window) q) /\
    exists order,
      order ≡ₚ mapToSlice (entries window) /\
      Forall2 (fun q p => exists e,
                 heap window !! p = Some e /\
                 heap replied !! q =
                   Some (mkEntry (Entry_Schedule e) (Next e) (Prev e)
                           EmptyString (Entry_Job e)))
              [3; 4]%nat order.
Proof.
  intros window replied.
  assert (Hsend : step sample_select SendSnapshot sample_waiting).
  { apply step_Entries_send. reflexivity. }
  assert (Hs : steps sample_waiting [CrossedSnapshot []; CallRemove "b"] window).
  { eapply steps_cons; [apply step_Entries_crossed; reflexivity|].
    eapply steps_cons; [apply step_Remove; reflexivity|]. apply steps_nil. }
  assert (Hall : Forall (fun ev => forall o, ev <> LoopSnapshot o)
                   [CrossedSnapshot []; CallRemove "b"]).
  { by repeat constructor. }
  assert (Hsnap : step window (LoopSnapshot [3; 4]%nat) replied).
  { eapply (step_snapshot (mapToSlice (entries window))); [done|].
    vm_compute. reflexivity. }
  split; [apply sample_select_reachable|]. split; [exact Hsend|].
  split; [exact Hs|]. split; [exact Hall|]. split; [exact Hsnap|].
  apply (X12_Entries_running_keeps_cycle sample_select sample_waiting window
           replied _ _ sample_select_reachable Hsend Hs Hall Hsnap).
Defined.

(** X18: what [entrySnapshot] builds, be it returned by [Entries] on a
    scheduler that is not running or sent by the loop as its reply to a
    request, is independent of the scheduler.  It consists of newly
    allocated entries, one per registered entry, each with the schedule,
    [Next], [Prev] and job of that entry and an empty [Name]; building it
    changes neither the registry nor any existing entry; and whatever the
    scheduler does afterwards (timer cases, additions, updates, removals,
    restarts, further snapshots) leaves every one of these entries exactly
    as it was built. *)
Theorem X18_snapshot_independent (c c1 c2 : Cron) (out : list loc)
    (evs : list event) :
  reachable c ->
  step c (CallEntries out) c1 \/ step c (LoopSnapshot out) c1 ->
  steps c1 evs c2 ->
  (exists order,
      order ≡ₚ mapToSlice (entries c) /\
      Forall2 (fun q p => exists e,
                 heap c !! p = Some e /\
                 heap c1 !! q =
                   Some (mkEntry (Entry_Schedule e) (Next e) (Prev e)
                           EmptyString (Entry_Job e)))
              out order) /\
  entries c1 = entries c /\
  (forall p, allocated (heap c) p -> heap c1 !! p = heap c !! p) /\
  (forall q, q ∈ out -> ~ allocated (heap c) q /\ heap c2 !! q = heap c1 !! q).
Proof.
  intros Hreach Hsnap Hsteps. apply reachable_wf in Hreach as Hwf.
  assert (exists order c0,
             order ≡ₚ mapToSlice (entries c) /\
             entrySnapshot_with order c = (c0, out) /\
             entries c1 = entries c0 /\ heap c1 = heap c0 /\
             (forall p, held c1 p -> held c p))
    as (order & c0 & Hperm & Hsn & He1 & Hh1 & Hheld).
  { destruct Hsnap as [Hstep|Hstep].
    - inversion Hstep as
        [| | | | |order out0 c' c1' Hperm H| | | | | | | | | | | | |]; subst.
      unfold Entries_idle_with in H.
      destruct (running c); [done|]. destruct (mu c); [done|].
      injection H as H.
      exists order, c1. split_and!; try done.
      unfold entrySnapshot_with in H.
      destruct (snapshot_loop order (heap c) []). simplify_eq.
      unfold held. simpl. tauto.
    - inversion Hstep as
        [| | | | | | | | | | | | | | | |order out0 c' c1' Hperm H| |]; subst.
      unfold loop_snapshot_with in H.
      destruct (loop c) as [[]|] eqn:Hl; try done.
      destruct (mu c) eqn:Hmu; [done|].
      destruct (entrySnapshot_with order c) as [c0 out0] eqn:Hsn.
      simplify_eq. exists order, c0. split_and!; try done.
      unfold entrySnapshot_with in Hsn.
      destruct (snapshot_loop order (heap c) []). simplify_eq.
      unfold held. norm_fields. tauto. }
  destruct (entrySnapshot_with_spec _ _ _ _ Hwf Hperm Hsn) as (-> & -> & Hall).
  simpl in *. split_and!.
  - exists order. split; [done|]. by rewrite Hh1.
  - done.
  - intros p [e Hp]. rewrite Hh1. apply lookup_app_l. by eapply lookup_lt_Some.
  - intros q Hq. apply elem_of_seq in Hq as [Hge Hlt].
    assert (Hna : ~ allocated (heap c) q).
    { intros [e He]. apply lookup_lt_Some in He. lia. }
    split; [done|].
    assert (Hwf1 : wf c1).
    { destruct Hsnap as [Hstep|Hstep]; by eapply step_wf. }
    apply (steps_heap_frame c1 evs c2 q Hwf1 Hsteps).
    + apply lookup_lt_is_Some_2. rewrite Hh1, length_app, copies_length; [lia|].
      eapply mapToSlice_allocated; [apply Hwf|done].
    + intros Hh. apply Hna. by apply held_allocated, Hheld.
Qed.

(** A snapshot of the sample scheduler, followed by a timer case and a
    removal. *)
Lemma X18_witness :
  reachable sample_waiting /\
  (step sample_waiting (CallEntries [3; 4; 5]%nat) sample_snapped \/
   step sample_waiting (LoopSnapshot [3; 4; 5]%nat) sample_snapped) /\
  steps sample_snapped
    [LoopFire 160 [(2%nat, job 3); (0%nat, job 1)]; CallRemove "a"]
    sample_later /\
  (exists order,
      order ≡ₚ mapToSlice (entries sample_waiting) /\
      Forall2 (fun q p => exists e,
                 heap sample_waiting !! p = Some e /\
                 heap sample_snapped !! q =
                   Some (mkEntry (Entry_Schedule e) (Next e) (Prev e)
                           EmptyString (Entry_Job e)))
              [3; 4; 5]%nat order) /\
  entries sample_snapped = entries sample_waiting /\
  (forall p, allocated (heap sample_waiting) p ->
             heap sample_snapped !! p = heap sample_waiting !! p) /\
  (forall q, q ∈ [3; 4; 5]%nat ->
             ~ allocated (heap sample_waiting) q /\
             heap sample_later !! q = heap sample_snapped !! q).
Proof.
  split; [apply sample_waiting_reachable|].
  split; [right; apply sample_snapped_step|].
  split; [apply sample_later_steps|].
  apply (X18_snapshot_independent sample_waiting sample_snapped sample_later
           [3; 4; 5]%nat _ sample_waiting_reachable
           (or_intror sample_snapped_step) sample_later_steps).
Defined.
